(** * gcc-time-trace-plugin: event tracker and trace writer

    A shallow embedding of [src/event.hpp] (the event model and
    [EventTracker]), of the trace writer ([TraceWriter], [WriteCallback])
    and of [src/plugin.cpp] ([finish_callback], the callbacks that record
    the events, [setup_option], [collect_passes] and the loop of
    [setup_time_trace_passes] that registers a pass after each pass of
    the host), followed by the properties the specification states about
    them and by further properties of the code.

    Conventions.
    - [EventTimePoint] is the nanosecond count of a [steady_clock] time
      point, kept as a [Z]; real readings lie in [0, 2^63), so the
      differences the writer takes never leave the 64-bit range.
    - A [std::forward_list] is a [list] whose head is the front.
    - A [std::unordered_map] is a [gmap].  The order in which a range-for
      visits its entries is left open by C++; it is the parameter
      [IterationOrder] of the model, and what is proved about [finish]
      and the trace file holds for every such order.
    - The [Callback] template parameter of [EventTracker] is the class
      [Callback]: the state [W] of the callback object, which the tracker
      holds in [_cb], and what a call does to it.  [record_calls] is the
      callback that only keeps the calls it receives; [WriteCallback] is
      the one of the plugin. *)

From stdpp Require Import gmap strings list fin_maps pretty sorting.
From Stdlib Require Import Ascii.
From Equations Require Import Equations.

Open Scope Z_scope.

(** ** Event model (event.hpp) *)

Module UnitEventKind.
Inductive t := Start | End.
End UnitEventKind.

Module IncludeEventKind.
Inductive t := Enter | Leave.
End IncludeEventKind.

Module ParseEventKind.
Inductive t := Start | PreGenericize | Finish.
End ParseEventKind.

Module PassEventKind.
Inductive t := Start | End.
End PassEventKind.

(** A declaration node of the host compiler.  [DECL_PT_UID] is the key the
    plugin reads from it; [decl_id] tells apart nodes that share it. *)
Record tree_decl := { DECL_PT_UID : N; decl_id : N }.

(** [tree] is a pointer to a node; [NULL_TREE] is the null pointer. *)
Definition tree := option tree_decl.
Definition NULL_TREE : tree := None.

Record UnitEvent := { unit_kind : UnitEventKind.t }.

Record IncludeEvent := {
  include_kind : IncludeEventKind.t;
  filename : string
}.

(** Every site that builds a [ParseEvent] reads [DECL_PT_UID (fndecl)]
    from the node first, so its [decl] is never null. *)
Record ParseEvent := {
  parse_kind : ParseEventKind.t;
  parse_decl : tree_decl;
  parse_uid : N
}.

Record PassEvent := {
  pass_kind : PassEventKind.t;
  name : string;
  pass_decl : tree;
  pass_uid : N
}.

Definition EventTimePoint := Z.
Definition EventTimePoint_max : EventTimePoint := 2 ^ 63 - 1.

Record EventRecord (E : Type) := {
  timestamp : EventTimePoint;
  event : E
}.
Arguments timestamp {E} _.
Arguments event {E} _.

(** ** The callback interface

    [on_match] and [on_mismatch] are member templates over the event
    type; [AnyCall] tags a call with the instance that was called. *)

Inductive Call (E : Type) :=
| on_match (start end_ : EventRecord E)
| on_mismatch (end_ : EventRecord E).
Arguments on_match {E} _ _.
Arguments on_mismatch {E} _.

Inductive AnyCall :=
| UnitCall (c : Call UnitEvent)
| IncludeCall (c : Call IncludeEvent)
| ParseCall (c : Call ParseEvent)
| PassCall (c : Call PassEvent).

(** A record of any of the four event types. *)
Inductive AnyRecord :=
| RUnit (r : EventRecord UnitEvent)
| RInclude (r : EventRecord IncludeEvent)
| RParse (r : EventRecord ParseEvent)
| RPass (r : EventRecord PassEvent).

(** A callback object with state [W]: [call (inj (on_match s e)) w] is
    [cb.on_match(s, e)], [call (inj (on_mismatch e)) w] is
    [cb.on_mismatch(e)]. *)
Class Callback (W : Type) := call : AnyCall → W → W.

(** The callback that records the calls made on it, oldest first. *)
Definition Log := list AnyCall.
#[export] Instance record_calls : Callback Log := λ c log, log ++ [c].

(** ** The order of a std::unordered_map

    A range-for over a [std::unordered_map] visits every entry once, in an
    order the language does not fix.  [iterate] is that order; the model
    takes one for each content of a map.  The two collections of one type
    that a tracker holds never have the same entries unless they are empty
    (one holds [Start] records, the other [PreGenericize] records), so this
    leaves every order of the code open. *)
Class IterationOrder := {
  iterate : ∀ {K} `{Countable K} {V}, gmap K V → list (K * V);
  iterate_entries : ∀ {K} `{Countable K} {V} (m : gmap K V),
    iterate m ≡ₚ map_to_list m
}.

(** ** EventTracker (event.hpp) *)

Abbreviation Stack E := (list (EventRecord E)) (only parsing).

Record EventTracker (W : Type) := {
  _unit_events : Stack UnitEvent;
  _include_events : Stack IncludeEvent;
  _parse_events : gmap N (Stack ParseEvent);
  _genericize_events : gmap N (Stack ParseEvent);
  _pass_events : gmap string (Stack PassEvent);
  _cb : W
}.
Arguments _unit_events {W} _.
Arguments _include_events {W} _.
Arguments _parse_events {W} _.
Arguments _genericize_events {W} _.
Arguments _pass_events {W} _.
Arguments _cb {W} _.

(** [try_match_stack]: the callback runs on the front entry before it is
    popped; [S] is the part of the program state the callback works on. *)
Definition try_match_stack {E S} (stack : Stack E)
    (cb : option (EventRecord E) → S → S) (st : S) : Stack E * S :=
  match stack with
  | front :: rest => (rest, cb (Some front) st)
  | [] => ([], cb None st)
  end.

(** [try_match_map]: an entry whose stack is empty after the match is
    erased. *)
Definition try_match_map {K E S} `{Countable K}
    (stack_dict : gmap K (Stack E)) (key : K)
    (cb : option (EventRecord E) → S → S) (st : S)
    : gmap K (Stack E) * S :=
  match stack_dict !! key with
  | Some stack =>
      let '(stack', st') := try_match_stack stack cb st in
      match stack' with
      | [] => (delete key stack_dict, st')
      | _ :: _ => (<[key := stack']> stack_dict, st')
      end
  | None => (stack_dict, cb None st)
  end.

(** [dict[key].push_front(record)]: [operator[]] makes an empty stack for
    a key that is absent. *)
Definition push_front_at {K E} `{Countable K}
    (stack_dict : gmap K (Stack E)) (key : K) (record : EventRecord E)
    : gmap K (Stack E) :=
  <[key := record :: default [] (stack_dict !! key)]> stack_dict.

Section Tracker.
Context {W : Type} `{!Callback W} `{!IterationOrder}.

(** A tracker as the constructor leaves it. *)
Definition new_tracker (callback : W) : EventTracker W :=
  {| _unit_events := []; _include_events := [];
     _parse_events := ∅; _genericize_events := ∅; _pass_events := ∅;
     _cb := callback |}.

(** [DefaultMatchCallback<E>{cb, end}]: called with the front of the stack
    or with [nullptr]. *)
Definition DefaultMatchCallback {E} (inj : Call E → AnyCall)
    (end_ : EventRecord E) (start : option (EventRecord E)) (cb : W) : W :=
  match start with
  | Some s => call (inj (on_match s end_)) cb
  | None => call (inj (on_mismatch end_)) cb
  end.

Definition push_event_unit (record : EventRecord UnitEvent)
    (t : EventTracker W) : EventTracker W :=
  match unit_kind (event record) with
  | UnitEventKind.Start =>
      {| _unit_events := record :: _unit_events t;
         _include_events := _include_events t;
         _parse_events := _parse_events t;
         _genericize_events := _genericize_events t;
         _pass_events := _pass_events t;
         _cb := _cb t |}
  | UnitEventKind.End =>
      let '(stack, cb) :=
        try_match_stack (_unit_events t)
          (DefaultMatchCallback UnitCall record) (_cb t) in
      {| _unit_events := stack;
         _include_events := _include_events t;
         _parse_events := _parse_events t;
         _genericize_events := _genericize_events t;
         _pass_events := _pass_events t;
         _cb := cb |}
  end.

Definition push_event_include (record : EventRecord IncludeEvent)
    (t : EventTracker W) : EventTracker W :=
  match include_kind (event record) with
  | IncludeEventKind.Enter =>
      {| _unit_events := _unit_events t;
         _include_events := record :: _include_events t;
         _parse_events := _parse_events t;
         _genericize_events := _genericize_events t;
         _pass_events := _pass_events t;
         _cb := _cb t |}
  | IncludeEventKind.Leave =>
      let '(stack, cb) :=
        try_match_stack (_include_events t)
          (DefaultMatchCallback IncludeCall record) (_cb t) in
      {| _unit_events := _unit_events t;
         _include_events := stack;
         _parse_events := _parse_events t;
         _genericize_events := _genericize_events t;
         _pass_events := _pass_events t;
         _cb := cb |}
  end.

(** The callback of the [PreGenericize] case: a match is passed on, a
    null pointer is dropped. *)
Definition pre_genericize_cb (record : EventRecord ParseEvent)
    (start : option (EventRecord ParseEvent)) (cb : W) : W :=
  match start with
  | Some s => call (ParseCall (on_match s record)) cb
  | None => cb
  end.

(** The callback of the [Finish] case: with no [Start] pending it turns
    to the genericize stacks, which it therefore carries along with the
    callback object. *)
Definition finish_cb (record : EventRecord ParseEvent)
    (start : option (EventRecord ParseEvent))
    (st : gmap N (Stack ParseEvent) * W) : gmap N (Stack ParseEvent) * W :=
  match start with
  | Some s => (st.1, call (ParseCall (on_match s record)) st.2)
  | None =>
      try_match_map st.1 (parse_uid (event record))
        (DefaultMatchCallback ParseCall record) st.2
  end.

Definition push_event_parse (record : EventRecord ParseEvent)
    (t : EventTracker W) : EventTracker W :=
  match parse_kind (event record) with
  | ParseEventKind.Start =>
      {| _unit_events := _unit_events t;
         _include_events := _include_events t;
         _parse_events :=
           push_front_at (_parse_events t) (parse_uid (event record)) record;
         _genericize_events := _genericize_events t;
         _pass_events := _pass_events t;
         _cb := _cb t |}
  | ParseEventKind.PreGenericize =>
      let genericize :=
        push_front_at (_genericize_events t) (parse_uid (event record))
          record in
      let '(parse, cb) :=
        try_match_map (_parse_events t) (parse_uid (event record))
          (pre_genericize_cb record) (_cb t) in
      {| _unit_events := _unit_events t;
         _include_events := _include_events t;
         _parse_events := parse;
         _genericize_events := genericize;
         _pass_events := _pass_events t;
         _cb := cb |}
  | ParseEventKind.Finish =>
      let '(parse, (genericize, cb)) :=
        try_match_map (_parse_events t) (parse_uid (event record))
          (finish_cb record) (_genericize_events t, _cb t) in
      {| _unit_events := _unit_events t;
         _include_events := _include_events t;
         _parse_events := parse;
         _genericize_events := genericize;
         _pass_events := _pass_events t;
         _cb := cb |}
  end.

Definition push_event_pass (record : EventRecord PassEvent)
    (t : EventTracker W) : EventTracker W :=
  match pass_kind (event record) with
  | PassEventKind.Start =>
      {| _unit_events := _unit_events t;
         _include_events := _include_events t;
         _parse_events := _parse_events t;
         _genericize_events := _genericize_events t;
         _pass_events :=
           push_front_at (_pass_events t) (name (event record)) record;
         _cb := _cb t |}
  | PassEventKind.End =>
      let '(pass, cb) :=
        try_match_map (_pass_events t) (name (event record))
          (DefaultMatchCallback PassCall record) (_cb t) in
      {| _unit_events := _unit_events t;
         _include_events := _include_events t;
         _parse_events := _parse_events t;
         _genericize_events := _genericize_events t;
         _pass_events := pass;
         _cb := cb |}
  end.

(** [finish_stack]: every entry, front first, goes to [on_mismatch]; the
    stack is cleared. *)
Definition finish_stack {E} (inj : Call E → AnyCall) (stack : Stack E)
    (cb : W) : Stack E * W :=
  ([], foldl (λ cb entry, call (inj (on_mismatch entry)) cb) cb stack).

(** [finish_map]: [finish_stack] on the stack of every entry, in the
    order of the range-for; the collection is cleared. *)
Definition finish_map {K E} `{Countable K} (inj : Call E → AnyCall)
    (stack_dict : gmap K (Stack E)) (cb : W) : gmap K (Stack E) * W :=
  (∅, foldl (λ cb entry, (finish_stack inj entry.2 cb).2) cb
        (iterate stack_dict)).

Definition finish (t : EventTracker W) : EventTracker W :=
  let '(units, cb) := finish_stack UnitCall (_unit_events t) (_cb t) in
  let '(includes, cb) := finish_stack IncludeCall (_include_events t) cb in
  let '(parse, cb) := finish_map ParseCall (_parse_events t) cb in
  let '(genericize, cb) :=
    finish_map ParseCall (_genericize_events t) cb in
  let '(pass, cb) := finish_map PassCall (_pass_events t) cb in
  {| _unit_events := units;
     _include_events := includes;
     _parse_events := parse;
     _genericize_events := genericize;
     _pass_events := pass;
     _cb := cb |}.

(** The four overloads of [push_event] behind one entry point. *)
Definition push_event (record : AnyRecord) (t : EventTracker W)
    : EventTracker W :=
  match record with
  | RUnit r => push_event_unit r t
  | RInclude r => push_event_include r t
  | RParse r => push_event_parse r t
  | RPass r => push_event_pass r t
  end.

(** Submitting a sequence of records, first to last. *)
Definition submit (records : list AnyRecord) (t : EventTracker W)
    : EventTracker W :=
  foldl (λ t r, push_event r t) t records.

End Tracker.

(** ** Text and printf conversions *)

Definition dquote : ascii := "034"%char.
Definition backslash : ascii := "092"%char.

(** The fragments of the format strings are written with an apostrophe
    where the source has a double quote; the source's format strings hold
    no apostrophe. *)
Fixpoint lit (s : string) : string :=
  match s with
  | EmptyString => EmptyString
  | String c s' => String (if Ascii.eqb c "'" then dquote else c) (lit s')
  end.

(** [%ld] *)
Definition fmt_ld (z : Z) : string := pretty z.

Fixpoint zeros (n : nat) : string :=
  match n with
  | O => EmptyString
  | S n' => String "0" (zeros n')
  end.

(** [%03ld]: a field of at least three characters, the sign counted,
    filled with zeros after the sign. *)
Definition fmt_03ld (z : Z) : string :=
  let digits := pretty (Z.abs_N z) in
  if bool_decide (z < 0)
  then String "-" (zeros (2 - String.length digits) +:+ digits)
  else zeros (3 - String.length digits) +:+ digits.

(** [strcspn (s, reject)] for a one-character [reject]. *)
Fixpoint strcspn (s : string) (reject : ascii) : nat :=
  match s with
  | EmptyString => 0%nat
  | String c s' =>
      if Ascii.eqb c reject then 0%nat else S (strcspn s' reject)
  end.

Fixpoint string_take (n : nat) (s : string) : string :=
  match n, s with
  | S n', String c s' => String c (string_take n' s')
  | _, _ => EmptyString
  end.

Fixpoint string_drop (n : nat) (s : string) : string :=
  match n, s with
  | S n', String c s' => string_drop n' s'
  | _, _ => s
  end.

Definition inspect {A} (a : A) : {b | a = b} := exist _ a eq_refl.

(** The loop of [get_decl_name]: [name] is the rest of the C string still
    to be read, [String.get len name] is [name[len]], which is the
    terminator exactly when [len] is the length of [name]. *)
Equations? escape_loop (name escaped : string) : string
    by wf (String.length name) lt :=
  escape_loop name escaped
    with inspect (String.get (strcspn name dquote) name) := {
    | exist _ (Some _) Hc =>
        escape_loop (string_drop (strcspn name dquote + 1) name)
          (escaped +:+ string_take (strcspn name dquote) name
             +:+ String backslash (String dquote EmptyString));
    | exist _ None _ =>
        escaped +:+ string_take (strcspn name dquote) name }.
Proof.
  assert (∀ n s, String.length (string_drop n s)
                 = (String.length s - n)%nat) as Hdrop.
  { induction n as [|n IH]; intros [|c s]; simpl; auto; lia. }
  assert (∀ s n c, String.get n s = Some c → (n < String.length s)%nat)
    as Hget.
  { induction s as [|c s IH]; intros [|n] c'; simpl; try done; try lia.
    intros Hn. apply IH in Hn. lia. }
  rewrite Hdrop. apply Hget in Hc. lia.
Qed.

(** ** TraceWriter *)

(** [lang_hooks.decl_printable_name (decl, verbosity)] of the host. *)
Class LangHooks := decl_printable_name : tree_decl → Z → string.

Record TraceWriter := {
  _file : string;
  _epoch : EventTimePoint;
  _decl_verbosity : Z;
  _slice_count : N;
  _decl_name_cache : gmap N string
}.

(** [std::fprintf (_file, ...)] with the text already formatted. *)
Definition fprintf (text : string) (w : TraceWriter) : TraceWriter :=
  {| _file := _file w +:+ text;
     _epoch := _epoch w;
     _decl_verbosity := _decl_verbosity w;
     _slice_count := _slice_count w;
     _decl_name_cache := _decl_name_cache w |}.

(** The constructor of [SliceWriter].  [_slice_count] is a [size_t]; it
    counts the entries written and stays far below its range. *)
Definition SliceWriter_open (name : string) (start end_ : EventTimePoint)
    (w : TraceWriter) : TraceWriter :=
  let ts := start - _epoch w in
  let dur := end_ - start in
  let w1 := if bool_decide (0 < _slice_count w)%N then fprintf "," w else w in
  let w2 :=
    {| _file := _file w1;
       _epoch := _epoch w1;
       _decl_verbosity := _decl_verbosity w1;
       _slice_count := (_slice_count w1 + 1)%N;
       _decl_name_cache := _decl_name_cache w1 |} in
  let w3 :=
    fprintf (lit "{'name':'" +:+ name +:+ lit "','ts':"
               +:+ fmt_ld (ts `quot` 1000) +:+ "."
               +:+ fmt_03ld (ts `rem` 1000) +:+ ",") w2 in
  let w4 :=
    if bool_decide (0 < dur)
    then fprintf (lit "'ph':'X','dur':" +:+ fmt_ld (dur `quot` 1000) +:+ "."
                    +:+ fmt_03ld (dur `rem` 1000) +:+ ",") w3
    else fprintf (lit "'ph':'i',") w3 in
  fprintf (lit "'pid':0,'tid':0") w4.

(** The destructor of [SliceWriter]. *)
Definition SliceWriter_close (w : TraceWriter) : TraceWriter :=
  fprintf "}" w.

Definition ArgWriter_open (w : TraceWriter) : TraceWriter :=
  fprintf (lit ",'args':{") w.

Definition ArgWriter_close (w : TraceWriter) : TraceWriter :=
  fprintf "}" w.

(** The constructor [TraceWriter (file, epoch, decl_verbosity)] on an
    empty file. *)
Definition TraceWriter_open (epoch : EventTimePoint) (decl_verbosity : Z)
    : TraceWriter :=
  fprintf "["
    {| _file := EmptyString; _epoch := epoch;
       _decl_verbosity := decl_verbosity; _slice_count := 0%N;
       _decl_name_cache := ∅ |}.

(** The destructor of [TraceWriter]. *)
Definition TraceWriter_close (w : TraceWriter) : TraceWriter :=
  fprintf "]" w.

Section Writer.
Context `{!LangHooks} `{!IterationOrder}.

Definition get_decl_name (decl : tree_decl) (w : TraceWriter)
    : string * TraceWriter :=
  let uid := DECL_PT_UID decl in
  match _decl_name_cache w !! uid with
  | Some cached => (cached, w)
  | None =>
      let escaped :=
        escape_loop (decl_printable_name decl (_decl_verbosity w))
          EmptyString in
      (escaped,
       {| _file := _file w;
          _epoch := _epoch w;
          _decl_verbosity := _decl_verbosity w;
          _slice_count := _slice_count w;
          _decl_name_cache := <[uid := escaped]> (_decl_name_cache w) |})
  end.

(** An [ArgWriter] scope with the one argument [function], whose value is
    [get_decl_name (decl)]. *)
Definition write_function_arg (decl : tree_decl) (w : TraceWriter)
    : TraceWriter :=
  let w1 := ArgWriter_open w in
  let '(decl_name, w2) := get_decl_name decl w1 in
  let w3 := fprintf (lit "'function':'" +:+ decl_name +:+ lit "'") w2 in
  ArgWriter_close w3.

(** An [ArgWriter] scope with the one argument [file], whose value is the
    file name as it is. *)
Definition write_file_arg (file : string) (w : TraceWriter) : TraceWriter :=
  let w1 := ArgWriter_open w in
  let w2 := fprintf (lit "'file':'" +:+ file +:+ lit "'") w1 in
  ArgWriter_close w2.

(** The overloads of [write_slice] for a matched pair. *)

Definition write_slice_unit2 (start end_ : EventRecord UnitEvent)
    (w : TraceWriter) : TraceWriter :=
  SliceWriter_close
    (SliceWriter_open "unit" (timestamp start) (timestamp end_) w).

Definition write_slice_include2 (start end_ : EventRecord IncludeEvent)
    (w : TraceWriter) : TraceWriter :=
  let w1 := SliceWriter_open "include" (timestamp start) (timestamp end_) w in
  SliceWriter_close (write_file_arg (filename (event start)) w1).

(** The local [name] of the [ParseEvent] overload: the kind of the begin
    decides between the two intervals of a function. *)
Definition parse_slice_name (start : EventRecord ParseEvent) : string :=
  match parse_kind (event start) with
  | ParseEventKind.Start => "parse"
  | _ => "genericize"
  end.

Definition write_slice_parse2 (start end_ : EventRecord ParseEvent)
    (w : TraceWriter) : TraceWriter :=
  let name := parse_slice_name start in
  let w1 := SliceWriter_open name (timestamp start) (timestamp end_) w in
  SliceWriter_close (write_function_arg (parse_decl (event start)) w1).

Definition write_slice_pass2 (start end_ : EventRecord PassEvent)
    (w : TraceWriter) : TraceWriter :=
  let w1 :=
    SliceWriter_open (name (event start)) (timestamp start)
      (timestamp end_) w in
  match pass_decl (event start) with
  | Some decl => SliceWriter_close (write_function_arg decl w1)
  | None => SliceWriter_close w1
  end.

(** The overloads of [write_slice] for a single record. *)

Definition write_slice_unit1 (end_ : EventRecord UnitEvent)
    (w : TraceWriter) : TraceWriter :=
  let name :=
    match unit_kind (event end_) with
    | UnitEventKind.Start => "unit (start)"
    | UnitEventKind.End => "unit (end)"
    end in
  SliceWriter_close
    (SliceWriter_open name (timestamp end_) (timestamp end_) w).

Definition write_slice_include1 (end_ : EventRecord IncludeEvent)
    (w : TraceWriter) : TraceWriter :=
  let name :=
    match include_kind (event end_) with
    | IncludeEventKind.Enter => "include (enter)"
    | IncludeEventKind.Leave => "include (leave)"
    end in
  let w1 := SliceWriter_open name (timestamp end_) (timestamp end_) w in
  match include_kind (event end_) with
  | IncludeEventKind.Enter =>
      SliceWriter_close (write_file_arg (filename (event end_)) w1)
  | IncludeEventKind.Leave => SliceWriter_close w1
  end.

(** [end.event.decl] of a [ParseEvent] is never null, so the test on it
    always passes. *)
Definition write_slice_parse1 (end_ : EventRecord ParseEvent)
    (w : TraceWriter) : TraceWriter :=
  match parse_kind (event end_) with
  | ParseEventKind.Start => w
  | kind =>
      let name :=
        match kind with
        | ParseEventKind.PreGenericize => "genericize (start)"
        | _ => "parse (finish)"
        end in
      let w1 := SliceWriter_open name (timestamp end_) (timestamp end_) w in
      SliceWriter_close (write_function_arg (parse_decl (event end_)) w1)
  end.

Definition write_slice_pass1 (end_ : EventRecord PassEvent)
    (w : TraceWriter) : TraceWriter :=
  let name :=
    name (event end_) +:+
    match pass_kind (event end_) with
    | PassEventKind.Start => " (start)"
    | PassEventKind.End => " (cancelled)"
    end in
  let w1 := SliceWriter_open name (timestamp end_) (timestamp end_) w in
  match pass_decl (event end_) with
  | Some decl => SliceWriter_close (write_function_arg decl w1)
  | None => SliceWriter_close w1
  end.

(** [write_slice (std::string name, start, end)] *)
Definition write_slice_custom (name : string) (start end_ : EventTimePoint)
    (w : TraceWriter) : TraceWriter :=
  SliceWriter_close (SliceWriter_open name start end_ w).

(** [WriteCallback]: [on_match] and [on_mismatch] go to the overload of
    [write_slice] for the event type. *)
#[export] Instance WriteCallback : Callback TraceWriter := λ c writer,
  match c with
  | UnitCall (on_match s e) => write_slice_unit2 s e writer
  | UnitCall (on_mismatch e) => write_slice_unit1 e writer
  | IncludeCall (on_match s e) => write_slice_include2 s e writer
  | IncludeCall (on_mismatch e) => write_slice_include1 e writer
  | ParseCall (on_match s e) => write_slice_parse2 s e writer
  | ParseCall (on_mismatch e) => write_slice_parse1 e writer
  | PassCall (on_match s e) => write_slice_pass2 s e writer
  | PassCall (on_mismatch e) => write_slice_pass1 e writer
  end.

(** ** finish_callback (plugin.cpp)

    [trace_unit] ... [trace_pass] are the global buffers as the callbacks
    left them, latest record at the front; [dump_start] and [dump_end] are
    the two readings of the clock.  The result is the content of the trace
    file once every object of the function is destroyed: the tracker
    first, whose destructor calls [finish] again, then the writer. *)

Definition min4 (a b c d : EventTimePoint) : EventTimePoint :=
  Z.min (Z.min (Z.min a b) c) d.

Definition front_time {E} (buffer : list (EventRecord E)) : EventTimePoint :=
  match buffer with
  | [] => EventTimePoint_max
  | r :: _ => timestamp r
  end.

Definition finish_callback
    (trace_unit : list (EventRecord UnitEvent))
    (trace_include : list (EventRecord IncludeEvent))
    (trace_parse : list (EventRecord ParseEvent))
    (trace_pass : list (EventRecord PassEvent))
    (decl_verbosity : Z) (dump_start dump_end : EventTimePoint) : string :=
  let trace_unit := reverse trace_unit in
  let trace_include := reverse trace_include in
  let trace_parse := reverse trace_parse in
  let trace_pass := reverse trace_pass in
  let epoch :=
    min4 (front_time trace_unit) (front_time trace_include)
      (front_time trace_parse) (front_time trace_pass) in
  let writer := TraceWriter_open epoch decl_verbosity in
  let tracker := new_tracker writer in
  let tracker := foldl (λ t r, push_event (RUnit r) t) tracker trace_unit in
  let tracker :=
    foldl (λ t r, push_event (RInclude r) t) tracker trace_include in
  let tracker := foldl (λ t r, push_event (RParse r) t) tracker trace_parse in
  let tracker := foldl (λ t r, push_event (RPass r) t) tracker trace_pass in
  let tracker := finish tracker in
  let writer := write_slice_custom "plugin_dump" dump_start dump_end
                  (_cb tracker) in
  let tracker :=
    finish
      {| _unit_events := _unit_events tracker;
         _include_events := _include_events tracker;
         _parse_events := _parse_events tracker;
         _genericize_events := _genericize_events tracker;
         _pass_events := _pass_events tracker;
         _cb := writer |} in
  _file (TraceWriter_close (_cb tracker)).

End Writer.

(** ** The recording callbacks (plugin.cpp)

    The callbacks the host calls while it compiles.  Each one that makes a
    record reads the clock once, in the constructor of [EventRecord]; the
    reading is the argument [now].  [State] holds the global variables of
    the plugin and the two places of the host the callbacks act on: the
    [file_change] callback of the reader, and the calls passed on to the
    callback that was there before. *)

(** The constructor [EventRecord (event)]. *)
Definition new_record {E} (now : EventTimePoint) (ev : E) : EventRecord E :=
  {| timestamp := now; event := ev |}.

(** The reasons of a line map of the host (line-map.h). *)
Inductive lc_reason :=
| LC_ENTER | LC_LEAVE | LC_RENAME | LC_RENAME_VERBATIM | LC_ENTER_MACRO.

Record line_map_ordinary := {
  reason : lc_reason;
  to_file : string
}.

Definition ORDINARY_MAP_FILE_NAME (line_map : line_map_ordinary) : string :=
  to_file line_map.

(** A value of the [file_change] member of the reader's callbacks: a
    function of the host, or the plugin's own [cb_file_change]. *)
Inductive file_change_fn :=
| host_file_change (id : N)
| plugin_cb_file_change.

(** A diagnostic: the format string and the arguments given to [error]. *)
Record diagnostic := {
  format : string;
  arguments : list string
}.

Record State := {
  decl_verbosity : Z;
  version_check : bool;
  old_cb_file_change : option file_change_fn;
  trace_unit : list (EventRecord UnitEvent);
  trace_include : list (EventRecord IncludeEvent);
  trace_parse : list (EventRecord ParseEvent);
  trace_pass : list (EventRecord PassEvent);
  (** [cpp_get_callbacks (parse_in)->file_change] *)
  file_change : option file_change_fn;
  (** the calls made through [old_cb_file_change], oldest first *)
  forwarded : list (N * option line_map_ordinary);
  (** the diagnostics given to [error], oldest first *)
  diagnostics : list diagnostic
}.

(** The state when the plugin is loaded: its globals are zero, the reader
    has the callback of the host, if any. *)
Definition loaded (host : option N) : State :=
  {| decl_verbosity := 0; version_check := false;
     old_cb_file_change := None;
     trace_unit := []; trace_include := []; trace_parse := [];
     trace_pass := [];
     file_change := host_file_change <$> host;
     forwarded := []; diagnostics := [] |}.

(** [trace_unit.push_front (record)] and its like. *)
Definition push_trace_unit (record : EventRecord UnitEvent) (g : State)
    : State :=
  {| decl_verbosity := decl_verbosity g; version_check := version_check g;
     old_cb_file_change := old_cb_file_change g;
     trace_unit := record :: trace_unit g;
     trace_include := trace_include g; trace_parse := trace_parse g;
     trace_pass := trace_pass g;
     file_change := file_change g; forwarded := forwarded g;
     diagnostics := diagnostics g |}.

Definition push_trace_include (record : EventRecord IncludeEvent)
    (g : State) : State :=
  {| decl_verbosity := decl_verbosity g; version_check := version_check g;
     old_cb_file_change := old_cb_file_change g;
     trace_unit := trace_unit g;
     trace_include := record :: trace_include g;
     trace_parse := trace_parse g; trace_pass := trace_pass g;
     file_change := file_change g; forwarded := forwarded g;
     diagnostics := diagnostics g |}.

Definition push_trace_parse (record : EventRecord ParseEvent) (g : State)
    : State :=
  {| decl_verbosity := decl_verbosity g; version_check := version_check g;
     old_cb_file_change := old_cb_file_change g;
     trace_unit := trace_unit g; trace_include := trace_include g;
     trace_parse := record :: trace_parse g;
     trace_pass := trace_pass g;
     file_change := file_change g; forwarded := forwarded g;
     diagnostics := diagnostics g |}.

Definition push_trace_pass (record : EventRecord PassEvent) (g : State)
    : State :=
  {| decl_verbosity := decl_verbosity g; version_check := version_check g;
     old_cb_file_change := old_cb_file_change g;
     trace_unit := trace_unit g; trace_include := trace_include g;
     trace_parse := trace_parse g;
     trace_pass := record :: trace_pass g;
     file_change := file_change g; forwarded := forwarded g;
     diagnostics := diagnostics g |}.

(** [cb_file_change]: an enter and a leave are recorded, a leave with the
    empty file name of an [IncludeEvent] built from the kind alone; then
    the call goes on to the callback that was installed before, if there
    was one.  When that callback is [cb_file_change] itself the function
    calls itself without end and does not return. *)
Definition cb_file_change (now : EventTimePoint)
    (line_map : option line_map_ordinary) (g : State) : option State :=
  let g1 :=
    match line_map with
    | Some lm =>
        match reason lm with
        | LC_ENTER =>
            push_trace_include
              (new_record now
                 {| include_kind := IncludeEventKind.Enter;
                    filename := ORDINARY_MAP_FILE_NAME lm |}) g
        | LC_LEAVE =>
            push_trace_include
              (new_record now
                 {| include_kind := IncludeEventKind.Leave;
                    filename := EmptyString |}) g
        | _ => g
        end
    | None => g
    end in
  match old_cb_file_change g1 with
  | None => Some g1
  | Some (host_file_change id) =>
      Some {| decl_verbosity := decl_verbosity g1;
              version_check := version_check g1;
              old_cb_file_change := old_cb_file_change g1;
              trace_unit := trace_unit g1;
              trace_include := trace_include g1;
              trace_parse := trace_parse g1;
              trace_pass := trace_pass g1;
              file_change := file_change g1;
              forwarded := forwarded g1 ++ [(id, line_map)];
              diagnostics := diagnostics g1 |}
  | Some plugin_cb_file_change => None
  end.

(** [start_unit_callback]: the callback of the reader is kept in
    [old_cb_file_change] and replaced by [cb_file_change]. *)
Definition start_unit_callback (now : EventTimePoint) (g : State) : State :=
  push_trace_unit (new_record now {| unit_kind := UnitEventKind.Start |})
    {| decl_verbosity := decl_verbosity g;
       version_check := version_check g;
       old_cb_file_change := file_change g;
       trace_unit := trace_unit g; trace_include := trace_include g;
       trace_parse := trace_parse g; trace_pass := trace_pass g;
       file_change := Some plugin_cb_file_change;
       forwarded := forwarded g; diagnostics := diagnostics g |}.

Definition finish_unit_callback (now : EventTimePoint) (g : State) : State :=
  push_trace_unit (new_record now {| unit_kind := UnitEventKind.End |}) g.

(** The three callbacks of a function body read [DECL_PT_UID] from the
    node they are given. *)
Definition start_parse_function_callback (now : EventTimePoint)
    (fndecl : tree_decl) (g : State) : State :=
  push_trace_parse
    (new_record now
       {| parse_kind := ParseEventKind.Start; parse_decl := fndecl;
          parse_uid := DECL_PT_UID fndecl |}) g.

Definition pre_genericize_callback (now : EventTimePoint)
    (fndecl : tree_decl) (g : State) : State :=
  push_trace_parse
    (new_record now
       {| parse_kind := ParseEventKind.PreGenericize; parse_decl := fndecl;
          parse_uid := DECL_PT_UID fndecl |}) g.

Definition finish_parse_function_callback (now : EventTimePoint)
    (fndecl : tree_decl) (g : State) : State :=
  push_trace_parse
    (new_record now
       {| parse_kind := ParseEventKind.Finish; parse_decl := fndecl;
          parse_uid := DECL_PT_UID fndecl |}) g.

(** A [PassEvent] built from the kind and the name alone has a null
    [decl] and the [uid] zero. *)
Definition early_gimple_passes_start_callback (now : EventTimePoint)
    (g : State) : State :=
  push_trace_pass
    (new_record now
       {| pass_kind := PassEventKind.Start; name := "early_gimple_passes";
          pass_decl := NULL_TREE; pass_uid := 0 |}) g.

Definition early_gimple_passes_end_callback (now : EventTimePoint)
    (g : State) : State :=
  push_trace_pass
    (new_record now
       {| pass_kind := PassEventKind.End; name := "early_gimple_passes";
          pass_decl := NULL_TREE; pass_uid := 0 |}) g.

Definition all_ipa_passes_start_callback (now : EventTimePoint)
    (g : State) : State :=
  push_trace_pass
    (new_record now
       {| pass_kind := PassEventKind.Start; name := "all_ipa_passes";
          pass_decl := NULL_TREE; pass_uid := 0 |}) g.

Definition all_ipa_passes_end_callback (now : EventTimePoint)
    (g : State) : State :=
  push_trace_pass
    (new_record now
       {| pass_kind := PassEventKind.End; name := "all_ipa_passes";
          pass_decl := NULL_TREE; pass_uid := 0 |}) g.

(** *** The passes the callbacks read *)

Module TimeTracePassKind.
Inductive t := Single | StartList | EndList.
End TimeTracePassKind.

(** The pass types of the host (tree-pass.h). *)
Inductive opt_pass_type := GIMPLE_PASS | RTL_PASS | SIMPLE_IPA_PASS | IPA_PASS.

#[export] Instance opt_pass_type_eq_dec : EqDecision opt_pass_type.
Proof. solve_decision. Defined.

(** A pass of the host with the members the plugin reads.  A pointer to a
    pass is a list of passes: the pass it points to, then the passes its
    [next] members lead to; the null pointer is the empty list.  So [sub]
    is the list of the passes below this one. *)
Module OptPass.
#[warnings="-register-all"]
Inductive t := mk {
  name : string;
  type : opt_pass_type;
  static_pass_number : Z;
  sub : list t
}.
End OptPass.

(** A [TimeTracePass]; its [opt_pass] part has the type given and the name
    [*time_trace]. *)
Record TimeTracePass := {
  pass_type : opt_pass_type;
  trace_kind : TimeTracePassKind.t;
  trace_name : string
}.

(** What [current_pass] points to: a pass of the host or one of the
    plugin. *)
Inductive pass_object :=
| host_pass (pass : OptPass.t)
| time_trace_pass (pass : TimeTracePass).

Definition pass_object_name (pass : pass_object) : string :=
  match pass with
  | host_pass p => OptPass.name p
  | time_trace_pass _ => "*time_trace"
  end.

(** [-1u], the [uid] of an event of no function. *)
Definition no_uid : N := 4294967295.

(** [override_gate_callback]: a pass is taken for a [TimeTracePass] by its
    name; the cast of a pass of that name that is none has no defined
    result. *)
Definition override_gate_callback (now : EventTimePoint)
    (current_pass : pass_object) (current_function_decl : tree)
    (g : State) : option State :=
  if bool_decide (pass_object_name current_pass = "*time_trace") then
    match current_pass with
    | time_trace_pass pass =>
        let uid :=
          match current_function_decl with
          | Some decl => DECL_PT_UID decl
          | None => no_uid
          end in
        Some
          match trace_kind pass with
          | TimeTracePassKind.Single =>
              push_trace_pass
                (new_record now
                   {| pass_kind := PassEventKind.End;
                      name := trace_name pass;
                      pass_decl := NULL_TREE; pass_uid := no_uid |}) g
          | TimeTracePassKind.StartList =>
              push_trace_pass
                (new_record now
                   {| pass_kind := PassEventKind.Start;
                      name := trace_name pass;
                      pass_decl := current_function_decl;
                      pass_uid := uid |}) g
          | TimeTracePassKind.EndList =>
              push_trace_pass
                (new_record now
                   {| pass_kind := PassEventKind.End;
                      name := trace_name pass;
                      pass_decl := current_function_decl;
                      pass_uid := uid |}) g
          end
    | host_pass _ => None
    end
  else Some g.

Definition pass_execution_callback (now : EventTimePoint)
    (pass : OptPass.t) (g : State) : State :=
  push_trace_pass
    (new_record now
       {| pass_kind := PassEventKind.Start; name := OptPass.name pass;
          pass_decl := NULL_TREE; pass_uid := no_uid |}) g.

(** A call of the host into the plugin: the event raised, named as
    [setup_plugin_callbacks] registers the callback for it, with what the
    callback reads; or a file change of the reader. *)
Inductive Invocation :=
| PLUGIN_START_UNIT
| PLUGIN_FINISH_UNIT
| PLUGIN_START_PARSE_FUNCTION (fndecl : tree_decl)
| PLUGIN_PRE_GENERICIZE (fndecl : tree_decl)
| PLUGIN_FINISH_PARSE_FUNCTION (fndecl : tree_decl)
| PLUGIN_EARLY_GIMPLE_PASSES_START
| PLUGIN_EARLY_GIMPLE_PASSES_END
| PLUGIN_ALL_IPA_PASSES_START
| PLUGIN_ALL_IPA_PASSES_END
| PLUGIN_OVERRIDE_GATE (current_pass : pass_object)
    (current_function_decl : tree)
| PLUGIN_PASS_EXECUTION (pass : OptPass.t)
| FILE_CHANGE (line_map : option line_map_ordinary).

Definition invoke (now : EventTimePoint) (inv : Invocation) (g : State)
    : option State :=
  match inv with
  | PLUGIN_START_UNIT => Some (start_unit_callback now g)
  | PLUGIN_FINISH_UNIT => Some (finish_unit_callback now g)
  | PLUGIN_START_PARSE_FUNCTION fndecl =>
      Some (start_parse_function_callback now fndecl g)
  | PLUGIN_PRE_GENERICIZE fndecl =>
      Some (pre_genericize_callback now fndecl g)
  | PLUGIN_FINISH_PARSE_FUNCTION fndecl =>
      Some (finish_parse_function_callback now fndecl g)
  | PLUGIN_EARLY_GIMPLE_PASSES_START =>
      Some (early_gimple_passes_start_callback now g)
  | PLUGIN_EARLY_GIMPLE_PASSES_END =>
      Some (early_gimple_passes_end_callback now g)
  | PLUGIN_ALL_IPA_PASSES_START => Some (all_ipa_passes_start_callback now g)
  | PLUGIN_ALL_IPA_PASSES_END => Some (all_ipa_passes_end_callback now g)
  | PLUGIN_OVERRIDE_GATE current_pass current_function_decl =>
      override_gate_callback now current_pass current_function_decl g
  | PLUGIN_PASS_EXECUTION pass => Some (pass_execution_callback now pass g)
  | FILE_CHANGE line_map => cb_file_change now line_map g
  end.

(** The calls of a compilation, each with the reading of the clock it
    gets, first to last. *)
Fixpoint run (invs : list (EventTimePoint * Invocation)) (g : State)
    : option State :=
  match invs with
  | [] => Some g
  | (now, inv) :: rest =>
      match invoke now inv g with
      | Some g' => run rest g'
      | None => None
      end
  end.

(** [finish_callback] on the globals. *)
Definition finish_callback_on `{!LangHooks} `{!IterationOrder} (g : State)
    (dump_start dump_end : EventTimePoint) : string :=
  finish_callback (trace_unit g) (trace_include g) (trace_parse g)
    (trace_pass g) (decl_verbosity g) dump_start dump_end.

(** ** setup_option (plugin.cpp) *)

Record plugin_argument := {
  key : string;
  value : option string
}.

(** [argc] is the length of [argv]. *)
Record plugin_name_args := {
  base_name : string;
  argv : list plugin_argument
}.

(** [error (format, ...)] of the host, as the diagnostic it is given. *)
Definition error (fmt : string) (args : list string) (g : State) : State :=
  {| decl_verbosity := decl_verbosity g; version_check := version_check g;
     old_cb_file_change := old_cb_file_change g;
     trace_unit := trace_unit g; trace_include := trace_include g;
     trace_parse := trace_parse g; trace_pass := trace_pass g;
     file_change := file_change g; forwarded := forwarded g;
     diagnostics := diagnostics g ++ [{| format := fmt; arguments := args |}]
  |}.

Definition set_decl_verbosity (v : Z) (g : State) : State :=
  {| decl_verbosity := v; version_check := version_check g;
     old_cb_file_change := old_cb_file_change g;
     trace_unit := trace_unit g; trace_include := trace_include g;
     trace_parse := trace_parse g; trace_pass := trace_pass g;
     file_change := file_change g; forwarded := forwarded g;
     diagnostics := diagnostics g |}.

Definition set_version_check (b : bool) (g : State) : State :=
  {| decl_verbosity := decl_verbosity g; version_check := b;
     old_cb_file_change := old_cb_file_change g;
     trace_unit := trace_unit g; trace_include := trace_include g;
     trace_parse := trace_parse g; trace_pass := trace_pass g;
     file_change := file_change g; forwarded := forwarded g;
     diagnostics := diagnostics g |}.

(** The loop of [setup_option] from argument [i] on; [rest] holds the
    arguments from [i]. *)
Fixpoint setup_option_from (base : string) (rest : list plugin_argument)
    (g : State) : bool * State :=
  match rest with
  | [] => (true, g)
  | arg :: rest' =>
      if bool_decide (key arg = "verbose-decl") then
        match value arg with
        | None =>
            (false,
             error "missing argument to %<-fplugin-arg-%s-%s%>"
               [base; key arg] g)
        | Some v =>
            if bool_decide (v = "0") then
              setup_option_from base rest' (set_decl_verbosity 0 g)
            else if bool_decide (v = "1") then
              setup_option_from base rest' (set_decl_verbosity 1 g)
            else if bool_decide (v = "2") then
              setup_option_from base rest' (set_decl_verbosity 2 g)
            else
              (false,
               error "argument of %<-fplugin-arg-%s-%s%> must be 0, 1, or 2"
                 [base; key arg] g)
        end
      else if bool_decide (key arg = "disable-version-check") then
        match value arg with
        | Some _ =>
            (false,
             error "unexpected argument to %<-fplugin-arg-%s-%s%>"
               [base; key arg] g)
        | None => setup_option_from base rest' (set_version_check false g)
        end
      else
        (false,
         error
           "unrecoginized timetrace plugin option %<-fplugin-arg-%s-%s%>"
           [base; key arg] g)
  end.

Definition setup_option (args : plugin_name_args) (g : State)
    : bool * State :=
  setup_option_from (base_name args) (argv args)
    (set_version_check true (set_decl_verbosity 1 g)).

(** ** collect_passes and setup_time_trace_passes (plugin.cpp) *)

(** One round of the loop of [collect_passes]: the pass is appended, then
    the passes below it are collected. *)
Fixpoint collect_pass (pass : OptPass.t) (passes : list OptPass.t)
    : list OptPass.t :=
  foldl (λ passes sub_pass, collect_pass sub_pass passes) (passes ++ [pass])
    (OptPass.sub pass).

(** [collect_passes (pass, passes)]: the loop along [next]. *)
Definition collect_passes (pass : list OptPass.t)
    (passes : list OptPass.t) : list OptPass.t :=
  foldl (λ passes p, collect_pass p passes) passes pass.

Inductive pass_positioning_ops :=
| PASS_POS_INSERT_AFTER | PASS_POS_INSERT_BEFORE | PASS_POS_REPLACE.

(** A call [register_pass (pass, pos, ref_pass_name, ref_pass_inst_number)]. *)
Record register_pass_call := {
  pass : TimeTracePass;
  pos : pass_positioning_ops;
  ref_pass_name : string;
  ref_pass_inst_number : Z
}.

(** The [probe] of [setup_time_trace_passes] for the pass [i]. *)
Definition probe (i pass : OptPass.t) : bool :=
  bool_decide (OptPass.type pass ≠ OptPass.type i)
  || negb (bool_decide (OptPass.name pass = OptPass.name i)).

(** The second loop of [setup_time_trace_passes], from the pass [i] on:
    [before] holds the collected passes before [i], [rest] those from [i].
    The result is the calls of [register_pass] it makes, in order.  The
    host links a registered pass into its lists and leaves the name and
    the type of the passes that are there as they are, so the calls are
    those the loop makes on the passes as they were collected. *)
Fixpoint register_single_from (before rest : list OptPass.t)
    : list register_pass_call :=
  match rest with
  | [] => []
  | i :: rest' =>
      (if forallb (probe i) before
       then [{| pass := {| pass_type := OptPass.type i;
                           trace_kind := TimeTracePassKind.Single;
                           trace_name := OptPass.name i |};
                pos := PASS_POS_INSERT_AFTER;
                ref_pass_name := OptPass.name i;
                ref_pass_inst_number := 0 |}]
       else [])
      ++ register_single_from (before ++ [i]) rest'
  end.

(** The first two loops of [setup_time_trace_passes] on the pass lists of
    the host: every pass is collected, then one pass of the plugin is
    registered after each. *)
Definition register_single_passes (pass_lists : list (list OptPass.t))
    : list register_pass_call :=
  register_single_from []
    (foldl (λ passes list, collect_passes list passes) [] pass_lists).

(** * Vocabulary of the properties *)

(** ** Keyed stacks *)

Section stack_vocabulary.
Context {K E : Type} `{Countable K}.
Implicit Types (m : gmap K (Stack E)) (k : K) (s : Stack E).

(** The pending entries of a key, front first; none for an absent key. *)
Definition stack_at m k : Stack E := default [] (m !! k).

(** The collection with the stack of [k] replaced, an empty one erased. *)
Definition set_stack_at m k s : gmap K (Stack E) :=
  match s with
  | [] => delete k m
  | _ :: _ => <[k := s]> m
  end.

(** No key maps to an empty stack. *)
Definition no_empty m : Prop := ∀ k, m !! k ≠ Some [].

(** Every stack of the collection is non-empty and holds only records
    that [P] accepts for its key. *)
Definition stacks_hold (P : K → EventRecord E → Prop) m : Prop :=
  map_Forall (λ k s, s ≠ [] ∧ Forall (P k) s) m.

End stack_vocabulary.

Arguments set_stack_at : simpl never.

(** ** Tracker states *)

Section tracker_vocabulary.
Context {W : Type} `{!Callback W}.
Implicit Types (t : EventTracker W) (c : AnyCall) (cs : list AnyCall).

(** The tracker with one of its fields replaced. *)
Definition with_unit (s : Stack UnitEvent) t : EventTracker W :=
  {| _unit_events := s; _include_events := _include_events t;
     _parse_events := _parse_events t;
     _genericize_events := _genericize_events t;
     _pass_events := _pass_events t; _cb := _cb t |}.

Definition with_include (s : Stack IncludeEvent) t : EventTracker W :=
  {| _unit_events := _unit_events t; _include_events := s;
     _parse_events := _parse_events t;
     _genericize_events := _genericize_events t;
     _pass_events := _pass_events t; _cb := _cb t |}.

Definition with_parse (m : gmap N (Stack ParseEvent)) t : EventTracker W :=
  {| _unit_events := _unit_events t; _include_events := _include_events t;
     _parse_events := m;
     _genericize_events := _genericize_events t;
     _pass_events := _pass_events t; _cb := _cb t |}.

Definition with_genericize (m : gmap N (Stack ParseEvent)) t
    : EventTracker W :=
  {| _unit_events := _unit_events t; _include_events := _include_events t;
     _parse_events := _parse_events t;
     _genericize_events := m;
     _pass_events := _pass_events t; _cb := _cb t |}.

Definition with_pass (m : gmap string (Stack PassEvent)) t
    : EventTracker W :=
  {| _unit_events := _unit_events t; _include_events := _include_events t;
     _parse_events := _parse_events t;
     _genericize_events := _genericize_events t;
     _pass_events := m; _cb := _cb t |}.

(** The tracker after one more call on its callback object. *)
Definition deliver c t : EventTracker W :=
  {| _unit_events := _unit_events t; _include_events := _include_events t;
     _parse_events := _parse_events t;
     _genericize_events := _genericize_events t;
     _pass_events := _pass_events t; _cb := call c (_cb t) |}.

Definition delivers cs t : EventTracker W :=
  foldl (λ t c, deliver c t) t cs.

End tracker_vocabulary.

(** ** Records, calls and documents *)

Definition is_parse_start (k : N) (r : EventRecord ParseEvent) : Prop :=
  parse_kind (event r) = ParseEventKind.Start ∧ parse_uid (event r) = k.

Definition is_pre_genericize (k : N) (r : EventRecord ParseEvent) : Prop :=
  parse_kind (event r) = ParseEventKind.PreGenericize
  ∧ parse_uid (event r) = k.

Definition is_pass_start (k : string) (r : EventRecord PassEvent) : Prop :=
  pass_kind (event r) = PassEventKind.Start ∧ name (event r) = k.

(** What holds of the stacks of a tracker at every moment: the keyed
    collections hold no empty stack, and a record sits on the stack of
    its own key and of its own kind. *)
Record tracker_wf {W} (t : EventTracker W) : Prop := {
  wf_unit :
    Forall (λ r, unit_kind (event r) = UnitEventKind.Start) (_unit_events t);
  wf_include :
    Forall (λ r, include_kind (event r) = IncludeEventKind.Enter)
      (_include_events t);
  wf_parse : stacks_hold is_parse_start (_parse_events t);
  wf_genericize : stacks_hold is_pre_genericize (_genericize_events t);
  wf_pass : stacks_hold is_pass_start (_pass_events t)
}.

(** The calls [finish_stack] makes for a stack, and [finish_map] for a
    collection. *)
Definition flush_stack {E} (inj : Call E → AnyCall) (stack : Stack E)
    : list AnyCall :=
  (λ entry, inj (on_mismatch entry)) <$> stack.

Definition flush_map `{!IterationOrder} {K E} `{Countable K}
    (inj : Call E → AnyCall) (stack_dict : gmap K (Stack E)) : list AnyCall :=
  iterate stack_dict ≫= (λ entry, flush_stack inj entry.2).

(** The calls [finish] makes on a tracker, in the order it makes them. *)
Definition flush_calls `{!IterationOrder} {W} (t : EventTracker W)
    : list AnyCall :=
  flush_stack UnitCall (_unit_events t)
  ++ flush_stack IncludeCall (_include_events t)
  ++ flush_map ParseCall (_parse_events t)
  ++ flush_map ParseCall (_genericize_events t)
  ++ flush_map PassCall (_pass_events t).

(** The callback object after a list of calls, first to last. *)
Definition calls {W} `{!Callback W} (cs : list AnyCall) (cb : W) : W :=
  foldl (λ cb c, call c cb) cb cs.

(** The records that the tracker pushes on a stack. *)
Definition is_begin (r : AnyRecord) : bool :=
  match r with
  | RUnit r =>
      match unit_kind (event r) with
      | UnitEventKind.Start => true
      | UnitEventKind.End => false
      end
  | RInclude r =>
      match include_kind (event r) with
      | IncludeEventKind.Enter => true
      | IncludeEventKind.Leave => false
      end
  | RParse r =>
      match parse_kind (event r) with
      | ParseEventKind.Start | ParseEventKind.PreGenericize => true
      | ParseEventKind.Finish => false
      end
  | RPass r =>
      match pass_kind (event r) with
      | PassEventKind.Start => true
      | PassEventKind.End => false
      end
  end.

(** The begins among the records [w], in order. *)
Definition begins (w : list AnyRecord) : list AnyRecord :=
  filter (λ r, is_begin r = true) w.

(** The begin of a call that reports a match. *)
Definition call_start (c : AnyCall) : option AnyRecord :=
  match c with
  | UnitCall (on_match s _) => Some (RUnit s)
  | IncludeCall (on_match s _) => Some (RInclude s)
  | ParseCall (on_match s _) => Some (RParse s)
  | PassCall (on_match s _) => Some (RPass s)
  | _ => None
  end.

(** The record of a call that reports a mismatch. *)
Definition call_mismatch (c : AnyCall) : option AnyRecord :=
  match c with
  | UnitCall (on_mismatch e) => Some (RUnit e)
  | IncludeCall (on_mismatch e) => Some (RInclude e)
  | ParseCall (on_mismatch e) => Some (RParse e)
  | PassCall (on_mismatch e) => Some (RPass e)
  | _ => None
  end.

(** The begins the calls [cs] report matched; the records they report
    as mismatches. *)
Definition matched_starts (cs : list AnyCall) : list AnyRecord :=
  omap call_start cs.

Definition mismatched (cs : list AnyCall) : list AnyRecord :=
  omap call_mismatch cs.

(** A call of [on_mismatch]. *)
Definition is_mismatch (c : AnyCall) : Prop := is_Some (call_mismatch c).

(** The records of all the stacks of a collection. *)
Definition map_pending {K E} `{Countable K} (m : gmap K (Stack E))
    : list (EventRecord E) :=
  map_to_list m ≫= snd.

(** Every record some stack of the tracker holds. *)
Definition pending {W} (t : EventTracker W) : list AnyRecord :=
  (RUnit <$> _unit_events t)
  ++ (RInclude <$> _include_events t)
  ++ (RParse <$> map_pending (_parse_events t))
  ++ (RParse <$> map_pending (_genericize_events t))
  ++ (RPass <$> map_pending (_pass_events t)).

(** The records that the tracker matches against a stack of begins. *)
Definition is_end (r : AnyRecord) : bool :=
  match r with
  | RUnit r =>
      match unit_kind (event r) with
      | UnitEventKind.End => true
      | UnitEventKind.Start => false
      end
  | RInclude r =>
      match include_kind (event r) with
      | IncludeEventKind.Leave => true
      | IncludeEventKind.Enter => false
      end
  | RParse r =>
      match parse_kind (event r) with
      | ParseEventKind.Finish => true
      | _ => false
      end
  | RPass r =>
      match pass_kind (event r) with
      | PassEventKind.End => true
      | PassEventKind.Start => false
      end
  end.

(** [cb.on_mismatch (record)] *)
Definition report_mismatch (r : AnyRecord) : AnyCall :=
  match r with
  | RUnit e => UnitCall (on_mismatch e)
  | RInclude e => IncludeCall (on_mismatch e)
  | RParse e => ParseCall (on_mismatch e)
  | RPass e => PassCall (on_mismatch e)
  end.

(** The pending begins an end can be matched with: those of its category
    and key, for a [Finish] on either of the two collections. *)
Definition pending_for {W} (r : AnyRecord) (t : EventTracker W)
    : list AnyRecord :=
  match r with
  | RUnit _ => RUnit <$> _unit_events t
  | RInclude _ => RInclude <$> _include_events t
  | RParse e =>
      RParse <$> (stack_at (_parse_events t) (parse_uid (event e))
                  ++ stack_at (_genericize_events t) (parse_uid (event e)))
  | RPass e => RPass <$> stack_at (_pass_events t) (name (event e))
  end.

Definition is_parse_finish (k : N) (r : EventRecord ParseEvent) : Prop :=
  parse_kind (event r) = ParseEventKind.Finish ∧ parse_uid (event r) = k.

(** A category of the unkeyed stacks, or one key of a keyed one. *)
Inductive Stream :=
| UnitStream
| IncludeStream
| ParseStream (uid : N)
| PassStream (pass_name : string).

(** [pairs σ b e c]: [b] is a begin and [e] an end of the stream [σ], and
    [c] is the call that reports [b] matched with [e]. *)
Inductive pairs : Stream → AnyRecord → AnyRecord → AnyCall → Prop :=
| pairs_unit b e :
    unit_kind (event b) = UnitEventKind.Start →
    unit_kind (event e) = UnitEventKind.End →
    pairs UnitStream (RUnit b) (RUnit e) (UnitCall (on_match b e))
| pairs_include b e :
    include_kind (event b) = IncludeEventKind.Enter →
    include_kind (event e) = IncludeEventKind.Leave →
    pairs IncludeStream (RInclude b) (RInclude e)
      (IncludeCall (on_match b e))
| pairs_parse k b e :
    is_parse_start k b →
    is_parse_finish k e →
    pairs (ParseStream k) (RParse b) (RParse e) (ParseCall (on_match b e))
| pairs_pass n b e :
    is_pass_start n b →
    pass_kind (event e) = PassEventKind.End →
    name (event e) = n →
    pairs (PassStream n) (RPass b) (RPass e) (PassCall (on_match b e)).

(** [nested σ w o]: [w] is a well-formed sequence of begin/end pairs of
    [σ], built by putting such sequences one after the other and by
    putting one between a begin and its end; [o] lists the pairs, each
    as the call that reports it, in the order of their ends. *)
Inductive nested (σ : Stream) : list AnyRecord → list AnyCall → Prop :=
| nested_nil : nested σ [] []
| nested_seq w1 o1 w2 o2 :
    nested σ w1 o1 → nested σ w2 o2 → nested σ (w1 ++ w2) (o1 ++ o2)
| nested_wrap b e c w o :
    pairs σ b e c → nested σ w o → nested σ (b :: w ++ [e]) (o ++ [c]).

(** The time a record of any type was stamped with. *)
Definition record_time (r : AnyRecord) : EventTimePoint :=
  match r with
  | RUnit r => timestamp r
  | RInclude r => timestamp r
  | RParse r => timestamp r
  | RPass r => timestamp r
  end.

(** Records in the order the clock stamped them. *)
Definition chronological (w : list AnyRecord) : Prop :=
  StronglySorted (λ a b, record_time a ≤ record_time b) w.

(** A call that reports a match whose begin is not later than its end. *)
Definition interval_ordered (c : AnyCall) : Prop :=
  match c with
  | UnitCall (on_match s e) => timestamp s ≤ timestamp e
  | IncludeCall (on_match s e) => timestamp s ≤ timestamp e
  | ParseCall (on_match s e) => timestamp s ≤ timestamp e
  | PassCall (on_match s e) => timestamp s ≤ timestamp e
  | _ => False
  end.

(** A record on top of a stack of its type; used to state what a begin
    does to the stack of its stream. *)
Definition push_on_unit (r : AnyRecord) (s : Stack UnitEvent)
    : Stack UnitEvent :=
  match r with RUnit u => u :: s | _ => s end.

Definition push_on_include (r : AnyRecord) (s : Stack IncludeEvent)
    : Stack IncludeEvent :=
  match r with RInclude u => u :: s | _ => s end.

Definition push_on_parse (r : AnyRecord) (s : Stack ParseEvent)
    : Stack ParseEvent :=
  match r with RParse u => u :: s | _ => s end.

Definition push_on_pass (r : AnyRecord) (s : Stack PassEvent)
    : Stack PassEvent :=
  match r with RPass u => u :: s | _ => s end.

(** An order for the instances below: that of the keys. *)
Definition key_order : IterationOrder :=
  {| iterate := λ K _ _ V, map_to_list;
     iterate_entries := λ K _ _ V m, reflexivity (map_to_list m) |}.

(** Records for the instances below. *)
Definition demo_decl : tree_decl := {| DECL_PT_UID := 7; decl_id := 1 |}.

Definition unit_record (kind : UnitEventKind.t) (ts : EventTimePoint)
    : EventRecord UnitEvent :=
  {| timestamp := ts; event := {| unit_kind := kind |} |}.

Definition include_record (kind : IncludeEventKind.t) (file : string)
    (ts : EventTimePoint) : EventRecord IncludeEvent :=
  {| timestamp := ts;
     event := {| include_kind := kind; filename := file |} |}.

Definition parse_record (kind : ParseEventKind.t) (decl : tree_decl)
    (ts : EventTimePoint) : EventRecord ParseEvent :=
  {| timestamp := ts;
     event := {| parse_kind := kind; parse_decl := decl;
                 parse_uid := DECL_PT_UID decl |} |}.

Definition pass_record (kind : PassEventKind.t) (pass_name : string)
    (ts : EventTimePoint) : EventRecord PassEvent :=
  {| timestamp := ts;
     event := {| pass_kind := kind; name := pass_name;
                 pass_decl := NULL_TREE; pass_uid := 4294967295 |} |}.

(** The decimal digits and their values. *)
Definition is_digit (c : ascii) : bool :=
  (48 <=? nat_of_ascii c)%nat && (nat_of_ascii c <=? 57)%nat.

Definition digit_value (c : ascii) : N := N.of_nat (nat_of_ascii c - 48).

Fixpoint all_digits (s : string) : bool :=
  match s with
  | EmptyString => true
  | String c s' => is_digit c && all_digits s'
  end.

(** The number a string of decimal digits denotes. *)
Fixpoint dec_value (s : string) : N :=
  match s with
  | EmptyString => 0
  | String c s' =>
      (digit_value c * 10 ^ N.of_nat (String.length s') + dec_value s')%N
  end.

(** The check of [fmt_03ld] on one number below a thousand. *)
Definition three_digits_ok (r : nat) : bool :=
  let text := fmt_03ld (Z.of_nat r) in
  (String.length text =? 3)%nat && all_digits text
  && (dec_value text =? N.of_nat r)%N.

(** A nanosecond count as the writer prints it: microseconds, a point,
    and the rest below a microsecond. *)
Definition us_text (n : Z) : string :=
  fmt_ld (n `quot` 1000) +:+ "." +:+ fmt_03ld (n `rem` 1000).

(** The comma that goes before every entry but the first. *)
Definition separator (w : TraceWriter) : string :=
  if bool_decide (0 < _slice_count w)%N then "," else EmptyString.

(** The text of an entry from its opening brace to the thread id. *)
Definition slice_text (epoch : EventTimePoint) (name : string)
    (start end_ : EventTimePoint) : string :=
  lit "{'name':'" +:+ name +:+ lit "','ts':" +:+ us_text (start - epoch)
  +:+ ","
  +:+ (if bool_decide (0 < end_ - start)
       then lit "'ph':'X','dur':" +:+ us_text (end_ - start) +:+ ","
       else lit "'ph':'i',")
  +:+ lit "'pid':0,'tid':0".

(** [w'] is [w] after one more entry with this name and these times: the
    separator, the text of [slice_text], the arguments if any and the
    closing brace. *)
Definition writes_entry (w w' : TraceWriter) (name : string)
    (start end_ : EventTimePoint) : Prop :=
  _epoch w' = _epoch w
  ∧ _decl_verbosity w' = _decl_verbosity w
  ∧ _slice_count w' = (_slice_count w + 1)%N
  ∧ ∃ args,
      _file w' = _file w +:+ separator w
                 +:+ slice_text (_epoch w) name start end_ +:+ args +:+ "}".

(** The name and the two times an overload of [write_slice] gives to
    [SliceWriter]; none for the one that returns before it makes one. *)
Definition call_slice (c : AnyCall)
    : option (string * EventTimePoint * EventTimePoint) :=
  match c with
  | UnitCall (on_match s e) => Some ("unit", timestamp s, timestamp e)
  | UnitCall (on_mismatch e) =>
      Some (match unit_kind (event e) with
            | UnitEventKind.Start => "unit (start)"
            | UnitEventKind.End => "unit (end)"
            end, timestamp e, timestamp e)
  | IncludeCall (on_match s e) => Some ("include", timestamp s, timestamp e)
  | IncludeCall (on_mismatch e) =>
      Some (match include_kind (event e) with
            | IncludeEventKind.Enter => "include (enter)"
            | IncludeEventKind.Leave => "include (leave)"
            end, timestamp e, timestamp e)
  | ParseCall (on_match s e) =>
      Some (parse_slice_name s, timestamp s, timestamp e)
  | ParseCall (on_mismatch e) =>
      match parse_kind (event e) with
      | ParseEventKind.Start => None
      | ParseEventKind.PreGenericize =>
          Some ("genericize (start)", timestamp e, timestamp e)
      | ParseEventKind.Finish =>
          Some ("parse (finish)", timestamp e, timestamp e)
      end
  | PassCall (on_match s e) =>
      Some (name (event s), timestamp s, timestamp e)
  | PassCall (on_mismatch e) =>
      Some (name (event e) +:+
            match pass_kind (event e) with
            | PassEventKind.Start => " (start)"
            | PassEventKind.End => " (cancelled)"
            end, timestamp e, timestamp e)
  end.

(** The two fields of a printed nanosecond count [n]: the fraction is
    exactly three decimal digits, the integer part is decimal digits, and
    together they denote [n] thousandths of a microsecond. *)
Definition micro_fields (n : Z) : Prop :=
  String.length (fmt_03ld (n `mod` 1000)) = 3%nat
  ∧ all_digits (fmt_03ld (n `mod` 1000)) = true
  ∧ all_digits (fmt_ld (n `div` 1000)) = true
  ∧ 1000 * Z.of_N (dec_value (fmt_ld (n `div` 1000)))
    + Z.of_N (dec_value (fmt_03ld (n `mod` 1000))) = n.

(** The name of the interval a record would have been part of. *)
Definition marker_base (r : AnyRecord) : string :=
  match r with
  | RUnit _ => "unit"
  | RInclude _ => "include"
  | RParse e =>
      match parse_kind (event e) with
      | ParseEventKind.PreGenericize => "genericize"
      | _ => "parse"
      end
  | RPass e => name (event e)
  end.

(** The label that tells a marker from that interval. *)
Definition marker_label (r : AnyRecord) : string :=
  match r with
  | RUnit e =>
      match unit_kind (event e) with
      | UnitEventKind.Start => "start"
      | UnitEventKind.End => "end"
      end
  | RInclude e =>
      match include_kind (event e) with
      | IncludeEventKind.Enter => "enter"
      | IncludeEventKind.Leave => "leave"
      end
  | RParse e =>
      match parse_kind (event e) with
      | ParseEventKind.Finish => "finish"
      | _ => "start"
      end
  | RPass e =>
      match pass_kind (event e) with
      | PassEventKind.Start => "start"
      | PassEventKind.End => "cancelled"
      end
  end.

(** The one kind of record for which the writer makes no marker. *)
Definition is_parse_start_record (r : AnyRecord) : bool :=
  match r with
  | RParse e =>
      match parse_kind (event e) with
      | ParseEventKind.Start => true
      | _ => false
      end
  | _ => false
  end.

(** A hook for the instances: every declaration prints as [f]. *)
Definition demo_hooks : LangHooks := λ _ _, "f".

(** What a JSON parser reads as the value of a string literal: [text]
    starts right after the opening quote; the value ends at the first
    quote that no backslash escapes.  None when the literal is not
    well-formed (a control character, an escape JSON does not have, no
    closing quote); the escape by code point is left out. *)
Fixpoint json_string_body (text : string) : option string :=
  match text with
  | EmptyString => None
  | String c rest =>
      if Ascii.eqb c dquote then Some EmptyString
      else if Ascii.eqb c backslash then
        match rest with
        | EmptyString => None
        | String d rest' =>
            let unescaped :=
              if Ascii.eqb d dquote then Some dquote
              else if Ascii.eqb d backslash then Some backslash
              else if Ascii.eqb d "/" then Some "/"%char
              else if Ascii.eqb d "b" then Some "008"%char
              else if Ascii.eqb d "f" then Some "012"%char
              else if Ascii.eqb d "n" then Some "010"%char
              else if Ascii.eqb d "r" then Some "013"%char
              else if Ascii.eqb d "t" then Some "009"%char
              else None in
            match unescaped, json_string_body rest' with
            | Some u, Some value => Some (String u value)
            | _, _ => None
            end
        end
      else if (nat_of_ascii c <? 32)%nat then None
      else
        match json_string_body rest with
        | Some value => Some (String c value)
        | None => None
        end
  end.

(** The value of the string literal at the head of [text]. *)
Definition json_string_value (text : string) : option string :=
  match text with
  | String c rest => if Ascii.eqb c dquote then json_string_body rest else None
  | EmptyString => None
  end.

(** What the loop of [get_decl_name] computes, character by character. *)
Fixpoint escape_quotes (name : string) : string :=
  match name with
  | EmptyString => EmptyString
  | String c rest =>
      if Ascii.eqb c dquote
      then String backslash (String dquote (escape_quotes rest))
      else String c (escape_quotes rest)
  end.

(** A character a JSON string literal can hold as it is. *)
Definition json_plain (c : ascii) : bool :=
  negb (Ascii.eqb c dquote) && negb (Ascii.eqb c backslash)
  && negb (nat_of_ascii c <? 32)%nat.

Fixpoint quotes_and_plain (name : string) : bool :=
  match name with
  | EmptyString => true
  | String c rest =>
      (Ascii.eqb c dquote || json_plain c) && quotes_and_plain rest
  end.

(** The tracker [t] of the recording callback, with the callback object
    replaced by [cb] after the same calls. *)
Definition retarget {W} `{!Callback W} (cb : W) (t : EventTracker Log)
    : EventTracker W :=
  {| _unit_events := _unit_events t;
     _include_events := _include_events t;
     _parse_events := _parse_events t;
     _genericize_events := _genericize_events t;
     _pass_events := _pass_events t;
     _cb := calls (_cb t) cb |}.

(** The records in the order [finish_callback] submits them. *)
Definition all_events (units : list (EventRecord UnitEvent))
    (includes : list (EventRecord IncludeEvent))
    (parses : list (EventRecord ParseEvent))
    (passes : list (EventRecord PassEvent)) : list AnyRecord :=
  (RUnit <$> units) ++ (RInclude <$> includes) ++ (RParse <$> parses)
  ++ (RPass <$> passes).

(** [entries_text epoch n slices text]: [text] is one entry for each
    element of [slices], in order, when [n] entries come before; an entry
    is the separator, the text of [slice_text] for the name and the two
    times, some arguments and the closing brace. *)
Inductive entries_text (epoch : EventTimePoint)
  : N → list (string * EventTimePoint * EventTimePoint) → string → Prop :=
| entries_nil n : entries_text epoch n [] EmptyString
| entries_cons n entry_name start end_ args rest text :
    entries_text epoch (n + 1) rest text →
    entries_text epoch n ((entry_name, start, end_) :: rest)
      ((if bool_decide (0 < n)%N then "," else EmptyString)
       +:+ slice_text epoch entry_name start end_ +:+ args +:+ "}" +:+ text).


(** Every category is in the order the clock stamped it. *)
Definition chronological_buffers (units : list (EventRecord UnitEvent))
    (includes : list (EventRecord IncludeEvent))
    (parses : list (EventRecord ParseEvent))
    (passes : list (EventRecord PassEvent)) : Prop :=
  chronological (RUnit <$> units) ∧ chronological (RInclude <$> includes)
  ∧ chronological (RParse <$> parses) ∧ chronological (RPass <$> passes).

(** The epoch [finish_callback] computes from the buffers. *)
Definition finish_epoch (units : list (EventRecord UnitEvent))
    (includes : list (EventRecord IncludeEvent))
    (parses : list (EventRecord ParseEvent))
    (passes : list (EventRecord PassEvent)) : EventTimePoint :=
  min4 (front_time units) (front_time includes) (front_time parses)
    (front_time passes).

(** The record whose time an entry starts at: the begin of a match, the
    record of a mismatch. *)
Definition call_subject (c : AnyCall) : AnyRecord :=
  match c with
  | UnitCall (on_match s _) => RUnit s
  | UnitCall (on_mismatch e) => RUnit e
  | IncludeCall (on_match s _) => RInclude s
  | IncludeCall (on_mismatch e) => RInclude e
  | ParseCall (on_match s _) => RParse s
  | ParseCall (on_mismatch e) => RParse e
  | PassCall (on_match s _) => RPass s
  | PassCall (on_mismatch e) => RPass e
  end.

(** ** Streams and reports *)

(** The stream a record belongs to: its category, and for a function or
    a pass its key. *)
Definition stream_of (r : AnyRecord) : Stream :=
  match r with
  | RUnit _ => UnitStream
  | RInclude _ => IncludeStream
  | RParse e => ParseStream (parse_uid (event e))
  | RPass e => PassStream (name (event e))
  end.

(** The begins pending in a stream, latest first; for a function the
    entries of the parse stack come before those of the genericize
    stack. *)
Definition stream_pending {W} (σ : Stream) (t : EventTracker W)
    : list AnyRecord :=
  match σ with
  | UnitStream => RUnit <$> _unit_events t
  | IncludeStream => RInclude <$> _include_events t
  | ParseStream k =>
      RParse <$> (stack_at (_parse_events t) k
                  ++ stack_at (_genericize_events t) k)
  | PassStream n => RPass <$> stack_at (_pass_events t) n
  end.

(** [cb.on_match (b, e)] for two records of one type. *)
Definition report_match (b e : AnyRecord) : option AnyCall :=
  match b, e with
  | RUnit b, RUnit e => Some (UnitCall (on_match b e))
  | RInclude b, RInclude e => Some (IncludeCall (on_match b e))
  | RParse b, RParse e => Some (ParseCall (on_match b e))
  | RPass b, RPass e => Some (PassCall (on_match b e))
  | _, _ => None
  end.

(** The records a call hands to the callback object. *)
Definition call_records (c : AnyCall) : list AnyRecord :=
  match c with
  | UnitCall (on_match s e) => [RUnit s; RUnit e]
  | UnitCall (on_mismatch e) => [RUnit e]
  | IncludeCall (on_match s e) => [RInclude s; RInclude e]
  | IncludeCall (on_mismatch e) => [RInclude e]
  | ParseCall (on_match s e) => [RParse s; RParse e]
  | ParseCall (on_mismatch e) => [RParse e]
  | PassCall (on_match s e) => [RPass s; RPass e]
  | PassCall (on_mismatch e) => [RPass e]
  end.

(** The [PreGenericize] that a call reports as the end of a match. *)
Definition closing_pre_genericize (c : AnyCall) : option AnyRecord :=
  match c with
  | ParseCall (on_match _ e) =>
      match parse_kind (event e) with
      | ParseEventKind.PreGenericize => Some (RParse e)
      | _ => None
      end
  | _ => None
  end.

(** Two records of one category. *)
Definition same_category (a b : AnyRecord) : bool :=
  match a, b with
  | RUnit _, RUnit _ | RInclude _, RInclude _
  | RParse _, RParse _ | RPass _, RPass _ => true
  | _, _ => false
  end.

(** Records of which those of each category are in the order the clock
    stamped them. *)
Definition category_ordered (w : list AnyRecord) : Prop :=
  StronglySorted
    (λ a b, same_category a b = true → record_time a ≤ record_time b) w.

(** The begin and the end of a call that reports a match. *)
Definition call_interval (c : AnyCall)
    : option (EventTimePoint * EventTimePoint) :=
  match c with
  | UnitCall (on_match s e) => Some (timestamp s, timestamp e)
  | IncludeCall (on_match s e) => Some (timestamp s, timestamp e)
  | ParseCall (on_match s e) => Some (timestamp s, timestamp e)
  | PassCall (on_match s e) => Some (timestamp s, timestamp e)
  | _ => None
  end.

(** The records the calls [cs] hand to the callback object; those that
    are a [PreGenericize] reported as the end of a match. *)
Definition reported (cs : list AnyCall) : list AnyRecord :=
  cs ≫= call_records.

Definition closing (cs : list AnyCall) : list AnyRecord :=
  omap closing_pre_genericize cs.

(** ** Options *)

(** The verbosity an argument sets, when it is [verbose-decl] with one of
    the three values. *)
Definition verbosity_value (arg : plugin_argument) : option Z :=
  if bool_decide (key arg = "verbose-decl") then
    match value arg with
    | Some v =>
        if bool_decide (v = "0") then Some 0
        else if bool_decide (v = "1") then Some 1
        else if bool_decide (v = "2") then Some 2
        else None
    | None => None
    end
  else None.

(** [disable-version-check], given without a value. *)
Definition disables_version_check (arg : plugin_argument) : bool :=
  bool_decide (key arg = "disable-version-check")
  && bool_decide (value arg = None).

(** An argument the plugin accepts. *)
Definition valid_argument (arg : plugin_argument) : bool :=
  bool_decide (is_Some (verbosity_value arg)) || disables_version_check arg.

(** The format of the diagnostic for an argument that is not accepted. *)
Definition complaint (arg : plugin_argument) : string :=
  if bool_decide (key arg = "verbose-decl") then
    match value arg with
    | None => "missing argument to %<-fplugin-arg-%s-%s%>"
    | Some _ => "argument of %<-fplugin-arg-%s-%s%> must be 0, 1, or 2"
    end
  else if bool_decide (key arg = "disable-version-check") then
    "unexpected argument to %<-fplugin-arg-%s-%s%>"
  else "unrecoginized timetrace plugin option %<-fplugin-arg-%s-%s%>".

(** The settings after the accepted arguments [argv]: the verbosity is
    that of the last [verbose-decl], or 1 when there is none; the version
    is checked unless [disable-version-check] was given. *)
Definition settings (argv : list plugin_argument) (g : State) : State :=
  set_version_check (negb (existsb disables_version_check argv))
    (set_decl_verbosity (default 1 (last (omap verbosity_value argv))) g).

(** ** Passes *)

(** A pass, then the passes below it, each with those below it, in the
    order of the lists. *)
Fixpoint preorder (pass : OptPass.t) : list OptPass.t :=
  pass :: (OptPass.sub pass ≫= preorder).

(** What [setup_time_trace_passes] tells two passes apart by. *)
Definition pass_key (pass : OptPass.t) : opt_pass_type * string :=
  (OptPass.type pass, OptPass.name pass).

Definition call_key (c : register_pass_call) : opt_pass_type * string :=
  (pass_type (pass c), trace_name (pass c)).

(** The elements of [l] that are not in [seen] and occur for the first
    time, in order. *)
Fixpoint first_occurrences {A} `{EqDecision A} (seen l : list A) : list A :=
  match l with
  | [] => []
  | x :: l' =>
      if decide (x ∈ seen) then first_occurrences seen l'
      else x :: first_occurrences (seen ++ [x]) l'
  end.

(** ** Runs *)

(** Calls that get the readings of a clock that does not go back. *)
Definition clock_ordered (invs : list (EventTimePoint * Invocation)) : Prop :=
  StronglySorted (λ a b, a.1 ≤ b.1) invs.

(** A call for which the cast in [override_gate_callback] is defined: no
    pass of the host has the name of the passes of the plugin. *)
Definition cast_defined (inv : Invocation) : Prop :=
  match inv with
  | PLUGIN_OVERRIDE_GATE (host_pass p) _ => OptPass.name p ≠ "*time_trace"
  | _ => True
  end.

Definition is_start_unit (inv : Invocation) : bool :=
  match inv with
  | PLUGIN_START_UNIT => true
  | _ => false
  end.

(** How often the host starts a unit. *)
Definition unit_starts (invs : list (EventTimePoint * Invocation)) : nat :=
  length (filter (λ i, is_start_unit i.2 = true) invs).

(** The records of the four buffers, each buffer oldest first, in the
    order [finish_callback] submits them. *)
Definition recorded (g : State) : list AnyRecord :=
  all_events (reverse (trace_unit g)) (reverse (trace_include g))
    (reverse (trace_parse g)) (reverse (trace_pass g)).

(** A buffer as the callbacks build it from readings of [seen]: the
    latest record is at the front. *)
Definition buffer_ok {E} (seen : list EventTimePoint)
    (buffer : list (EventRecord E)) : Prop :=
  StronglySorted (λ a b, timestamp b ≤ timestamp a) buffer
  ∧ Forall (λ r, timestamp r ∈ seen) buffer.

Definition buffers_ok (seen : list EventTimePoint) (g : State) : Prop :=
  buffer_ok seen (trace_unit g) ∧ buffer_ok seen (trace_include g)
  ∧ buffer_ok seen (trace_parse g) ∧ buffer_ok seen (trace_pass g).

(** The epoch [finish_callback] takes for the buffers of [g], and the
    entries it writes: the name and the two times of each. *)
Definition run_epoch (g : State) : EventTimePoint :=
  finish_epoch (reverse (trace_unit g)) (reverse (trace_include g))
    (reverse (trace_parse g)) (reverse (trace_pass g)).

Definition run_slices `{!IterationOrder} (g : State)
    (dump_start dump_end : EventTimePoint)
    : list (string * EventTimePoint * EventTimePoint) :=
  omap call_slice
    (_cb (finish (submit (recorded g) (new_tracker ([] : Log)))))
  ++ [("plugin_dump", dump_start, dump_end)].

(** A hook for the instances: every declaration prints as the name of a
    literal operator, which holds two quotes. *)
Definition literal_operator : string :=
  "operator" +:+ String dquote (String dquote "_km").

Definition literal_hooks : LangHooks := λ _ _, literal_operator.

(** A hook for the instances: a declaration prints as [f] and its
    number. *)
Definition numbered_hooks : LangHooks :=
  λ decl _, "f" +:+ pretty (decl_id decl).

(** ** One stream at a time *)

#[export] Instance Stream_eq_dec : EqDecision Stream.
Proof. solve_decision. Defined.

(** The two stacks of a stream, each latest first: the stack of the
    begins, and for a function the genericize stack besides. *)
Definition stream_stacks {W} (σ : Stream) (t : EventTracker W)
    : list AnyRecord * list AnyRecord :=
  match σ with
  | UnitStream => (RUnit <$> _unit_events t, [])
  | IncludeStream => (RInclude <$> _include_events t, [])
  | ParseStream k =>
      (RParse <$> stack_at (_parse_events t) k,
       RParse <$> stack_at (_genericize_events t) k)
  | PassStream n => (RPass <$> stack_at (_pass_events t) n, [])
  end.

(** The records of a stream among [w], and the calls about a record of
    the stream among [cs], in order. *)
Definition stream_records (σ : Stream) (w : list AnyRecord)
    : list AnyRecord :=
  filter (λ r, stream_of r = σ) w.

Definition stream_calls (σ : Stream) (cs : list AnyCall) : list AnyCall :=
  filter (λ c, stream_of (call_subject c) = σ) cs.

(** ** Begins left open

    What the specification calls a begin never followed by a matching end,
    read off the records alone by its matching rule: an end closes the
    latest begin still open in its category and key; the [Finish] of a
    function closes a [Start] if one is open and a [PreGenericize] only if
    none is; a [PreGenericize] closes the latest open [Start] of its
    function and is itself a begin. *)

Definition is_pre_genericize_record (r : AnyRecord) : bool :=
  match r with
  | RParse e =>
      match parse_kind (event e) with
      | ParseEventKind.PreGenericize => true
      | _ => false
      end
  | _ => false
  end.

(** [b] is a record of the stream [σ], a [PreGenericize] when [pre] is
    set and another record when it is not. *)
Definition begin_of (σ : Stream) (pre : bool) (b : AnyRecord) : bool :=
  bool_decide (stream_of b = σ)
  && bool_decide (is_pre_genericize_record b = pre).

(** [open] without the latest of its records that [P] accepts; [open]
    lists the begins that are open, latest first. *)
Fixpoint close_latest (P : AnyRecord → bool) (open : list AnyRecord)
    : list AnyRecord :=
  match open with
  | [] => []
  | b :: rest => if P b then rest else b :: close_latest P rest
  end.

(** The open begins after one more record. *)
Definition observe (open : list AnyRecord) (r : AnyRecord)
    : list AnyRecord :=
  let σ := stream_of r in
  if is_end r then
    if existsb (begin_of σ false) open
    then close_latest (begin_of σ false) open
    else close_latest (begin_of σ true) open
  else if is_pre_genericize_record r
  then r :: close_latest (begin_of σ false) open
  else r :: open.

(** The begins among [w] that no end after them has closed, latest
    first. *)
Definition left_open (w : list AnyRecord) : list AnyRecord :=
  foldl observe [] w.

(** What a record does to the two stacks of its stream, and the begin it
    closes. *)
Definition stream_step (st : list AnyRecord * list AnyRecord)
    (r : AnyRecord) : list AnyRecord * list AnyRecord :=
  if is_end r then
    match st.1 with
    | _ :: s => (s, st.2)
    | [] => ([], tail st.2)
    end
  else if is_pre_genericize_record r then (tail st.1, r :: st.2)
  else (r :: st.1, st.2).

Definition closed_by (st : list AnyRecord * list AnyRecord)
    (r : AnyRecord) : list AnyRecord :=
  if is_end r then take 1 (st.1 ++ st.2)
  else if is_pre_genericize_record r then take 1 st.1
  else [].

(** The open begins [open] as the stacks of the tracker [t] hold them. *)
Definition tracks {W} (open : list AnyRecord) (t : EventTracker W) : Prop :=
  (∀ σ, stream_stacks σ t
        = (filter (λ b, begin_of σ false b = true) open,
           filter (λ b, begin_of σ true b = true) open))
  ∧ open ≡ₚ pending t.

(** * Properties *)

(** ** Keyed stacks *)

Section stack_maps.
Context {K E : Type} `{Countable K}.
Implicit Types (m : gmap K (Stack E)) (k : K) (s : Stack E).

Lemma stack_at_set m k s : stack_at (set_stack_at m k s) k = s.
Proof.
  unfold stack_at, set_stack_at. destruct s.
  - by rewrite lookup_delete_eq.
  - by rewrite lookup_insert_eq.
Qed.

Lemma lookup_set_stack_at_ne m k k' s :
  k ≠ k' → set_stack_at m k s !! k' = m !! k'.
Proof.
  intros. unfold set_stack_at. destruct s.
  - by rewrite lookup_delete_ne.
  - by rewrite lookup_insert_ne.
Qed.

Lemma set_stack_at_twice m k s s' :
  set_stack_at (set_stack_at m k s') k s = set_stack_at m k s.
Proof.
  unfold set_stack_at. destruct s, s'.
  - by rewrite delete_delete_eq.
  - by rewrite delete_insert_eq.
  - by rewrite insert_delete_eq.
  - by rewrite insert_insert_eq.
Qed.

Lemma set_stack_at_id m k :
  m !! k ≠ Some [] → set_stack_at m k (stack_at m k) = m.
Proof.
  unfold set_stack_at, stack_at. intros Hne.
  destruct (m !! k) as [[|b s]|] eqn:Hk; simpl; try done.
  - by apply insert_id.
  - by apply delete_id.
Qed.

(** [try_match_map] hands the front of the key's stack, if any, to the
    callback and leaves the rest of that stack. *)
Lemma try_match_map_spec {S} m k
    (cb : option (EventRecord E) → S → S) (st : S) :
  try_match_map m k cb st
  = (set_stack_at m k (tail (stack_at m k)), cb (head (stack_at m k)) st).
Proof.
  unfold try_match_map, stack_at, set_stack_at.
  destruct (m !! k) as [[|b [|b' s]]|] eqn:Hk; simpl; try done.
  by rewrite delete_id.
Qed.

End stack_maps.

(** ** Tracker states *)

Section tracker_facts.
Context {W : Type} `{!Callback W}.
Implicit Types (t : EventTracker W) (c : AnyCall) (cs : list AnyCall).

Lemma delivers_app cs1 cs2 t :
  delivers (cs1 ++ cs2) t = delivers cs2 (delivers cs1 t).
Proof. apply foldl_app. Qed.

Lemma delivers_snoc cs c t : delivers (cs ++ [c]) t = deliver c (delivers cs t).
Proof. apply delivers_app. Qed.

Lemma submit_app w1 w2 t : submit (w1 ++ w2) t = submit w2 (submit w1 t).
Proof. apply foldl_app. Qed.

Lemma submit_snoc w r t : submit (w ++ [r]) t = push_event r (submit w t).
Proof. apply submit_app. Qed.

(** Each overload of [push_event] in terms of the stack it works on. *)

Lemma push_event_unit_Start r t :
  unit_kind (event r) = UnitEventKind.Start →
  push_event_unit r t = with_unit (r :: _unit_events t) t.
Proof. intros Hk. unfold push_event_unit. by rewrite Hk. Qed.

Lemma push_event_unit_End r t :
  unit_kind (event r) = UnitEventKind.End →
  push_event_unit r t
  = match _unit_events t with
    | b :: s => deliver (UnitCall (on_match b r)) (with_unit s t)
    | [] => deliver (UnitCall (on_mismatch r)) (with_unit [] t)
    end.
Proof.
  intros Hk. unfold push_event_unit. rewrite Hk.
  by destruct (_unit_events t).
Qed.

Lemma push_event_include_Enter r t :
  include_kind (event r) = IncludeEventKind.Enter →
  push_event_include r t = with_include (r :: _include_events t) t.
Proof. intros Hk. unfold push_event_include. by rewrite Hk. Qed.

Lemma push_event_include_Leave r t :
  include_kind (event r) = IncludeEventKind.Leave →
  push_event_include r t
  = match _include_events t with
    | b :: s => deliver (IncludeCall (on_match b r)) (with_include s t)
    | [] => deliver (IncludeCall (on_mismatch r)) (with_include [] t)
    end.
Proof.
  intros Hk. unfold push_event_include. rewrite Hk.
  by destruct (_include_events t).
Qed.

Lemma push_event_parse_Start r t :
  parse_kind (event r) = ParseEventKind.Start →
  push_event_parse r t
  = with_parse
      (set_stack_at (_parse_events t) (parse_uid (event r))
         (r :: stack_at (_parse_events t) (parse_uid (event r)))) t.
Proof. intros Hk. unfold push_event_parse. by rewrite Hk. Qed.

Lemma push_event_parse_PreGenericize r t :
  parse_kind (event r) = ParseEventKind.PreGenericize →
  let k := parse_uid (event r) in
  let pushed :=
    with_genericize
      (set_stack_at (_genericize_events t) k
         (r :: stack_at (_genericize_events t) k)) t in
  push_event_parse r t
  = match stack_at (_parse_events t) k with
    | b :: s =>
        deliver (ParseCall (on_match b r))
          (with_parse (set_stack_at (_parse_events t) k s) pushed)
    | [] => with_parse (set_stack_at (_parse_events t) k []) pushed
    end.
Proof.
  intros Hk. unfold push_event_parse. rewrite Hk, try_match_map_spec.
  by destruct (stack_at _ _).
Qed.

Lemma push_event_parse_Finish r t :
  parse_kind (event r) = ParseEventKind.Finish →
  let k := parse_uid (event r) in
  push_event_parse r t
  = match stack_at (_parse_events t) k with
    | b :: s =>
        deliver (ParseCall (on_match b r))
          (with_parse (set_stack_at (_parse_events t) k s) t)
    | [] =>
        let t' := with_parse (set_stack_at (_parse_events t) k []) t in
        match stack_at (_genericize_events t) k with
        | g :: s =>
            deliver (ParseCall (on_match g r))
              (with_genericize (set_stack_at (_genericize_events t) k s) t')
        | [] =>
            deliver (ParseCall (on_mismatch r))
              (with_genericize (set_stack_at (_genericize_events t) k []) t')
        end
    end.
Proof.
  intros Hk. unfold push_event_parse. rewrite Hk, try_match_map_spec.
  destruct (stack_at (_parse_events t) _); simpl; [|done].
  rewrite try_match_map_spec.
  by destruct (stack_at (_genericize_events t) _).
Qed.

Lemma push_event_pass_Start r t :
  pass_kind (event r) = PassEventKind.Start →
  push_event_pass r t
  = with_pass
      (set_stack_at (_pass_events t) (name (event r))
         (r :: stack_at (_pass_events t) (name (event r)))) t.
Proof. intros Hk. unfold push_event_pass. by rewrite Hk. Qed.

Lemma push_event_pass_End r t :
  pass_kind (event r) = PassEventKind.End →
  let k := name (event r) in
  push_event_pass r t
  = match stack_at (_pass_events t) k with
    | b :: s =>
        deliver (PassCall (on_match b r))
          (with_pass (set_stack_at (_pass_events t) k s) t)
    | [] =>
        deliver (PassCall (on_mismatch r))
          (with_pass (set_stack_at (_pass_events t) k []) t)
    end.
Proof.
  intros Hk. unfold push_event_pass. rewrite Hk, try_match_map_spec.
  by destruct (stack_at _ _).
Qed.

End tracker_facts.

(** ** The invariant of the keyed collections *)

Section stacks_hold.
Context {K E : Type} `{Countable K}.
Implicit Types (m : gmap K (Stack E)) (k : K) (s : Stack E).

Lemma stacks_hold_empty P : stacks_hold P (∅ : gmap K (Stack E)).
Proof. apply map_Forall_empty. Qed.

Lemma stacks_hold_no_empty P m : stacks_hold P m → no_empty m.
Proof. intros Hm k Hk. by destruct (Hm k [] Hk). Qed.

Lemma stacks_hold_stack_at P m k :
  stacks_hold P m → Forall (P k) (stack_at m k).
Proof.
  intros Hm. unfold stack_at.
  destruct (m !! k) as [s|] eqn:Hk; simpl; [|constructor].
  by destruct (Hm k s Hk).
Qed.

Lemma stacks_hold_set P m k s :
  stacks_hold P m → Forall (P k) s → stacks_hold P (set_stack_at m k s).
Proof.
  intros Hm Hs. unfold set_stack_at. destruct s as [|b s].
  - by apply map_Forall_delete.
  - by apply map_Forall_insert_2.
Qed.

Lemma stacks_hold_push P m k r :
  stacks_hold P m → P k r →
  stacks_hold P (set_stack_at m k (r :: stack_at m k)).
Proof.
  intros Hm Hr. apply stacks_hold_set; [done|].
  constructor; [done|]. by apply stacks_hold_stack_at.
Qed.

Lemma stacks_hold_pop P m k b s :
  stacks_hold P m → stack_at m k = b :: s →
  stacks_hold P (set_stack_at m k s).
Proof.
  intros Hm Hk. apply stacks_hold_set; [done|].
  pose proof (stacks_hold_stack_at P m k Hm) as Hall.
  rewrite Hk in Hall. by inversion Hall.
Qed.

Lemma stacks_hold_clear P m k :
  stacks_hold P m → stacks_hold P (set_stack_at m k []).
Proof. intros Hm. apply stacks_hold_set; [done|constructor]. Qed.

End stacks_hold.

Section invariant.
Context {W : Type} `{!Callback W}.
Implicit Types (t : EventTracker W).

Lemma new_tracker_wf (cb : W) : tracker_wf (new_tracker cb).
Proof.
  split; simpl; [constructor| constructor| | |]; apply stacks_hold_empty.
Qed.

Lemma push_event_wf r t : tracker_wf t → tracker_wf (push_event r t).
Proof.
  intros [Hu Hi Hp Hg Hs].
  destruct r as [r|r|r|r]; simpl.
  - destruct (unit_kind (event r)) eqn:Hk.
    + rewrite push_event_unit_Start by done. split; simpl; auto.
    + rewrite push_event_unit_End by done.
      destruct (_unit_events t) eqn:Hst; split; simpl; auto.
      by inversion Hu.
  - destruct (include_kind (event r)) eqn:Hk.
    + rewrite push_event_include_Enter by done. split; simpl; auto.
    + rewrite push_event_include_Leave by done.
      destruct (_include_events t) eqn:Hst; split; simpl; auto.
      by inversion Hi.
  - destruct (parse_kind (event r)) eqn:Hk.
    + rewrite push_event_parse_Start by done. split; simpl; auto.
      by apply stacks_hold_push.
    + rewrite push_event_parse_PreGenericize by done.
      destruct (stack_at (_parse_events t) _) eqn:Hst; split; simpl; auto;
        first [ by apply stacks_hold_push
              | by apply stacks_hold_clear
              | by eapply stacks_hold_pop ].
    + rewrite push_event_parse_Finish by done.
      destruct (stack_at (_parse_events t) _) eqn:Hst; simpl;
        [destruct (stack_at (_genericize_events t) _) eqn:Hgt|];
        split; simpl; auto;
        first [ by apply stacks_hold_clear | by eapply stacks_hold_pop ].
  - destruct (pass_kind (event r)) eqn:Hk.
    + rewrite push_event_pass_Start by done. split; simpl; auto.
      by apply stacks_hold_push.
    + rewrite push_event_pass_End by done.
      destruct (stack_at (_pass_events t) _) eqn:Hst; split; simpl; auto;
        first [ by apply stacks_hold_clear | by eapply stacks_hold_pop ].
Qed.

Lemma submit_wf w t : tracker_wf t → tracker_wf (submit w t).
Proof.
  revert t. induction w as [|r w IH]; intros t Ht; [done|].
  simpl. apply IH. by apply push_event_wf.
Qed.

(** Every state the tracker can be in. *)
Lemma reachable_wf w (cb : W) : tracker_wf (submit w (new_tracker cb)).
Proof. apply submit_wf, new_tracker_wf. Qed.

End invariant.

(** ** What [finish] reports *)

Section finish_facts.
Context {W : Type} `{!Callback W} `{!IterationOrder}.
Implicit Types (t : EventTracker W) (cb : W).

Lemma calls_app cs1 cs2 cb : calls (cs1 ++ cs2) cb = calls cs2 (calls cs1 cb).
Proof. apply foldl_app. Qed.

Lemma delivers_new_tracker cs cb :
  delivers cs (new_tracker cb) = new_tracker (calls cs cb).
Proof.
  revert cb. induction cs as [|c cs IH]; intros cb; [done|]. apply IH.
Qed.

Lemma foldl_on_mismatch {E} (inj : Call E → AnyCall) (stack : Stack E) cb :
  foldl (λ cb entry, call (inj (on_mismatch entry)) cb) cb stack
  = calls (flush_stack inj stack) cb.
Proof.
  revert cb. induction stack as [|e stack IH]; intros cb; [done|]. apply IH.
Qed.

Lemma finish_stack_spec {E} (inj : Call E → AnyCall) (stack : Stack E) cb :
  finish_stack inj stack cb = ([], calls (flush_stack inj stack) cb).
Proof. unfold finish_stack. by rewrite foldl_on_mismatch. Qed.

Lemma finish_map_spec {K E} `{Countable K} (inj : Call E → AnyCall)
    (stack_dict : gmap K (Stack E)) cb :
  finish_map inj stack_dict cb = (∅, calls (flush_map inj stack_dict) cb).
Proof.
  unfold finish_map, flush_map. f_equal. revert cb.
  induction (iterate stack_dict) as [|e l IH]; intros cb; [done|].
  simpl. rewrite calls_app, foldl_on_mismatch. apply IH.
Qed.

Lemma iterate_empty {K V} `{Countable K} : iterate (∅ : gmap K V) = [].
Proof.
  apply Permutation_nil_r. rewrite iterate_entries. by rewrite map_to_list_empty.
Qed.

(** [finish] makes the calls of [flush_calls] and leaves a tracker with
    nothing pending. *)
Lemma finish_spec t :
  finish t = new_tracker (calls (flush_calls t) (_cb t)).
Proof.
  unfold finish, flush_calls.
  rewrite !finish_stack_spec, !finish_map_spec, !calls_app. done.
Qed.

Lemma flush_calls_new_tracker cb : flush_calls (new_tracker cb) = [].
Proof.
  unfold flush_calls, flush_map. simpl. by rewrite !iterate_empty.
Qed.

Lemma finish_new_tracker cb : finish (new_tracker cb) = new_tracker cb.
Proof. by rewrite finish_spec, flush_calls_new_tracker. Qed.

Lemma finish_idempotent t : finish (finish t) = finish t.
Proof. rewrite (finish_spec t). apply finish_new_tracker. Qed.

End finish_facts.

Lemma calls_record (cs : list AnyCall) (log : Log) : calls cs log = log ++ cs.
Proof.
  revert log. induction cs as [|c cs IH]; intros log; simpl.
  - by rewrite app_nil_r.
  - rewrite IH. unfold call, record_calls. by rewrite <-app_assoc.
Qed.

(** ** Begins, matches and mismatches *)

Lemma mismatched_flush_stack {E} (inj : Call E → AnyCall)
    (R : EventRecord E → AnyRecord) (s : Stack E) :
  (∀ e, call_mismatch (inj (on_mismatch e)) = Some (R e)) →
  mismatched (flush_stack inj s) = R <$> s.
Proof.
  intros Hinj. unfold mismatched, flush_stack.
  induction s as [|e s IH]; [done|].
  csimpl. rewrite Hinj. csimpl. by f_equal.
Qed.

Section pending_facts.
Context {K E : Type} `{Countable K}.
Implicit Types (m : gmap K (Stack E)) (k : K) (s : Stack E).

Lemma map_pending_delete m k :
  map_pending m ≡ₚ stack_at m k ++ map_pending (delete k m).
Proof.
  unfold map_pending, stack_at.
  destruct (m !! k) as [s0|] eqn:Hk; simpl.
  - by rewrite <-(map_to_list_delete m k s0 Hk).
  - by rewrite delete_id.
Qed.

Lemma map_pending_set m k s :
  map_pending (set_stack_at m k s) ≡ₚ s ++ map_pending (delete k m).
Proof.
  unfold set_stack_at. destruct s as [|b s]; [done|].
  rewrite <-insert_delete_eq. unfold map_pending.
  rewrite map_to_list_insert by apply lookup_delete_eq. done.
Qed.

Lemma map_pending_push m k r :
  map_pending (set_stack_at m k (r :: stack_at m k)) ≡ₚ r :: map_pending m.
Proof.
  rewrite map_pending_set. simpl. by rewrite <-map_pending_delete.
Qed.

Lemma map_pending_pop m k b s :
  stack_at m k = b :: s →
  b :: map_pending (set_stack_at m k s) ≡ₚ map_pending m.
Proof.
  intros Hk. rewrite map_pending_set, (map_pending_delete m k), Hk. done.
Qed.

Lemma map_pending_clear m k :
  stack_at m k = [] → map_pending (set_stack_at m k []) ≡ₚ map_pending m.
Proof.
  intros Hk. rewrite map_pending_set, (map_pending_delete m k), Hk. done.
Qed.

Lemma mismatched_flush_entries (inj : Call E → AnyCall)
    (R : EventRecord E → AnyRecord) (l : list (K * Stack E)) :
  (∀ e, call_mismatch (inj (on_mismatch e)) = Some (R e)) →
  mismatched (l ≫= (λ entry, flush_stack inj entry.2)) = R <$> (l ≫= snd).
Proof.
  intros Hinj. unfold mismatched.
  induction l as [|[k s] l IH]; [done|].
  rewrite !bind_cons, omap_app, fmap_app, IH. f_equal.
  by apply mismatched_flush_stack.
Qed.

(** Whatever the order of the range-for, [finish_map] reports the records
    of the collection, each once. *)
Lemma mismatched_flush_map `{!IterationOrder} (inj : Call E → AnyCall)
    (R : EventRecord E → AnyRecord) m :
  (∀ e, call_mismatch (inj (on_mismatch e)) = Some (R e)) →
  mismatched (flush_map inj m) ≡ₚ R <$> map_pending m.
Proof.
  intros Hinj. unfold flush_map, map_pending.
  rewrite (mismatched_flush_entries inj R) by done.
  by rewrite iterate_entries.
Qed.

End pending_facts.

Lemma mismatched_flush_calls `{!IterationOrder} {W} (t : EventTracker W) :
  mismatched (flush_calls t) ≡ₚ pending t.
Proof.
  unfold flush_calls, pending, mismatched. rewrite !omap_app.
  fold (mismatched (flush_stack UnitCall (_unit_events t))).
  fold (mismatched (flush_stack IncludeCall (_include_events t))).
  fold (mismatched (flush_map ParseCall (_parse_events t))).
  fold (mismatched (flush_map ParseCall (_genericize_events t))).
  fold (mismatched (flush_map PassCall (_pass_events t))).
  rewrite !(mismatched_flush_stack _ RUnit), !(mismatched_flush_stack _ RInclude),
    !(mismatched_flush_map _ RParse), !(mismatched_flush_map _ RPass); done.
Qed.

Lemma flush_calls_mismatches `{!IterationOrder} {W} (t : EventTracker W) :
  Forall is_mismatch (flush_calls t).
Proof.
  unfold flush_calls, flush_map, flush_stack.
  rewrite !Forall_app, !Forall_fmap. repeat split.
  - apply Forall_forall. intros; by eexists.
  - apply Forall_forall. intros; by eexists.
  - apply Forall_bind, Forall_forall. intros ? _.
    apply Forall_fmap, Forall_forall. intros; by eexists.
  - apply Forall_bind, Forall_forall. intros ? _.
    apply Forall_fmap, Forall_forall. intros; by eexists.
  - apply Forall_bind, Forall_forall. intros ? _.
    apply Forall_fmap, Forall_forall. intros; by eexists.
Qed.

(** ** Every begin is matched once or left pending *)

Lemma begins_single r : begins [r] = if is_begin r then [r] else [].
Proof.
  unfold begins. rewrite filter_cons, filter_nil.
  destruct (is_begin r); by case_decide.
Qed.

Lemma begins_snoc w r : begins (w ++ [r]) = begins w ++ begins [r].
Proof. apply filter_app. Qed.

Lemma matched_starts_call c (log : Log) :
  matched_starts (call c log) = matched_starts log ++ matched_starts [c].
Proof. apply omap_app. Qed.

Ltac conserve_step :=
  unfold pending; simpl;
  rewrite ?matched_starts_call; simpl;
  rewrite ?map_pending_push, ?map_pending_clear by done;
  rewrite ?fmap_cons.

Ltac conserve_done :=
  simpl; rewrite ?app_nil_r; first [done | solve_Permutation].

Lemma push_event_conserves r (t : EventTracker Log) :
  begins [r] ++ matched_starts (_cb t) ++ pending t
  ≡ₚ matched_starts (_cb (push_event r t)) ++ pending (push_event r t).
Proof.
  rewrite begins_single.
  destruct r as [r|r|r|r]; simpl.
  - destruct (unit_kind (event r)) eqn:Hk.
    + rewrite push_event_unit_Start by done. conserve_step. conserve_done.
    + rewrite push_event_unit_End by done.
      destruct (_unit_events t) as [|b s] eqn:Hst; conserve_step.
      * unfold pending. rewrite Hst. conserve_done.
      * unfold pending. rewrite Hst. simpl. conserve_done.
  - destruct (include_kind (event r)) eqn:Hk.
    + rewrite push_event_include_Enter by done. conserve_step.
      conserve_done.
    + rewrite push_event_include_Leave by done.
      destruct (_include_events t) as [|b s] eqn:Hst; conserve_step.
      * unfold pending. rewrite Hst. conserve_done.
      * unfold pending. rewrite Hst. simpl. conserve_done.
  - destruct (parse_kind (event r)) eqn:Hk.
    + rewrite push_event_parse_Start by done. conserve_step.
      conserve_done.
    + rewrite push_event_parse_PreGenericize by done.
      destruct (stack_at (_parse_events t) _) as [|b s] eqn:Hst; conserve_step.
      * unfold pending. conserve_done.
      * unfold pending.
        rewrite <-(map_pending_pop (_parse_events t) _ b s Hst), fmap_cons.
        conserve_done.
    + rewrite push_event_parse_Finish by done.
      destruct (stack_at (_parse_events t) _) as [|b s] eqn:Hst; simpl.
      * destruct (stack_at (_genericize_events t) _) as [|g s] eqn:Hgt;
          conserve_step; unfold pending.
        -- conserve_done.
        -- rewrite <-(map_pending_pop (_genericize_events t) _ g s Hgt),
             fmap_cons.
           conserve_done.
      * conserve_step. unfold pending.
        rewrite <-(map_pending_pop (_parse_events t) _ b s Hst), fmap_cons.
        conserve_done.
  - destruct (pass_kind (event r)) eqn:Hk.
    + rewrite push_event_pass_Start by done. conserve_step.
      conserve_done.
    + rewrite push_event_pass_End by done.
      destruct (stack_at (_pass_events t) _) as [|b s] eqn:Hst;
        conserve_step; unfold pending.
      * conserve_done.
      * rewrite <-(map_pending_pop (_pass_events t) _ b s Hst), fmap_cons.
        conserve_done.
Qed.

(** The begins submitted so far are, as a multiset, those that a call
    reported matched and those still on a stack. *)
Lemma submit_conserves w :
  begins w
  ≡ₚ matched_starts (_cb (submit w (new_tracker ([] : Log))))
     ++ pending (submit w (new_tracker ([] : Log))).
Proof.
  induction w as [|r w IH] using rev_ind; [done|].
  rewrite submit_snoc, begins_snoc, <-push_event_conserves, IH.
  solve_Permutation.
Qed.

(** ** Ends without a begin *)

Section tracker_claims.
Context {W : Type} `{!Callback W}.
Implicit Types (t : EventTracker W) (cb : W).

Lemma with_parse_id t : with_parse (_parse_events t) t = t.
Proof. by destruct t. Qed.

Lemma with_genericize_id t : with_genericize (_genericize_events t) t = t.
Proof. by destruct t. Qed.

Lemma with_pass_id t : with_pass (_pass_events t) t = t.
Proof. by destruct t. Qed.

Lemma set_stack_at_nil_id {K E} `{Countable K} (m : gmap K (Stack E)) k :
  m !! k ≠ Some [] → stack_at m k = [] → set_stack_at m k [] = m.
Proof. intros Hne Hk. rewrite <-Hk. by apply set_stack_at_id. Qed.

(** An end with nothing to match on a tracker that satisfies the
    invariant. *)
Lemma end_without_begin t (e : AnyRecord) :
  tracker_wf t →
  is_end e = true →
  pending_for e t = [] →
  push_event e t = deliver (report_mismatch e) t.
Proof.
  intros [Hu Hi Hp Hg Hs] Hend Hnone.
  destruct e as [e|e|e|e]; simpl in *.
  - destruct (unit_kind (event e)) eqn:Hk; [done|].
    rewrite push_event_unit_End by done.
    apply fmap_nil_inv in Hnone. rewrite Hnone.
    unfold deliver, with_unit. simpl. by rewrite Hnone.
  - destruct (include_kind (event e)) eqn:Hk; [done|].
    rewrite push_event_include_Leave by done.
    apply fmap_nil_inv in Hnone. rewrite Hnone.
    unfold deliver, with_include. simpl. by rewrite Hnone.
  - destruct (parse_kind (event e)) eqn:Hk; try done.
    rewrite push_event_parse_Finish by done.
    apply fmap_nil_inv, app_eq_nil in Hnone as [Hpk Hgk].
    rewrite Hpk, Hgk. simpl.
    rewrite !set_stack_at_nil_id
      by (done || eapply stacks_hold_no_empty; done).
    by rewrite with_parse_id, with_genericize_id.
  - destruct (pass_kind (event e)) eqn:Hk; [done|].
    rewrite push_event_pass_End by done.
    apply fmap_nil_inv in Hnone. rewrite Hnone.
    rewrite set_stack_at_nil_id
      by (done || eapply stacks_hold_no_empty; done).
    by rewrite with_pass_id.
Qed.


End tracker_claims.

(** ** The parse and genericize stacks *)

Section parse_claims.
Context {W : Type} `{!Callback W}.
Implicit Types (t : EventTracker W) (cb : W).

Lemma with_parse_with_parse m m' t :
  with_parse m (with_parse m' t) = with_parse m t.
Proof. done. Qed.

(** [Start], [Finish] in a row: the stacks are as before, one call. *)
Lemma start_finish_matched k start fin t :
  tracker_wf t → is_parse_start k start → is_parse_finish k fin →
  submit [RParse start; RParse fin] t
  = deliver (ParseCall (on_match start fin)) t.
Proof.
  intros Hwf [Hks Hus] [Hkf Huf]. simpl.
  rewrite (push_event_parse_Start start) by done.
  rewrite push_event_parse_Finish by done.
  simpl. rewrite Hus, Huf, stack_at_set, set_stack_at_twice.
  rewrite set_stack_at_id
    by (eapply stacks_hold_no_empty, wf_parse; done).
  by rewrite with_parse_with_parse, with_parse_id.
Qed.

(** [Start], [PreGenericize], [Finish] in a row when no older [Start] of
    the key is pending: the stacks are as before, two calls. *)
Lemma start_pre_finish_matched k start pre fin t :
  tracker_wf t → stack_at (_parse_events t) k = [] →
  is_parse_start k start → is_pre_genericize k pre → is_parse_finish k fin →
  submit [RParse start; RParse pre; RParse fin] t
  = delivers [ParseCall (on_match start pre); ParseCall (on_match pre fin)] t.
Proof.
  intros Hwf Hnone [Hks Hus] [Hkp Hup] [Hkf Huf]. simpl.
  pose proof (stacks_hold_no_empty _ _ (wf_parse _ Hwf)) as Hne.
  pose proof (stacks_hold_no_empty _ _ (wf_genericize _ Hwf)) as Hng.
  rewrite (push_event_parse_Start start) by done.
  rewrite (push_event_parse_PreGenericize pre) by done.
  rewrite Hus, Hup. simpl. rewrite stack_at_set, set_stack_at_twice.
  rewrite set_stack_at_id by apply Hne.
  rewrite (push_event_parse_Finish fin) by done.
  rewrite Huf. simpl. rewrite Hnone, stack_at_set, set_stack_at_twice.
  rewrite set_stack_at_nil_id by (done || apply Hne).
  rewrite set_stack_at_id by apply Hng.
  by destruct t.
Qed.

(** C1: on a tracker with nothing pending, and more generally on any
    tracker that holds no pending Start for the key, Start(k),
    PreGenericize(k), Finish(k) make exactly two calls: the match of
    Start with PreGenericize, which the writer names [parse], and the
    match of PreGenericize with Finish, which it names [genericize].
    Start(k), Finish(k) make exactly one call, the match of Start with
    Finish, named [parse].  A Finish finds its begin on the parse stack
    of its key whenever that stack holds one, on the genericize stack
    only when the parse stack holds none, and is reported with
    on_mismatch when neither holds one. *)
Theorem parse_fallback_correct (k : N)
    (start pre fin : EventRecord ParseEvent) (w : list AnyRecord) cb :
  let t := submit w (new_tracker cb) in
  is_parse_start k start → is_pre_genericize k pre → is_parse_finish k fin →
  submit [RParse start; RParse pre; RParse fin] (new_tracker cb)
  = delivers [ParseCall (on_match start pre); ParseCall (on_match pre fin)]
      (new_tracker cb)
  ∧ (stack_at (_parse_events t) k = [] →
     submit [RParse start; RParse pre; RParse fin] t
     = delivers [ParseCall (on_match start pre);
                 ParseCall (on_match pre fin)] t)
  ∧ parse_slice_name start = "parse"
  ∧ parse_slice_name pre = "genericize"
  ∧ submit [RParse start; RParse fin] t
    = delivers [ParseCall (on_match start fin)] t
  ∧ (∀ b s, stack_at (_parse_events t) k = b :: s →
     push_event (RParse fin) t
     = deliver (ParseCall (on_match b fin))
         (with_parse (set_stack_at (_parse_events t) k s) t))
  ∧ (∀ g s, stack_at (_parse_events t) k = [] →
     stack_at (_genericize_events t) k = g :: s →
     push_event (RParse fin) t
     = deliver (ParseCall (on_match g fin))
         (with_genericize (set_stack_at (_genericize_events t) k s) t))
  ∧ (stack_at (_parse_events t) k = [] →
     stack_at (_genericize_events t) k = [] →
     push_event (RParse fin) t = deliver (ParseCall (on_mismatch fin)) t).
Proof.
  intros t Hs Hp Hf.
  assert (tracker_wf t) as Hwf by apply reachable_wf.
  pose proof (stacks_hold_no_empty _ _ (wf_parse _ Hwf)) as Hne.
  pose proof (stacks_hold_no_empty _ _ (wf_genericize _ Hwf)) as Hng.
  destruct Hs as [Hks Hus], Hp as [Hkp Hup]. pose proof Hf as [Hkf Huf].
  repeat split.
  - apply (start_pre_finish_matched k); try done; apply new_tracker_wf.
  - intros Hnone. by apply (start_pre_finish_matched k).
  - unfold parse_slice_name. by rewrite Hks.
  - unfold parse_slice_name. by rewrite Hkp.
  - by apply (start_finish_matched k).
  - intros b s Hst. simpl. rewrite push_event_parse_Finish by done.
    simpl. by rewrite Huf, Hst.
  - intros g s Hst Hgt. simpl. rewrite push_event_parse_Finish by done.
    simpl. rewrite Huf, Hst, Hgt.
    rewrite set_stack_at_nil_id by (rewrite ?Huf; done).
    by rewrite with_parse_id.
  - intros Hst Hgt.
    apply (end_without_begin t (RParse fin)); [done| |].
    + simpl. by rewrite Hkf.
    + simpl. by rewrite Huf, Hst, Hgt.
Qed.

End parse_claims.

Lemma lookup_set_stack_at {K E} `{Countable K} (m : gmap K (Stack E)) k s :
  set_stack_at m k s !! k = match s with [] => None | _ :: _ => Some s end.
Proof.
  unfold set_stack_at. destruct s.
  - apply lookup_delete_eq.
  - apply lookup_insert_eq.
Qed.

Lemma stack_at_lookup {K E} `{Countable K} (m : gmap K (Stack E)) k s :
  m !! k = Some s → stack_at m k = s.
Proof. intros Hk. unfold stack_at. by rewrite Hk. Qed.

Lemma stack_at_lookup_None {K E} `{Countable K} (m : gmap K (Stack E)) k :
  m !! k = None → stack_at m k = [].
Proof. intros Hk. unfold stack_at. by rewrite Hk. Qed.





(** ** Pruning of the keyed collections *)

Section pruning.
Context {W : Type} `{!Callback W}.
Implicit Types (t : EventTracker W) (cb : W).

(** C10: in every state the tracker reaches, no key of the parse,
    genericize or pass collection maps to an empty stack.  A match that
    takes the last entry of a key removes the key, and a begin for a key
    that is absent starts a stack that holds this record alone. *)
Theorem drained_stack_is_removed (w : list AnyRecord) cb :
  let t := submit w (new_tracker cb) in
  (no_empty (_parse_events t)
   ∧ no_empty (_genericize_events t)
   ∧ no_empty (_pass_events t))
  ∧ (∀ e b, pass_kind (event e) = PassEventKind.End →
     _pass_events t !! name (event e) = Some [b] →
     _pass_events (push_event (RPass e) t) !! name (event e) = None)
  ∧ (∀ e b, parse_kind (event e) ≠ ParseEventKind.Start →
     _parse_events t !! parse_uid (event e) = Some [b] →
     _parse_events (push_event (RParse e) t) !! parse_uid (event e) = None)
  ∧ (∀ e g, parse_kind (event e) = ParseEventKind.Finish →
     _parse_events t !! parse_uid (event e) = None →
     _genericize_events t !! parse_uid (event e) = Some [g] →
     _genericize_events (push_event (RParse e) t) !! parse_uid (event e)
     = None)
  ∧ (∀ r, pass_kind (event r) = PassEventKind.Start →
     _pass_events t !! name (event r) = None →
     _pass_events (push_event (RPass r) t) !! name (event r) = Some [r])
  ∧ (∀ r, parse_kind (event r) = ParseEventKind.Start →
     _parse_events t !! parse_uid (event r) = None →
     _parse_events (push_event (RParse r) t) !! parse_uid (event r)
     = Some [r])
  ∧ (∀ r, parse_kind (event r) = ParseEventKind.PreGenericize →
     _genericize_events t !! parse_uid (event r) = None →
     _genericize_events (push_event (RParse r) t) !! parse_uid (event r)
     = Some [r]).
Proof.
  intros t.
  assert (tracker_wf t) as Hwf by apply reachable_wf.
  split; [|repeat split].
  - repeat split; eapply stacks_hold_no_empty;
      [apply wf_parse|apply wf_genericize|apply wf_pass]; done.
  - intros e b Hk Hst. simpl. rewrite push_event_pass_End by done.
    simpl. rewrite (stack_at_lookup _ _ _ Hst). simpl.
    by rewrite lookup_set_stack_at.
  - intros e b Hk Hst. simpl.
    destruct (parse_kind (event e)) eqn:Hke; [done| |].
    + rewrite push_event_parse_PreGenericize by done.
      simpl. rewrite (stack_at_lookup _ _ _ Hst). simpl.
      by rewrite lookup_set_stack_at.
    + rewrite push_event_parse_Finish by done.
      simpl. rewrite (stack_at_lookup _ _ _ Hst). simpl.
      by rewrite lookup_set_stack_at.
  - intros e g Hk Hst Hgt. simpl. rewrite push_event_parse_Finish by done.
    simpl. rewrite (stack_at_lookup_None _ _ Hst).
    rewrite (stack_at_lookup _ _ _ Hgt). simpl.
    by rewrite lookup_set_stack_at.
  - intros r Hk Hst. simpl. rewrite push_event_pass_Start by done.
    simpl. rewrite (stack_at_lookup_None _ _ Hst).
    by rewrite lookup_set_stack_at.
  - intros r Hk Hst. simpl. rewrite push_event_parse_Start by done.
    simpl. rewrite (stack_at_lookup_None _ _ Hst).
    by rewrite lookup_set_stack_at.
  - intros r Hk Hst. simpl. rewrite push_event_parse_PreGenericize by done.
    destruct (stack_at (_parse_events t) _); simpl;
      rewrite (stack_at_lookup_None _ _ Hst);
      by rewrite lookup_set_stack_at.
Qed.

End pruning.

(** ** Nested and sequential pairs *)

Lemma pairs_ordered σ b e c :
  pairs σ b e c → record_time b ≤ record_time e → interval_ordered c.
Proof. by destruct 1. Qed.

Lemma nested_length σ w o : nested σ w o → length w = (2 * length o)%nat.
Proof.
  induction 1 as [|w1 o1 w2 o2 _ IH1 _ IH2|b e c w o _ _ IH]; simpl.
  - done.
  - rewrite !length_app. lia.
  - rewrite !length_app. simpl. lia.
Qed.

Lemma chronological_app w1 w2 :
  chronological (w1 ++ w2) → chronological w1 ∧ chronological w2.
Proof.
  unfold chronological. induction w1 as [|a w1 IH]; simpl.
  - intros Hw. split; [constructor|done].
  - intros Hw. apply StronglySorted_inv in Hw as [Hw Ha].
    destruct (IH Hw) as [H1 H2]. split; [|done].
    constructor; [done|]. by apply Forall_app in Ha as [Ha _].
Qed.

Lemma nested_ordered σ w o :
  nested σ w o → chronological w → Forall interval_ordered o.
Proof.
  induction 1 as [|w1 o1 w2 o2 _ IH1 _ IH2|b e c w o Hp _ IH]; intros Hw.
  - constructor.
  - apply chronological_app in Hw as [H1 H2]. apply Forall_app. auto.
  - apply StronglySorted_inv in Hw as [Hw Hb].
    apply chronological_app in Hw as [Hw _].
    apply Forall_app. split; [auto|].
    constructor; [|constructor].
    apply (pairs_ordered _ _ _ _ Hp).
    apply Forall_app in Hb as [_ Hb]. by inversion Hb.
Qed.

(** Between a begin and the end [nested] pairs it with, every record is
    itself paired: when the end arrives, its begin is the latest one that
    is still unmatched. *)
Lemma nested_lifo σ w o c :
  nested σ w o → c ∈ o →
  ∃ b e pre mid post o',
    pairs σ b e c ∧ w = pre ++ b :: mid ++ e :: post ∧ nested σ mid o'.
Proof.
  induction 1 as [|w1 o1 w2 o2 _ IH1 _ IH2|b e c' w o Hp Hn IH]; intros Hc.
  - by apply elem_of_nil in Hc.
  - apply elem_of_app in Hc as [Hc|Hc].
    + destruct (IH1 Hc) as (b & e & pre & mid & post & o' & Hp & -> & Hm).
      exists b, e, pre, mid, (post ++ w2), o'. split; [done|]. split; [|done].
      by repeat (rewrite <-app_assoc; simpl).
    + destruct (IH2 Hc) as (b & e & pre & mid & post & o' & Hp & -> & Hm).
      exists b, e, (w1 ++ pre), mid, post, o'. split; [done|]. split; [|done].
      by repeat (rewrite <-app_assoc; simpl).
  - apply elem_of_app in Hc as [Hc|Hc].
    + destruct (IH Hc) as (b0 & e0 & pre & mid & post & o' & Hp0 & -> & Hm).
      exists b0, e0, (b :: pre), mid, (post ++ [e]), o'.
      split; [done|]. split; [|done]. simpl.
      by repeat (rewrite <-app_assoc; simpl).
    + apply list_elem_of_singleton in Hc as ->.
      exists b, e, [], w, [], o. by split.
Qed.

Section lifo.
Context {W : Type} `{!Callback W}.
Implicit Types (t : EventTracker W) (cb : W).

Section one_stream.
Variable σ : Stream.
Variable St : Type.
Variable get : EventTracker W → St.
Variable set : St → EventTracker W → EventTracker W.
Variable push_on : AnyRecord → St → St.
Hypothesis get_set : ∀ s t, get (set s t) = s.
Hypothesis set_set : ∀ s s' t, set s (set s' t) = set s t.
Hypothesis get_deliver : ∀ c t, get (deliver c t) = get t.
Hypothesis set_deliver : ∀ s c t, set s (deliver c t) = deliver c (set s t).
Hypothesis step_begin : ∀ b e c t,
  pairs σ b e c → push_event b t = set (push_on b (get t)) t.
Hypothesis step_end : ∀ b e c s t,
  pairs σ b e c → get t = push_on b s →
  push_event e t = deliver c (set s t).

Lemma get_delivers cs t : get (delivers cs t) = get t.
Proof.
  revert t. induction cs as [|c cs IH]; intros t; [done|].
  simpl. by rewrite IH, get_deliver.
Qed.

Lemma set_delivers s cs t : set s (delivers cs t) = delivers cs (set s t).
Proof.
  revert t. induction cs as [|c cs IH]; intros t; [done|].
  simpl. by rewrite IH, set_deliver.
Qed.

(** From a state whose stack of [σ] is stored as [set] stores it, a
    nested sequence makes the calls of its pairs and leaves the state. *)
Lemma nested_submit w o :
  nested σ w o → ∀ t, set (get t) t = t → submit w t = delivers o t.
Proof.
  induction 1 as [|w1 o1 w2 o2 _ IH1 _ IH2|b e c w o Hp _ IH]; intros t Ht.
  - done.
  - rewrite submit_app, delivers_app, IH1 by done. apply IH2.
    by rewrite get_delivers, set_delivers, Ht.
  - change (submit (b :: w ++ [e]) t)
      with (submit (w ++ [e]) (push_event b t)).
    rewrite submit_snoc, (step_begin _ _ _ _ Hp).
    rewrite IH by (by rewrite get_set, set_set).
    rewrite (step_end _ _ _ (get t) _ Hp)
      by (by rewrite get_delivers, get_set).
    by rewrite set_delivers, set_set, Ht, delivers_snoc.
Qed.

End one_stream.

Lemma nested_submit_new σ w o cb :
  nested σ w o → submit w (new_tracker cb) = delivers o (new_tracker cb).
Proof.
  intros Hn. destruct σ as [| |k|n].
  - apply (nested_submit UnitStream _ _unit_events with_unit push_on_unit);
      try done.
    + intros b e c t Hp. inversion Hp; subst. simpl.
      by rewrite push_event_unit_Start.
    + intros b e c s t Hp Hst. inversion Hp; subst. simpl in *.
      rewrite push_event_unit_End by done. by rewrite Hst.
  - apply (nested_submit IncludeStream _ _include_events with_include
             push_on_include); try done.
    + intros b e c t Hp. inversion Hp; subst. simpl.
      by rewrite push_event_include_Enter.
    + intros b e c s t Hp Hst. inversion Hp; subst. simpl in *.
      rewrite push_event_include_Leave by done. by rewrite Hst.
  - apply (nested_submit (ParseStream k) _
             (λ t, stack_at (_parse_events t) k)
             (λ s t, with_parse (set_stack_at (_parse_events t) k s) t)
             push_on_parse); try done.
    + intros s t. simpl. apply stack_at_set.
    + intros s s' t. unfold with_parse. simpl.
      by rewrite set_stack_at_twice.
    + intros b e c t Hp. inversion Hp as [| |? b0 e0 [Hkb Hub] Hf|]; subst.
      simpl. by rewrite push_event_parse_Start.
    + intros b e c s t Hp Hst.
      inversion Hp as [| |? b0 e0 Hb [Hke Hue]|]; subst. simpl in *.
      rewrite push_event_parse_Finish by done. simpl. by rewrite Hst.
  - apply (nested_submit (PassStream n) _
             (λ t, stack_at (_pass_events t) n)
             (λ s t, with_pass (set_stack_at (_pass_events t) n s) t)
             push_on_pass); try done.
    + intros s t. simpl. apply stack_at_set.
    + intros s s' t. unfold with_pass. simpl.
      by rewrite set_stack_at_twice.
    + intros b e c t Hp. inversion Hp as [| | |? b0 e0 [Hkb Hub] Hke Hue]; subst.
      simpl. by rewrite push_event_pass_Start.
    + intros b e c s t Hp Hst.
      inversion Hp as [| | |? b0 e0 Hb Hke Hue]; subst. simpl in *.
      rewrite push_event_pass_End by done. simpl. by rewrite Hst.
Qed.

End lifo.

Section lifo_claim.
Context {W : Type} `{!Callback W} `{!IterationOrder}.
Implicit Types (t : EventTracker W) (cb : W).

(** C3: for a well-formed sequence of begin/end pairs of one category
    and key (Unit, Include, Parse Start/Finish of one function key, Pass
    of one name), nested or one after the other, submitted in the order
    the clock stamped them to a tracker with nothing pending: the tracker
    makes exactly one on_match call per pair and no other call, every
    reported begin is stamped no later than its end, each end is matched
    with the latest begin that is still unmatched when it arrives (all
    the records between the two are paired among themselves), nothing is
    left pending and [finish] then makes no call.  In particular Start,
    Start, End, End of one pass name gives two calls: the first End with
    the second Start, then the second End with the first Start. *)
Theorem nested_pairs_matched_lifo (σ : Stream) (w : list AnyRecord)
    (o : list AnyCall) cb :
  nested σ w o →
  chronological w →
  let t := submit w (new_tracker cb) in
  t = new_tracker (calls o cb)
  ∧ length w = (2 * length o)%nat
  ∧ Forall interval_ordered o
  ∧ (∀ c, c ∈ o →
     ∃ b e pre mid post o',
       pairs σ b e c ∧ w = pre ++ b :: mid ++ e :: post ∧ nested σ mid o')
  ∧ finish t = t
  ∧ (∀ n s1 s2 e1 e2,
     is_pass_start n s1 → is_pass_start n s2 →
     pass_kind (event e1) = PassEventKind.End → name (event e1) = n →
     pass_kind (event e2) = PassEventKind.End → name (event e2) = n →
     submit [RPass s1; RPass s2; RPass e1; RPass e2] (new_tracker cb)
     = new_tracker
         (calls [PassCall (on_match s2 e1); PassCall (on_match s1 e2)] cb)).
Proof.
  intros Hn Hw t.
  assert (t = new_tracker (calls o cb)) as Ht.
  { unfold t. by rewrite (nested_submit_new σ w o), delivers_new_tracker. }
  repeat split.
  - done.
  - by eapply nested_length.
  - by eapply nested_ordered.
  - intros c Hc. by eapply nested_lifo.
  - rewrite Ht. apply finish_new_tracker.
  - intros n s1 s2 e1 e2 Hs1 Hs2 Hk1 Hn1 Hk2 Hn2.
    rewrite <-delivers_new_tracker.
    apply (nested_submit_new (PassStream n)).
    apply (nested_wrap _ (RPass s1) (RPass e2) _ [RPass s2; RPass e1]
             [PassCall (on_match s2 e1)]); [by constructor|].
    apply (nested_wrap _ (RPass s2) (RPass e1) _ [] []); by constructor.
Qed.

End lifo_claim.

(** *** Instances *)

Lemma nested_pairs_matched_lifo_witness :
  let s1 := pass_record PassEventKind.Start "ccp" 1 in
  let s2 := pass_record PassEventKind.Start "ccp" 2 in
  let e1 := pass_record PassEventKind.End "ccp" 3 in
  let e2 := pass_record PassEventKind.End "ccp" 4 in
  _cb (submit [RPass s1; RPass s2; RPass e1; RPass e2]
         (new_tracker ([] : Log)))
  = [PassCall (on_match s2 e1); PassCall (on_match s1 e2)]
  ∧ Forall interval_ordered
      [PassCall (on_match s2 e1); PassCall (on_match s1 e2)].
Proof.
  intros s1 s2 e1 e2. pose (order := key_order).
  destruct (nested_pairs_matched_lifo (PassStream "ccp")
              [RPass s1; RPass s2; RPass e1; RPass e2]
              [PassCall (on_match s2 e1); PassCall (on_match s1 e2)]
              ([] : Log)) as (Ht & _ & Hord & _).
  - apply (nested_wrap _ (RPass s1) (RPass e2) _ [RPass s2; RPass e1]
             [PassCall (on_match s2 e1)]).
    + constructor; [split| |]; reflexivity.
    + apply (nested_wrap _ (RPass s2) (RPass e1) _ [] []).
      * constructor; [split| |]; reflexivity.
      * constructor.
  - unfold chronological.
    repeat (constructor; [|repeat constructor; simpl; lia]). constructor.
  - split; [|exact Hord]. rewrite Ht. reflexivity.
Defined.

Lemma parse_fallback_correct_witness :
  let start := parse_record ParseEventKind.Start demo_decl 1 in
  let pre := parse_record ParseEventKind.PreGenericize demo_decl 2 in
  let fin := parse_record ParseEventKind.Finish demo_decl 3 in
  _cb (submit [RParse start; RParse pre; RParse fin]
         (new_tracker ([] : Log)))
  = [ParseCall (on_match start pre); ParseCall (on_match pre fin)]
  ∧ _cb (submit [RParse start; RParse fin] (new_tracker ([] : Log)))
    = [ParseCall (on_match start fin)]
  ∧ _cb (push_event (RParse fin) (new_tracker ([] : Log)))
    = [ParseCall (on_mismatch fin)].
Proof.
  intros start pre fin.
  destruct (parse_fallback_correct 7 start pre fin [] ([] : Log))
    as (H3 & _ & _ & _ & H2 & _ & _ & Hmis).
  - split; reflexivity.
  - split; reflexivity.
  - split; reflexivity.
  - split; [|split].
    + exact (f_equal _cb H3).
    + exact (f_equal _cb H2).
    + exact (f_equal _cb (Hmis eq_refl eq_refl)).
Defined.


Lemma drained_stack_is_removed_witness :
  let s := pass_record PassEventKind.Start "ccp" 1 in
  let e := pass_record PassEventKind.End "ccp" 2 in
  _pass_events
    (push_event (RPass e) (submit [RPass s] (new_tracker ([] : Log))))
  !! "ccp" = None
  ∧ _pass_events
      (push_event (RPass s)
         (submit [RPass s; RPass e] (new_tracker ([] : Log))))
    !! "ccp" = Some [s].
Proof.
  intros s e. split.
  - destruct (drained_stack_is_removed [RPass s] ([] : Log))
      as (_ & Hdrain & _).
    apply (Hdrain e s); reflexivity.
  - destruct (drained_stack_is_removed [RPass s; RPass e] ([] : Log))
      as (_ & _ & _ & _ & Hfresh & _).
    apply (Hfresh s); reflexivity.
Defined.

(** ** Text *)

Lemma string_app_cons (x : ascii) (a b : string) :
  String x a +:+ b = String x (a +:+ b).
Proof. reflexivity. Qed.

Lemma string_app_assoc (a b c : string) : (a +:+ b) +:+ c = a +:+ (b +:+ c).
Proof.
  induction a as [|x a IH]; [done|]. rewrite !string_app_cons. by f_equal.
Qed.

Lemma string_app_nil_r (a : string) : a +:+ EmptyString = a.
Proof.
  induction a as [|x a IH]; [done|]. rewrite string_app_cons. by f_equal.
Qed.

Lemma string_app_length (a b : string) :
  String.length (a +:+ b) = (String.length a + String.length b)%nat.
Proof.
  induction a as [|x a IH]; [done|]. rewrite string_app_cons. simpl.
  by f_equal.
Qed.

(** ** Decimal text *)

Lemma digit_value_char (d : N) :
  (d < 10)%N →
  digit_value (pretty_N_char d) = d ∧ is_digit (pretty_N_char d) = true.
Proof.
  intros Hd.
  assert (d = 0 ∨ d = 1 ∨ d = 2 ∨ d = 3 ∨ d = 4 ∨ d = 5 ∨ d = 6 ∨ d = 7
          ∨ d = 8 ∨ d = 9)%N as Hcases by lia.
  repeat (destruct Hcases as [->|Hcases]; [by vm_compute|]).
  subst. by vm_compute.
Qed.

Lemma pretty_N_go_value (x : N) (s : string) :
  dec_value (pretty_N_go x s)
  = (x * 10 ^ N.of_nat (String.length s) + dec_value s)%N
  ∧ (all_digits s = true → all_digits (pretty_N_go x s) = true).
Proof.
  revert s. induction (N.lt_wf_0 x) as [x _ IH]; intros s.
  destruct (decide (x = 0%N)) as [->|Hx].
  - rewrite pretty_N_go_0. split; [lia|done].
  - rewrite pretty_N_go_step by lia.
    destruct (IH (x `div` 10)%N) with
      (s := String (pretty_N_char (x `mod` 10)) s) as [Hv Hd].
    { apply N.div_lt; lia. }
    destruct (digit_value_char (x `mod` 10)%N) as [Hc Hdc].
    { apply N.mod_lt. lia. }
    split.
    + rewrite Hv. simpl dec_value. simpl String.length. rewrite Hc.
      rewrite Nat2N.inj_succ, N.pow_succ_r'.
      pose proof (N.div_mod x 10). lia.
    + intros Hs. apply Hd. simpl. by rewrite Hdc, Hs.
Qed.

Lemma pretty_N_value (x : N) :
  dec_value (pretty x) = x ∧ all_digits (pretty x) = true.
Proof.
  unfold pretty, pretty_N. case_decide as Hx.
  - subst. by vm_compute.
  - destruct (pretty_N_go_value x EmptyString) as [Hv Hd].
    split; [|by apply Hd]. rewrite Hv. simpl. lia.
Qed.

(** [%ld] of a number that is not negative is its decimal text. *)
Lemma fmt_ld_value (z : Z) :
  0 ≤ z →
  Z.of_N (dec_value (fmt_ld z)) = z ∧ all_digits (fmt_ld z) = true.
Proof.
  intros Hz. unfold fmt_ld, pretty, pretty_Z.
  destruct z as [|p|p]; [| |lia].
  - by vm_compute.
  - simpl. destruct (pretty_N_value (N.pos p)) as [Hv Hd].
    change (pretty p) with (pretty (N.pos p)).
    by rewrite Hv.
Qed.

Lemma three_digits_table : forallb three_digits_ok (seq 0 1000) = true.
Proof. by vm_compute. Qed.

(** [%03ld] of a number below a thousand is exactly three digits. *)
Lemma fmt_03ld_value (z : Z) :
  0 ≤ z < 1000 →
  String.length (fmt_03ld z) = 3%nat
  ∧ all_digits (fmt_03ld z) = true
  ∧ Z.of_N (dec_value (fmt_03ld z)) = z.
Proof.
  intros Hz.
  pose proof three_digits_table as Htable.
  rewrite forallb_forall in Htable.
  specialize (Htable (Z.to_nat z)).
  unfold three_digits_ok in Htable. rewrite Z2Nat.id in Htable by lia.
  rewrite !andb_true_iff in Htable.
  destruct Htable as [[Hlen Hdig] Hval].
  { apply in_seq. lia. }
  apply Nat.eqb_eq in Hlen. apply N.eqb_eq in Hval.
  repeat split; [done|done|]. rewrite Hval. lia.
Qed.

(** ** What the writer appends *)

Lemma SliceWriter_open_spec name start end_ w :
  SliceWriter_open name start end_ w
  = {| _file := _file w +:+ separator w
                +:+ slice_text (_epoch w) name start end_;
       _epoch := _epoch w;
       _decl_verbosity := _decl_verbosity w;
       _slice_count := (_slice_count w + 1)%N;
       _decl_name_cache := _decl_name_cache w |}.
Proof.
  unfold SliceWriter_open, separator, slice_text, us_text, fprintf.
  destruct (bool_decide (0 < _slice_count w)%N);
    destruct (bool_decide (0 < end_ - start)); simpl;
    f_equal; by rewrite ?string_app_assoc.
Qed.

Section writer_facts.
Context `{!LangHooks}.

Lemma get_decl_name_fields decl w :
  _file (get_decl_name decl w).2 = _file w
  ∧ _epoch (get_decl_name decl w).2 = _epoch w
  ∧ _decl_verbosity (get_decl_name decl w).2 = _decl_verbosity w
  ∧ _slice_count (get_decl_name decl w).2 = _slice_count w.
Proof.
  unfold get_decl_name. by destruct (_decl_name_cache w !! DECL_PT_UID decl).
Qed.

Lemma write_function_arg_spec decl w :
  _epoch (write_function_arg decl w) = _epoch w
  ∧ _decl_verbosity (write_function_arg decl w) = _decl_verbosity w
  ∧ _slice_count (write_function_arg decl w) = _slice_count w
  ∧ ∃ args, _file (write_function_arg decl w) = _file w +:+ args.
Proof.
  unfold write_function_arg.
  destruct (get_decl_name decl (ArgWriter_open w)) as [decl_name w2] eqn:Hg.
  pose proof (get_decl_name_fields decl (ArgWriter_open w)) as Hf.
  rewrite Hg in Hf. simpl in Hf. destruct Hf as (Hfile & He & Hv & Hc).
  simpl. rewrite He, Hv, Hc, Hfile. repeat split.
  eexists. by rewrite !string_app_assoc.
Qed.

Lemma write_file_arg_spec file w :
  _epoch (write_file_arg file w) = _epoch w
  ∧ _decl_verbosity (write_file_arg file w) = _decl_verbosity w
  ∧ _slice_count (write_file_arg file w) = _slice_count w
  ∧ ∃ args, _file (write_file_arg file w) = _file w +:+ args.
Proof.
  unfold write_file_arg. simpl. repeat split.
  eexists. by rewrite !string_app_assoc.
Qed.

(** An entry without arguments. *)
Lemma writes_entry_plain name start end_ w :
  writes_entry w (SliceWriter_close (SliceWriter_open name start end_ w))
    name start end_.
Proof.
  rewrite SliceWriter_open_spec. repeat split. exists EmptyString.
  simpl. by rewrite !string_app_assoc.
Qed.

(** An entry whose arguments are written by [f]. *)
Lemma writes_entry_args name start end_ w (f : TraceWriter → TraceWriter) :
  (∀ w1, _epoch (f w1) = _epoch w1
         ∧ _decl_verbosity (f w1) = _decl_verbosity w1
         ∧ _slice_count (f w1) = _slice_count w1
         ∧ ∃ args, _file (f w1) = _file w1 +:+ args) →
  writes_entry w (SliceWriter_close (f (SliceWriter_open name start end_ w)))
    name start end_.
Proof.
  intros Hf. rewrite SliceWriter_open_spec.
  match goal with |- context [f ?w1] =>
    destruct (Hf w1) as (He & Hv & Hc & args & Hfile) end.
  simpl in *. unfold writes_entry. simpl. rewrite He, Hv, Hc, Hfile.
  repeat split. exists args. by rewrite !string_app_assoc.
Qed.

(** [WriteCallback] writes the entry of [call_slice], or nothing. *)
Lemma WriteCallback_spec (c : AnyCall) (w : TraceWriter) :
  match call_slice c with
  | Some (entry_name, start, end_) =>
      writes_entry w (call c w) entry_name start end_
  | None => call c w = w
  end.
Proof.
  destruct c as [[s e|e]|[s e|e]|[s e|e]|[s e|e]]; simpl;
    unfold call, WriteCallback.
  - apply writes_entry_plain.
  - apply writes_entry_plain.
  - apply (writes_entry_args _ _ _ _ (write_file_arg _)).
    intros w1. apply write_file_arg_spec.
  - unfold write_slice_include1. destruct (include_kind (event e)).
    + apply (writes_entry_args _ _ _ _ (write_file_arg _)).
      intros w1. apply write_file_arg_spec.
    + apply writes_entry_plain.
  - apply (writes_entry_args _ _ _ _ (write_function_arg _)).
    intros w1. apply write_function_arg_spec.
  - unfold write_slice_parse1. destruct (parse_kind (event e)); [done| |].
    + apply (writes_entry_args _ _ _ _ (write_function_arg _)).
      intros w1. apply write_function_arg_spec.
    + apply (writes_entry_args _ _ _ _ (write_function_arg _)).
      intros w1. apply write_function_arg_spec.
  - unfold write_slice_pass2. destruct (pass_decl (event s)).
    + apply (writes_entry_args _ _ _ _ (write_function_arg _)).
      intros w1. apply write_function_arg_spec.
    + apply writes_entry_plain.
  - unfold write_slice_pass1. destruct (pass_decl (event e)).
    + apply (writes_entry_args _ _ _ _ (write_function_arg _)).
      intros w1. apply write_function_arg_spec.
    + apply writes_entry_plain.
Qed.

End writer_facts.

(** ** Numbers in the document *)

Lemma micro_fields_nonneg (n : Z) : 0 ≤ n → micro_fields n.
Proof.
  intros Hn. unfold micro_fields.
  destruct (fmt_03ld_value (n `mod` 1000)) as (Hlen & Hdig & Hval).
  { apply Z.mod_pos_bound. lia. }
  destruct (fmt_ld_value (n `div` 1000)) as [Hq Hqd].
  { apply Z.div_pos; lia. }
  repeat split; try done. rewrite Hq, Hval.
  pose proof (Z.div_mod n 1000). lia.
Qed.

(** ** Markers *)

Lemma string_app_longer (a b : string) :
  b ≠ EmptyString → a +:+ b ≠ a.
Proof.
  intros Hb Heq. apply (f_equal String.length) in Heq.
  rewrite string_app_length in Heq. destruct b; [done|]. simpl in Heq. lia.
Qed.

Section marker_claim.
Context `{!LangHooks}.

(** C6 (as the code has it): a mismatched record of any category and
    kind other than a Parse Start makes the writer add exactly one entry,
    stamped with the time of the record at both ends, whose name is the
    interval name of the category followed by a label in parentheses
    (start, end, enter, leave, finish, cancelled), and so differs from
    the interval name.  For a Parse Start the writer adds nothing. *)
Theorem marker_written_with_label (r : AnyRecord) (w : TraceWriter) :
  (is_parse_start_record r = false →
   writes_entry w (call (report_mismatch r) w)
     (marker_base r +:+ " (" +:+ marker_label r +:+ ")")
     (record_time r) (record_time r)
   ∧ marker_base r +:+ " (" +:+ marker_label r +:+ ")" ≠ marker_base r)
  ∧ (is_parse_start_record r = true → call (report_mismatch r) w = w).
Proof.
  split.
  - intros Hnot. split; [|by apply string_app_longer].
    pose proof (WriteCallback_spec (report_mismatch r) w) as Hspec.
    destruct r as [e|e|e|e]; simpl in *.
    + by destruct (unit_kind (event e)).
    + by destruct (include_kind (event e)).
    + by destruct (parse_kind (event e)).
    + by destruct (pass_kind (event e)).
  - intros Hstart.
    destruct r as [e|e|e|e]; simpl in *; try done.
    unfold call, WriteCallback, write_slice_parse1.
    by destruct (parse_kind (event e)).
Qed.

End marker_claim.

Lemma marker_written_with_label_witness :
  let e := pass_record PassEventKind.End "ccp" 30 in
  writes_entry (TraceWriter_open 10 1)
    (@call _ (@WriteCallback demo_hooks) (PassCall (on_mismatch e))
       (TraceWriter_open 10 1))
    "ccp (cancelled)" 30 30.
Proof.
  intros e.
  destruct (@marker_written_with_label demo_hooks (RPass e)
              (TraceWriter_open 10 1)) as [Hmarker _].
  destruct Hmarker as [Hentry _]; [reflexivity|exact Hentry].
Defined.

(** C6 (as the spec has it) fails: [finish] reports a Parse Start left
    pending with on_mismatch, and the writer adds no entry for it. *)
Lemma dangling_parse_start_writes_nothing :
  let start := parse_record ParseEventKind.Start demo_decl 10 in
  let w := TraceWriter_open 10 1 in
  _cb (@finish _ _ key_order (submit [RParse start] (new_tracker ([] : Log))))
  = [ParseCall (on_mismatch start)]
  ∧ @call _ (@WriteCallback demo_hooks) (ParseCall (on_mismatch start)) w = w
  ∧ _slice_count w = 0%N
  ∧ _file w = "[".
Proof. repeat split. Qed.

(** ** Strings in the document *)

Lemma strcspn_split (name : string) :
  match String.get (strcspn name dquote) name with
  | Some _ =>
      escape_quotes name
      = string_take (strcspn name dquote) name
        +:+ String backslash (String dquote EmptyString)
        +:+ escape_quotes (string_drop (strcspn name dquote + 1) name)
  | None => escape_quotes name = string_take (strcspn name dquote) name
  end.
Proof.
  induction name as [|c name IH]; [done|].
  simpl. destruct (Ascii.eqb c dquote) eqn:Hc; simpl.
  - done.
  - destruct (String.get (strcspn name dquote) name); by rewrite IH.
Qed.

Lemma escape_loop_spec (name escaped : string) :
  escape_loop name escaped = escaped +:+ escape_quotes name.
Proof.
  funelim (escape_loop name escaped).
  - match goal with
    | Hget : String.get _ ?n = Some _,
      IH : escape_loop _ _ = _ +:+ escape_quotes _ |- _ =>
        pose proof (strcspn_split n) as Hsplit; rewrite Hget in Hsplit;
        rewrite IH, Hsplit
    end.
    by rewrite !string_app_assoc.
  - match goal with
    | Hget : String.get _ ?n = None |- _ =>
        pose proof (strcspn_split n) as Hsplit; rewrite Hget in Hsplit;
        by rewrite Hsplit
    end.
Qed.

(** The escaping of [get_decl_name] reads back to the name when the name
    holds, besides quotes, only characters that need no escape. *)
Lemma escape_quotes_round_trip (name rest : string) :
  quotes_and_plain name = true →
  json_string_body (escape_quotes name +:+ String dquote rest) = Some name.
Proof.
  induction name as [|c name IH]; intros Hok.
  - done.
  - simpl in Hok. apply andb_true_iff in Hok as [Hc Hrest].
    specialize (IH Hrest). simpl.
    destruct (Ascii.eqb c dquote) eqn:Hq.
    + apply Ascii.eqb_eq in Hq as ->.
      change (json_string_body
                (String backslash (String dquote
                   (escape_quotes name +:+ String dquote rest)))
              = Some (String dquote name)).
      cbn [json_string_body]. rewrite IH. done.
    + simpl in Hc. unfold json_plain in Hc.
      rewrite !andb_true_iff, !negb_true_iff in Hc.
      destruct Hc as [[_ Hb] Hctl].
      rewrite string_app_cons. cbn [json_string_body].
      rewrite Hq, Hb, Hctl. by rewrite IH.
Qed.

Lemma write_slice_include2_file (start end_ : EventRecord IncludeEvent)
    (w : TraceWriter) :
  _file (write_slice_include2 start end_ w)
  = _file w +:+ separator w
    +:+ slice_text (_epoch w) "include" (timestamp start) (timestamp end_)
    +:+ lit ",'args':{'file':'" +:+ filename (event start) +:+ lit "'}}".
Proof.
  unfold write_slice_include2, write_file_arg. rewrite SliceWriter_open_spec.
  simpl. by rewrite !string_app_assoc.
Qed.

(** C5: the writer puts the file name of an include entry between the
    quotes of the [file] argument as it is, for every name.  For a file
    name with a quote in the middle (an a, a quote, then b.h) the entry
    so written holds a string literal that ends after the a: a JSON
    parser does not read the name back.  (The escaping of
    quotes that the claim asks of every string is done for the names of
    declarations only, in [get_decl_name]; see [escape_loop_spec] and
    [escape_quotes_round_trip].) *)
Theorem include_path_written_unescaped :
  (∀ (hooks : LangHooks) (start end_ : EventRecord IncludeEvent)
     (w : TraceWriter),
     _file (@call _ (@WriteCallback hooks)
              (IncludeCall (on_match start end_)) w)
     = _file w +:+ separator w
       +:+ slice_text (_epoch w) "include" (timestamp start) (timestamp end_)
       +:+ lit ",'args':{'file':'" +:+ filename (event start) +:+ lit "'}}")
  ∧ let file := "a" +:+ String dquote "b.h" in
    let enter := include_record IncludeEventKind.Enter file 10 in
    let leave := include_record IncludeEventKind.Leave EmptyString 20 in
    _file (@call _ (@WriteCallback demo_hooks)
             (IncludeCall (on_match enter leave)) (TraceWriter_open 10 1))
    = lit "[{'name':'include','ts':0.000,'ph':'X','dur':0.010,"
      +:+ lit "'pid':0,'tid':0,'args':{'file':'a'b.h'}}"
    ∧ json_string_value (lit "'" +:+ file +:+ lit "'}}") = Some "a"
    ∧ json_string_value (lit "'" +:+ file +:+ lit "'}}") ≠ Some file.
Proof.
  split.
  - intros hooks start end_ w. apply write_slice_include2_file.
  - repeat split. by vm_compute.
Qed.

(** ** One run of the tracker for every callback *)

Section retarget_facts.
Context {W : Type} `{!Callback W} `{!IterationOrder}.
Implicit Types (cb : W) (t : EventTracker Log).

Lemma calls_snoc (log : Log) (c : AnyCall) cb :
  calls (call c log) cb = call c (calls log cb).
Proof. unfold call at 1, record_calls. by rewrite calls_app. Qed.

Lemma deliver_retarget cb c t :
  deliver c (retarget cb t) = retarget cb (deliver c t).
Proof. unfold deliver, retarget. simpl. by rewrite calls_snoc. Qed.

Lemma push_event_retarget cb r t :
  push_event r (retarget cb t) = retarget cb (push_event r t).
Proof.
  destruct r as [r|r|r|r]; simpl.
  - destruct (unit_kind (event r)) eqn:Hk.
    + by rewrite !push_event_unit_Start.
    + rewrite !push_event_unit_End by done. simpl.
      destruct (_unit_events t); by rewrite <-deliver_retarget.
  - destruct (include_kind (event r)) eqn:Hk.
    + by rewrite !push_event_include_Enter.
    + rewrite !push_event_include_Leave by done. simpl.
      destruct (_include_events t); by rewrite <-deliver_retarget.
  - destruct (parse_kind (event r)) eqn:Hk.
    + by rewrite !push_event_parse_Start.
    + rewrite !push_event_parse_PreGenericize by done. simpl.
      destruct (stack_at (_parse_events t) _); [done|].
      by rewrite <-deliver_retarget.
    + rewrite !push_event_parse_Finish by done. simpl.
      destruct (stack_at (_parse_events t) _); simpl;
        [destruct (stack_at (_genericize_events t) _)|];
        by rewrite <-deliver_retarget.
  - destruct (pass_kind (event r)) eqn:Hk.
    + by rewrite !push_event_pass_Start.
    + rewrite !push_event_pass_End by done. simpl.
      destruct (stack_at (_pass_events t) _); by rewrite <-deliver_retarget.
Qed.

Lemma submit_retarget cb w t :
  submit w (retarget cb t) = retarget cb (submit w t).
Proof.
  revert t. induction w as [|r w IH]; intros t; [done|].
  simpl. by rewrite push_event_retarget, IH.
Qed.

Lemma finish_retarget cb t : finish (retarget cb t) = retarget cb (finish t).
Proof.
  rewrite !finish_spec. unfold retarget, new_tracker. simpl.
  rewrite calls_record, calls_app. done.
Qed.

(** Whatever the callback, the tracker makes the calls it makes on the
    recording one. *)
Lemma submit_any_callback cb w :
  submit w (new_tracker cb) = retarget cb (submit w (new_tracker ([] : Log))).
Proof. by rewrite <-submit_retarget. Qed.

End retarget_facts.

(** ** The run of [finish_callback] *)

Lemma foldl_push_event {W E} `{!Callback W} (R : EventRecord E → AnyRecord)
    (l : list (EventRecord E)) (t : EventTracker W) :
  foldl (λ t r, push_event (R r) t) t l = submit (R <$> l) t.
Proof. revert t. induction l as [|r l IH]; intros t; [done|]. apply IH. Qed.

Section run.
Context `{!LangHooks} `{!IterationOrder}.

(** The trace file is what the writer, opened with the epoch, makes of
    the calls of the tracker, then of the entry of the dump itself. *)
Lemma finish_callback_spec trace_unit trace_include trace_parse trace_pass
    decl_verbosity dump_start dump_end :
  let units := reverse trace_unit in
  let includes := reverse trace_include in
  let parses := reverse trace_parse in
  let passes := reverse trace_pass in
  let epoch :=
    min4 (front_time units) (front_time includes) (front_time parses)
      (front_time passes) in
  let log :=
    _cb (finish (submit (all_events units includes parses passes)
                   (new_tracker ([] : Log)))) in
  finish_callback trace_unit trace_include trace_parse trace_pass
    decl_verbosity dump_start dump_end
  = _file (TraceWriter_close
             (write_slice_custom "plugin_dump" dump_start dump_end
                (calls log (TraceWriter_open epoch decl_verbosity)))).
Proof.
  intros units includes parses passes epoch log.
  unfold finish_callback. fold units includes parses passes. fold epoch.
  rewrite !foldl_push_event, <-!submit_app.
  fold (all_events units includes parses passes).
  rewrite submit_any_callback, finish_retarget.
  set (t := finish (submit _ (new_tracker ([] : Log)))).
  assert (t = new_tracker log) as Ht.
  { unfold log. fold t. unfold t. by rewrite finish_spec. }
  rewrite Ht.
  set (w1 := write_slice_custom "plugin_dump" dump_start dump_end
               (calls log (TraceWriter_open epoch decl_verbosity))).
  transitivity (_file (TraceWriter_close (_cb (finish (new_tracker w1)))));
    [reflexivity|].
  by rewrite finish_new_tracker.
Qed.

End run.

(** ** The shape of the document *)

Lemma entries_text_app epoch n l1 t1 l2 t2 :
  entries_text epoch n l1 t1 →
  entries_text epoch (n + N.of_nat (length l1)) l2 t2 →
  entries_text epoch n (l1 ++ l2) (t1 +:+ t2).
Proof.
  induction 1 as [n|n name s e args rest text _ IH]; intros H2.
  - simpl in *. by rewrite N.add_0_r in H2.
  - simpl. rewrite !string_app_assoc. constructor. apply IH.
    simpl length in H2. by replace (n + 1 + N.of_nat (length rest))%N
      with (n + N.of_nat (S (length rest)))%N by lia.
Qed.

Section document.
Context `{!LangHooks} `{!IterationOrder}.

Lemma calls_entries (log : Log) (w : TraceWriter) :
  ∃ text,
    _file (calls log w) = _file w +:+ text
    ∧ entries_text (_epoch w) (_slice_count w) (omap call_slice log) text
    ∧ _epoch (calls log w) = _epoch w
    ∧ _slice_count (calls log w)
      = (_slice_count w + N.of_nat (length (omap call_slice log)))%N.
Proof.
  revert w. induction log as [|c log IH]; intros w.
  - exists EmptyString. simpl. rewrite string_app_nil_r.
    repeat split; [constructor|lia].
  - change (calls (c :: log) w) with (calls log (call c w)).
    destruct (IH (call c w)) as (text & Hfile & Hentries & Hepoch & Hcount).
    pose proof (WriteCallback_spec c w) as Hspec.
    change (omap call_slice (c :: log))
      with (match call_slice c with
            | Some x => x :: omap call_slice log
            | None => omap call_slice log
            end).
    destruct (call_slice c) as [[[entry_name start] end_]|].
    + destruct Hspec as (He & _ & Hc & args & Hf).
      rewrite He, Hc in *.
      exists (separator w +:+ slice_text (_epoch w) entry_name start end_
              +:+ args +:+ "}" +:+ text).
      repeat split.
      * rewrite Hfile, Hf. by rewrite !string_app_assoc.
      * by constructor.
      * done.
      * rewrite Hcount. simpl length. lia.
    + rewrite Hspec in *. by exists text.
Qed.

(** The document: an opening bracket, one entry for every call of the
    tracker that the writer turns into one, the entry of the dump, a
    closing bracket; every entry is stamped relative to the epoch. *)
Lemma document_entries trace_unit trace_include trace_parse trace_pass
    decl_verbosity dump_start dump_end :
  let units := reverse trace_unit in
  let includes := reverse trace_include in
  let parses := reverse trace_parse in
  let passes := reverse trace_pass in
  let epoch :=
    min4 (front_time units) (front_time includes) (front_time parses)
      (front_time passes) in
  let log :=
    _cb (finish (submit (all_events units includes parses passes)
                   (new_tracker ([] : Log)))) in
  ∃ text,
    finish_callback trace_unit trace_include trace_parse trace_pass
      decl_verbosity dump_start dump_end
    = "[" +:+ text +:+ "]"
    ∧ entries_text epoch 0
        (omap call_slice log ++ [("plugin_dump", dump_start, dump_end)])
        text.
Proof.
  intros units includes parses passes epoch log.
  rewrite finish_callback_spec.
  fold units includes parses passes. fold epoch. fold log.
  set (w0 := TraceWriter_open epoch decl_verbosity).
  destruct (calls_entries log w0) as (text & Hfile & Hentries & He & Hc).
  pose proof (writes_entry_plain "plugin_dump" dump_start dump_end
                (calls log w0)) as (_ & _ & _ & args & Hdump).
  fold (write_slice_custom "plugin_dump" dump_start dump_end (calls log w0))
    in Hdump.
  exists (text +:+ separator (calls log w0)
          +:+ slice_text epoch "plugin_dump" dump_start dump_end
          +:+ args +:+ "}").
  split.
  - unfold TraceWriter_close, fprintf. cbn [_file].
    rewrite Hdump, Hfile, He. change (_file w0) with "[".
    change (_epoch w0) with epoch. by rewrite !string_app_assoc.
  - apply entries_text_app; [done|].
    unfold separator. rewrite Hc. simpl _slice_count.
    rewrite <-(string_app_nil_r "}") at 1.
    rewrite <-!string_app_assoc. rewrite !string_app_assoc.
    constructor. constructor.
Qed.

End document.

(** ** The epoch *)




Lemma chronological_head_le {E} (R : EventRecord E → AnyRecord) u l r :
  chronological (R <$> u :: l) → r ∈ R <$> u :: l →
  record_time (R u) ≤ record_time r.
Proof.
  intros Hc Hr. rewrite fmap_cons in Hc, Hr.
  apply StronglySorted_inv in Hc as [_ Hall].
  apply elem_of_cons in Hr as [->|Hr]; [lia|].
  rewrite Forall_forall in Hall. by apply Hall.
Qed.

Lemma epoch_le_all units includes parses passes r :
  chronological_buffers units includes parses passes →
  r ∈ all_events units includes parses passes →
  finish_epoch units includes parses passes ≤ record_time r.
Proof.
  intros (Hu & Hi & Hp & Hs). unfold all_events. rewrite !elem_of_app.
  intros [Hr|[Hr|[Hr|Hr]]].
  - destruct units as [|u l] eqn:Hl; [by apply elem_of_nil in Hr|].
    pose proof (chronological_head_le RUnit u l r Hu Hr).
    unfold finish_epoch, min4. simpl in *. lia.
  - destruct includes as [|u l] eqn:Hl; [by apply elem_of_nil in Hr|].
    pose proof (chronological_head_le RInclude u l r Hi Hr).
    unfold finish_epoch, min4. simpl in *. lia.
  - destruct parses as [|u l] eqn:Hl; [by apply elem_of_nil in Hr|].
    pose proof (chronological_head_le RParse u l r Hp Hr).
    unfold finish_epoch, min4. simpl in *. lia.
  - destruct passes as [|u l] eqn:Hl; [by apply elem_of_nil in Hr|].
    pose proof (chronological_head_le RPass u l r Hs Hr).
    unfold finish_epoch, min4. simpl in *. lia.
Qed.

(** ** The call that carries the earliest record *)

Lemma call_slice_subject (c : AnyCall) :
  (∃ entry_name end_,
     call_slice c = Some (entry_name, record_time (call_subject c), end_))
  ∨ (∃ p, c = ParseCall (on_mismatch p)
          ∧ parse_kind (event p) = ParseEventKind.Start
          ∧ call_slice c = None).
Proof.
  destruct c as [[s e|e]|[s e|e]|[s e|e]|[s e|e]]; simpl; eauto.
  destruct (parse_kind (event e)) eqn:Hk; eauto 10.
Qed.


Lemma call_mismatch_subject c r :
  call_mismatch c = Some r → call_subject c = r.
Proof.
  destruct c as [[s e|e]|[s e|e]|[s e|e]|[s e|e]]; simpl; congruence.
Qed.

Lemma is_begin_or_end r : is_begin r = false → is_end r = true.
Proof.
  destruct r as [r|r|r|r]; simpl.
  - by destruct (unit_kind (event r)).
  - by destruct (include_kind (event r)).
  - by destruct (parse_kind (event r)).
  - by destruct (pass_kind (event r)).
Qed.

(** The calls only grow. *)

Lemma push_event_log r (t : EventTracker Log) :
  ∃ l, _cb (push_event r t) = _cb t ++ l.
Proof.
  destruct r as [r|r|r|r]; simpl.
  - destruct (unit_kind (event r)) eqn:Hk.
    + rewrite push_event_unit_Start by done. exists []. simpl.
      by rewrite app_nil_r.
    + rewrite push_event_unit_End by done.
      destruct (_unit_events t); by eexists.
  - destruct (include_kind (event r)) eqn:Hk.
    + rewrite push_event_include_Enter by done. exists []. simpl.
      by rewrite app_nil_r.
    + rewrite push_event_include_Leave by done.
      destruct (_include_events t); by eexists.
  - destruct (parse_kind (event r)) eqn:Hk.
    + rewrite push_event_parse_Start by done. exists []. simpl.
      by rewrite app_nil_r.
    + rewrite push_event_parse_PreGenericize by done.
      destruct (stack_at (_parse_events t) _); [|by eexists].
      exists []. simpl. by rewrite app_nil_r.
    + rewrite push_event_parse_Finish by done.
      destruct (stack_at (_parse_events t) _); simpl;
        [destruct (stack_at (_genericize_events t) _)|]; by eexists.
  - destruct (pass_kind (event r)) eqn:Hk.
    + rewrite push_event_pass_Start by done. exists []. simpl.
      by rewrite app_nil_r.
    + rewrite push_event_pass_End by done.
      destruct (stack_at (_pass_events t) _); by eexists.
Qed.



(** A record leaves the stacks of the other categories alone. *)

Section frames.
Context {W : Type} `{!Callback W}.
Implicit Types t : EventTracker W.

Lemma push_event_unit_frame r t :
  _include_events (push_event_unit r t) = _include_events t
  ∧ _parse_events (push_event_unit r t) = _parse_events t
  ∧ _genericize_events (push_event_unit r t) = _genericize_events t
  ∧ _pass_events (push_event_unit r t) = _pass_events t.
Proof.
  unfold push_event_unit. destruct (unit_kind (event r)); [done|].
  by destruct (try_match_stack _ _ _).
Qed.

Lemma push_event_include_frame r t :
  _unit_events (push_event_include r t) = _unit_events t
  ∧ _parse_events (push_event_include r t) = _parse_events t
  ∧ _genericize_events (push_event_include r t) = _genericize_events t
  ∧ _pass_events (push_event_include r t) = _pass_events t.
Proof.
  unfold push_event_include. destruct (include_kind (event r)); [done|].
  by destruct (try_match_stack _ _ _).
Qed.

Lemma push_event_parse_frame r t :
  _unit_events (push_event_parse r t) = _unit_events t
  ∧ _include_events (push_event_parse r t) = _include_events t
  ∧ _pass_events (push_event_parse r t) = _pass_events t.
Proof.
  unfold push_event_parse. destruct (parse_kind (event r)); [done| |].
  - by destruct (try_match_map _ _ _ _).
  - by destruct (try_match_map _ _ _ _) as [? [? ?]].
Qed.




End frames.





(** ** The epoch and the relative timestamps *)

Section epoch_claim.
Context `{!LangHooks} `{!IterationOrder}.


End epoch_claim.



(** ** Every entry starts at a submitted record *)

Lemma push_event_log_subject r (t : EventTracker Log) :
  ∃ l, _cb (push_event r t) = _cb t ++ l
       ∧ ∀ r', r' ∈ mismatched l → r' = r.
Proof.
  assert (∀ r', r' ∈ mismatched [] → r' = r) as Hnil.
  { intros r' Hr'. by apply elem_of_nil in Hr'. }
  assert (∀ c r', call_mismatch c = None → r' ∈ mismatched [c] → r' = r)
    as Hmatch.
  { intros c r' Hc Hr'. unfold mismatched in Hr'. simpl in Hr'.
    rewrite Hc in Hr'. by apply elem_of_nil in Hr'. }
  assert (∀ r', r' ∈ mismatched [report_mismatch r] → r' = r) as Hmis.
  { intros r' Hr'. destruct r; simpl in Hr';
      by apply list_elem_of_singleton in Hr'. }
  destruct r as [r|r|r|r]; simpl.
  - destruct (unit_kind (event r)) eqn:Hk.
    + rewrite push_event_unit_Start by done. exists []. simpl.
      by rewrite app_nil_r.
    + rewrite push_event_unit_End by done.
      destruct (_unit_events t); eexists; (split; [done|]); eauto.
  - destruct (include_kind (event r)) eqn:Hk.
    + rewrite push_event_include_Enter by done. exists []. simpl.
      by rewrite app_nil_r.
    + rewrite push_event_include_Leave by done.
      destruct (_include_events t); eexists; (split; [done|]); eauto.
  - destruct (parse_kind (event r)) eqn:Hk.
    + rewrite push_event_parse_Start by done. exists []. simpl.
      by rewrite app_nil_r.
    + rewrite push_event_parse_PreGenericize by done.
      destruct (stack_at (_parse_events t) _).
      * exists []. simpl. by rewrite app_nil_r.
      * eexists; (split; [done|]); eauto.
    + rewrite push_event_parse_Finish by done.
      destruct (stack_at (_parse_events t) _); simpl;
        [destruct (stack_at (_genericize_events t) _)|];
        eexists; (split; [done|]); eauto.
  - destruct (pass_kind (event r)) eqn:Hk.
    + rewrite push_event_pass_Start by done. exists []. simpl.
      by rewrite app_nil_r.
    + rewrite push_event_pass_End by done.
      destruct (stack_at (_pass_events t) _); eexists; (split; [done|]); eauto.
Qed.

Lemma submit_mismatched_submitted w r :
  r ∈ mismatched (_cb (submit w (new_tracker ([] : Log)))) → r ∈ w.
Proof.
  revert r. induction w as [|r0 w IH] using rev_ind; intros r Hr.
  - by apply elem_of_nil in Hr.
  - rewrite submit_snoc in Hr.
    destruct (push_event_log_subject r0 (submit w (new_tracker ([] : Log))))
      as (l & Hl & Hsub).
    rewrite Hl in Hr. unfold mismatched in Hr. rewrite omap_app in Hr.
    apply elem_of_app. apply elem_of_app in Hr as [Hr|Hr].
    + left. by apply IH.
    + right. apply Hsub in Hr as ->. apply list_elem_of_here.
Qed.

Lemma call_subject_cases c :
  call_start c = Some (call_subject c)
  ∨ call_mismatch c = Some (call_subject c).
Proof. destruct c as [[s e|e]|[s e|e]|[s e|e]|[s e|e]]; simpl; auto. Qed.

Lemma begins_submitted w r : r ∈ begins w → r ∈ w.
Proof. unfold begins. rewrite list_elem_of_filter. by intros [_ ?]. Qed.

(** The subject of every call the tracker makes, [finish] included, is a
    record that was submitted. *)
Lemma log_subject_submitted `{!IterationOrder} w c :
  c ∈ _cb (finish (submit w (new_tracker ([] : Log)))) →
  call_subject c ∈ w.
Proof.
  set (t := submit w (new_tracker ([] : Log))).
  rewrite finish_spec, calls_record. intros Hc.
  pose proof (submit_conserves w) as Hcons. fold t in Hcons.
  apply elem_of_app in Hc as [Hc|Hc].
  - destruct (call_subject_cases c) as [Hs|Hm].
    + apply begins_submitted. rewrite Hcons. apply elem_of_app. left.
      apply list_elem_of_omap. eauto.
    + apply submit_mismatched_submitted. fold t.
      apply list_elem_of_omap. eauto.
  - pose proof (flush_calls_mismatches t) as Hall.
    rewrite Forall_forall in Hall. destruct (Hall c Hc) as [r Hr].
    rewrite (call_mismatch_subject c r Hr).
    apply begins_submitted. rewrite Hcons. apply elem_of_app. right.
    rewrite <-mismatched_flush_calls. apply list_elem_of_omap. eauto.
Qed.

(** In a run of [finish_callback] on buffers in clock order, no entry
    the tracker causes starts before the epoch. *)
Lemma slices_start_after_epoch `{!IterationOrder} units includes parses passes
    entry_name start end_ :
  chronological_buffers units includes parses passes →
  (entry_name, start, end_)
  ∈ omap call_slice
      (_cb (finish (submit (all_events units includes parses passes)
                      (new_tracker ([] : Log))))) →
  finish_epoch units includes parses passes ≤ start.
Proof.
  intros Hchron Hin. apply list_elem_of_omap in Hin as (c & Hc & Hslice).
  apply log_subject_submitted in Hc.
  pose proof (epoch_le_all _ _ _ _ _ Hchron Hc) as Hle.
  destruct (call_slice_subject c)
    as [(n & e & Hs)|(p & _ & _ & Hnone)]; [|congruence].
  rewrite Hs in Hslice. by inversion Hslice; subst.
Qed.

(** ** Numbers in the document, continued *)



(** ** Shutdown *)

Lemma stack_at_set_other {K E} `{Countable K} (m : gmap K (Stack E)) k k' s :
  k ≠ k' → stack_at (set_stack_at m k s) k' = stack_at m k'.
Proof. intros. unfold stack_at. by rewrite lookup_set_stack_at_ne. Qed.

(** A record of another stream leaves the two stacks as they are. *)
Lemma push_event_other_stacks {W} `{!Callback W} (r : AnyRecord)
    (σ : Stream) (t : EventTracker W) :
  stream_of r ≠ σ →
  stream_stacks σ (push_event r t) = stream_stacks σ t.
Proof.
  intros Hσ. destruct r as [r|r|r|r]; simpl in Hσ; simpl push_event.
  - destruct (push_event_unit_frame r t) as (Hi & Hp & Hg & Hs).
    destruct σ; simpl; [done|by rewrite Hi|by rewrite Hp, Hg|by rewrite Hs].
  - destruct (push_event_include_frame r t) as (Hu & Hp & Hg & Hs).
    destruct σ; simpl; [by rewrite Hu|done|by rewrite Hp, Hg|by rewrite Hs].
  - destruct (push_event_parse_frame r t) as (Hu & Hi & Hs).
    destruct σ as [| |k|n]; simpl;
      [by rewrite Hu|by rewrite Hi| |by rewrite Hs].
    assert (parse_uid (event r) ≠ k) as Hk by congruence.
    destruct (parse_kind (event r)) eqn:Hkind.
    + rewrite push_event_parse_Start by done. simpl.
      by rewrite stack_at_set_other.
    + rewrite push_event_parse_PreGenericize by done. simpl.
      destruct (stack_at (_parse_events t) _); simpl;
        by rewrite !stack_at_set_other.
    + rewrite push_event_parse_Finish by done. simpl.
      destruct (stack_at (_parse_events t) _); simpl;
        [destruct (stack_at (_genericize_events t) _); simpl|];
        by rewrite ?stack_at_set_other.
  - destruct σ as [| |k|n]; simpl.
    1-3: destruct (pass_kind (event r)) eqn:Hkind;
      [rewrite push_event_pass_Start by done; done|];
      rewrite push_event_pass_End by done; simpl;
      by destruct (stack_at (_pass_events t) _).
    assert (name (event r) ≠ n) as Hk by congruence.
    destruct (pass_kind (event r)) eqn:Hkind.
    + rewrite push_event_pass_Start by done. simpl.
      by rewrite stack_at_set_other.
    + rewrite push_event_pass_End by done. simpl.
      destruct (stack_at (_pass_events t) _); simpl;
        by rewrite stack_at_set_other.
Qed.

Lemma filter_close_latest_same (P : AnyRecord → bool) open :
  filter (λ b, P b = true) (close_latest P open)
  = tail (filter (λ b, P b = true) open).
Proof.
  induction open as [|b open IH]; [done|]. simpl.
  destruct (P b) eqn:Hb.
  - by rewrite filter_cons_True.
  - rewrite !filter_cons_False by congruence. done.
Qed.

Lemma filter_close_latest_other (P Q : AnyRecord → bool) open :
  (∀ b, P b = true → Q b = true → False) →
  filter (λ b, Q b = true) (close_latest P open)
  = filter (λ b, Q b = true) open.
Proof.
  intros HPQ. induction open as [|b open IH]; [done|]. simpl.
  destruct (P b) eqn:Hb.
  - rewrite filter_cons_False; [done|]. intros Hq. by eapply HPQ.
  - rewrite !filter_cons. by rewrite IH.
Qed.

Lemma close_latest_closed (P : AnyRecord → bool) open :
  take 1 (filter (λ b, P b = true) open) ++ close_latest P open ≡ₚ open.
Proof.
  induction open as [|b open IH]; [done|]. simpl.
  destruct (P b) eqn:Hb.
  - by rewrite filter_cons_True.
  - rewrite filter_cons_False by congruence.
    rewrite <-Permutation_middle. by f_equiv.
Qed.

Lemma existsb_filter (P : AnyRecord → bool) open :
  existsb P open = match filter (λ b, P b = true) open with
                   | [] => false
                   | _ :: _ => true
                   end.
Proof.
  induction open as [|b open IH]; [done|]. simpl.
  destruct (P b) eqn:Hb; simpl.
  - by rewrite filter_cons_True.
  - by rewrite filter_cons_False by congruence.
Qed.

Lemma begin_of_own (r : AnyRecord) :
  begin_of (stream_of r) (is_pre_genericize_record r) r = true.
Proof. unfold begin_of. by rewrite !bool_decide_true. Qed.

Lemma begin_of_unique σ pre σ' pre' b :
  begin_of σ pre b = true → begin_of σ' pre' b = true →
  σ = σ' ∧ pre = pre'.
Proof.
  unfold begin_of. rewrite !andb_true_iff, !bool_decide_eq_true.
  intros [<- <-] [<- <-]. done.
Qed.

(** One record on the tracker: what it does to the two stacks of its
    stream, and the begin of the match it reports, if it reports one. *)
Lemma push_event_stream_step (r : AnyRecord) (t : EventTracker Log) :
  stream_stacks (stream_of r) (push_event r t)
  = stream_step (stream_stacks (stream_of r) t) r
  ∧ ∃ l, _cb (push_event r t) = _cb t ++ l
         ∧ matched_starts l = closed_by (stream_stacks (stream_of r) t) r.
Proof.
  unfold stream_step, closed_by.
  destruct r as [r|r|r|r]; simpl.
  - destruct (unit_kind (event r)) eqn:Hk.
    + rewrite push_event_unit_Start by done. split; [done|].
      exists []. by rewrite app_nil_r.
    + rewrite push_event_unit_End by done.
      destruct (_unit_events t) as [|b s]; (split; [done|]); by eexists.
  - destruct (include_kind (event r)) eqn:Hk.
    + rewrite push_event_include_Enter by done. split; [done|].
      exists []. by rewrite app_nil_r.
    + rewrite push_event_include_Leave by done.
      destruct (_include_events t) as [|b s]; (split; [done|]); by eexists.
  - destruct (parse_kind (event r)) eqn:Hk.
    + rewrite push_event_parse_Start by done. simpl.
      rewrite stack_at_set. split; [done|].
      exists []. by rewrite app_nil_r.
    + rewrite push_event_parse_PreGenericize by done. simpl.
      destruct (stack_at (_parse_events t) _) as [|b s]; simpl;
        rewrite !stack_at_set; (split; [done|]).
      * exists []. by rewrite app_nil_r.
      * by eexists.
    + rewrite push_event_parse_Finish by done. simpl.
      destruct (stack_at (_parse_events t) _) as [|b s]; simpl.
      * destruct (stack_at (_genericize_events t) _) as [|g gs]; simpl;
          rewrite !stack_at_set; (split; [done|]); by eexists.
      * rewrite !stack_at_set. split; [done|]. by eexists.
  - destruct (pass_kind (event r)) eqn:Hk.
    + rewrite push_event_pass_Start by done. simpl.
      rewrite stack_at_set. split; [done|].
      exists []. by rewrite app_nil_r.
    + rewrite push_event_pass_End by done. simpl.
      destruct (stack_at (_pass_events t) _) as [|b s]; simpl;
        rewrite !stack_at_set; (split; [done|]); by eexists.
Qed.

(** The same record on the open begins. *)
Lemma observe_stream_step (r : AnyRecord) (open : list AnyRecord) :
  let own pre := filter (λ b, begin_of (stream_of r) pre b = true) open in
  (filter (λ b, begin_of (stream_of r) false b = true) (observe open r),
   filter (λ b, begin_of (stream_of r) true b = true) (observe open r))
  = stream_step (own false, own true) r
  ∧ begins [r] ++ open ≡ₚ closed_by (own false, own true) r ++ observe open r.
Proof.
  intros own. unfold observe, stream_step, closed_by, own.
  assert (∀ pre pre' b, begin_of (stream_of r) pre b = true →
            begin_of (stream_of r) pre' b = true → pre ≠ pre' → False)
    as Hother.
  { intros pre pre' b H1 H2 Hne.
    by destruct (begin_of_unique _ _ _ _ _ H1 H2). }
  pose proof (begin_of_own r) as Hown. rewrite begins_single.
  destruct (is_end r) eqn:He.
  - assert (is_begin r = false) as -> by (by destruct r as [r|r|r|r]; simpl in *;
      [destruct (unit_kind (event r))|destruct (include_kind (event r))
      |destruct (parse_kind (event r))|destruct (pass_kind (event r))]).
    rewrite existsb_filter. simpl.
    destruct (filter (λ b, begin_of (stream_of r) false b = true) open)
      as [|b s] eqn:Hs.
    + split.
      * rewrite filter_close_latest_same.
        rewrite filter_close_latest_other, Hs; [done|].
        intros b H1 H2. by eapply (Hother true false).
      * simpl. apply (symmetry (close_latest_closed _ _)).
    + split.
      * rewrite filter_close_latest_same, Hs.
        rewrite filter_close_latest_other; [done|].
        intros b' H1 H2. by eapply (Hother false true).
      * pose proof (close_latest_closed (begin_of (stream_of r) false) open)
          as Hc. rewrite Hs in Hc. simpl in *. by symmetry.
  - assert (is_begin r = true) as ->.
    { destruct (is_begin r) eqn:Hb; [done|].
      apply is_begin_or_end in Hb. congruence. }
    destruct (is_pre_genericize_record r) eqn:Hp.
    + split.
      * rewrite filter_cons_False
          by (intros H1; by eapply (Hother true false)).
        rewrite filter_close_latest_same.
        rewrite filter_cons_True by done.
        rewrite filter_close_latest_other; [done|].
        intros b' H1 H2. by eapply (Hother false true).
      * simpl.
        rewrite <-(close_latest_closed (begin_of (stream_of r) false) open)
          at 1.
        solve_Permutation.
    + split; [|done].
      rewrite filter_cons_True by done.
      rewrite filter_cons_False; [done|].
      intros H1. by eapply (Hother false true).
Qed.

Lemma observe_other_stream (r : AnyRecord) (open : list AnyRecord) σ pre :
  stream_of r ≠ σ →
  filter (λ b, begin_of σ pre b = true) (observe open r)
  = filter (λ b, begin_of σ pre b = true) open.
Proof.
  intros Hσ. unfold observe.
  assert (∀ pre' b, begin_of (stream_of r) pre' b = true →
            begin_of σ pre b = true → False) as Hother.
  { intros pre' b H1 H2. by destruct (begin_of_unique _ _ _ _ _ H1 H2). }
  assert (begin_of σ pre r ≠ true) as Hr.
  { intros H1. by eapply Hother; [apply begin_of_own|]. }
  repeat case_match;
    rewrite ?filter_cons_False by done;
    rewrite ?filter_close_latest_other by eauto; done.
Qed.

Lemma tracks_new_tracker (cb : Log) : tracks [] (new_tracker cb).
Proof. split; [by intros []|done]. Qed.

Lemma tracks_push_event (r : AnyRecord) (open : list AnyRecord)
    (t : EventTracker Log) :
  tracks open t → tracks (observe open r) (push_event r t).
Proof.
  intros [Hst Hperm].
  destruct (push_event_stream_step r t) as (Hstep & l & Hl & Hclosed).
  destruct (observe_stream_step r open) as [Hobs Hcons].
  rewrite Hst in Hstep, Hclosed. split.
  - intros σ. destruct (decide (stream_of r = σ)) as [<-|Hσ].
    + by rewrite Hstep, Hobs.
    + rewrite push_event_other_stacks by done.
      by rewrite Hst, !observe_other_stream.
  - pose proof (push_event_conserves r t) as Hc.
    rewrite Hl in Hc. unfold matched_starts in Hc.
    rewrite omap_app in Hc. fold (matched_starts (_cb t)) in Hc.
    fold (matched_starts l) in Hc. rewrite Hclosed in Hc.
    rewrite <-Hperm in Hc.
    apply (Permutation_app_inv_l
             (matched_starts (_cb t)
              ++ closed_by (filter (λ b, begin_of (stream_of r) false b = true)
                              open,
                            filter (λ b, begin_of (stream_of r) true b = true)
                              open) r)).
    rewrite <-Hc, <-app_assoc, <-Hcons. solve_Permutation.
Qed.

(** The stacks of the tracker hold the begins left open, and nothing
    else. *)
Lemma submit_tracks (w : list AnyRecord) :
  tracks (left_open w) (submit w (new_tracker ([] : Log))).
Proof.
  induction w as [|r w IH] using rev_ind; [apply tracks_new_tracker|].
  unfold left_open. rewrite foldl_snoc, submit_snoc.
  by apply tracks_push_event.
Qed.

(** C4: after any sequence of submitted records, [finish] appends to the
    calls made so far only on_mismatch calls, and the records it reports
    are, as a multiset, the begins left open: those that no end after
    them has closed by the matching rule of the specification, each one
    once, whatever the order in which the collections are visited.  None
    of them was reported matched: the begins submitted are those matched
    earlier together with those [finish] reports.  Afterwards every stack
    and every keyed collection is empty, and a second [finish] changes
    nothing: it makes no call. *)
Theorem finish_reports_dangling_begins `{!IterationOrder}
    (w : list AnyRecord) :
  let t := submit w (new_tracker ([] : Log)) in
  ∃ reported : list AnyCall,
    _cb (finish t) = _cb t ++ reported
    ∧ Forall is_mismatch reported
    ∧ mismatched reported ≡ₚ left_open w
    ∧ begins w ≡ₚ matched_starts (_cb t) ++ mismatched reported
    ∧ _unit_events (finish t) = []
    ∧ _include_events (finish t) = []
    ∧ _parse_events (finish t) = ∅
    ∧ _genericize_events (finish t) = ∅
    ∧ _pass_events (finish t) = ∅
    ∧ finish (finish t) = finish t.
Proof.
  intros t. exists (flush_calls t).
  split; [by rewrite finish_spec, calls_record|].
  split; [apply flush_calls_mismatches|].
  split.
  { rewrite mismatched_flush_calls. symmetry. apply submit_tracks. }
  split; [rewrite mismatched_flush_calls; apply submit_conserves|].
  do 5 (split; [by rewrite finish_spec|]). apply finish_idempotent.
Qed.

Lemma finish_reports_dangling_begins_witness :
  let a := pass_record PassEventKind.Start "ccp" 1 in
  let b := pass_record PassEventKind.Start "dce" 2 in
  let e := pass_record PassEventKind.End "dce" 3 in
  let p := parse_record ParseEventKind.PreGenericize demo_decl 4 in
  let w := [RPass a; RPass b; RPass e; RParse p] in
  let t := submit w (new_tracker ([] : Log)) in
  _cb t = [PassCall (on_match b e)]
  ∧ ∃ reported : list AnyCall,
      _cb (@finish _ _ key_order t) = _cb t ++ reported
      ∧ Forall is_mismatch reported
      ∧ mismatched reported ≡ₚ [RParse p; RPass a].
Proof.
  intros a b e p w t. split; [reflexivity|].
  destruct (@finish_reports_dangling_begins key_order w)
    as (reported & Hcb & Hmis & Hopen & _).
  exists reported. split; [exact Hcb|]. split; [exact Hmis|exact Hopen].
Defined.

(** * Further properties of the code *)

(** ** One record at a time *)

Section one_record.
Context {W : Type} `{!Callback W}.
Implicit Types (t : EventTracker W).

Lemma pending_for_stream (r : AnyRecord) t :
  pending_for r t = stream_pending (stream_of r) t.
Proof. by destruct r. Qed.

(** X1: an end closes the latest begin still pending in its stream: the
    callback object gets the one call that reports the two matched, and the
    begins that were pending before that one stay pending, in their order.
    For the [Finish] of a function the latest begin is a [Start] if one is
    pending, and a [PreGenericize] only if none is. *)
Theorem end_closes_latest_begin (e b : AnyRecord) (s : list AnyRecord) t :
  is_end e = true →
  stream_pending (stream_of e) t = b :: s →
  ∃ c, report_match b e = Some c
       ∧ _cb (push_event e t) = call c (_cb t)
       ∧ stream_pending (stream_of e) (push_event e t) = s.
Proof.
  intros He Hp. destruct e as [e|e|e|e]; simpl in *.
  - destruct (unit_kind (event e)) eqn:Hk; [done|].
    rewrite push_event_unit_End by done.
    destruct (_unit_events t) as [|b0 s0]; simplify_eq/=. by eexists.
  - destruct (include_kind (event e)) eqn:Hk; [done|].
    rewrite push_event_include_Leave by done.
    destruct (_include_events t) as [|b0 s0]; simplify_eq/=. by eexists.
  - destruct (parse_kind (event e)) eqn:Hk; try done.
    rewrite push_event_parse_Finish by done. simpl.
    destruct (stack_at (_parse_events t) _) as [|p ps] eqn:Hparse.
    + destruct (stack_at (_genericize_events t) _) as [|g gs] eqn:Hgen;
        simplify_eq/=.
      eexists. split; [done|]. split; [done|].
      by rewrite !stack_at_set.
    + simplify_eq/=. eexists. split; [done|]. split; [done|].
      by rewrite stack_at_set.
  - destruct (pass_kind (event e)) eqn:Hk; [done|].
    rewrite push_event_pass_End by done. simpl.
    destruct (stack_at (_pass_events t) _) as [|b0 s0] eqn:Hs; simplify_eq/=.
    eexists. split; [done|]. split; [done|]. by rewrite stack_at_set.
Qed.

End one_record.

Section frame.
Context {W : Type} `{!Callback W}.
Implicit Types (t : EventTracker W).

Lemma push_event_other_stream (r : AnyRecord) (σ : Stream) t :
  stream_of r ≠ σ →
  stream_pending σ (push_event r t) = stream_pending σ t.
Proof.
  intros Hσ. destruct r as [r|r|r|r]; simpl in Hσ; simpl push_event.
  - destruct (push_event_unit_frame r t) as (Hi & Hp & Hg & Hs).
    destruct σ; simpl; [done|by rewrite Hi|by rewrite Hp, Hg|by rewrite Hs].
  - destruct (push_event_include_frame r t) as (Hu & Hp & Hg & Hs).
    destruct σ; simpl; [by rewrite Hu|done|by rewrite Hp, Hg|by rewrite Hs].
  - destruct (push_event_parse_frame r t) as (Hu & Hi & Hs).
    destruct σ as [| |k|n]; simpl;
      [by rewrite Hu|by rewrite Hi| |by rewrite Hs].
    assert (parse_uid (event r) ≠ k) as Hk by congruence.
    destruct (parse_kind (event r)) eqn:Hkind.
    + rewrite push_event_parse_Start by done. simpl.
      by rewrite stack_at_set_other.
    + rewrite push_event_parse_PreGenericize by done. simpl.
      destruct (stack_at (_parse_events t) _); simpl;
        by rewrite !stack_at_set_other.
    + rewrite push_event_parse_Finish by done. simpl.
      destruct (stack_at (_parse_events t) _); simpl;
        [destruct (stack_at (_genericize_events t) _); simpl|];
        by rewrite ?stack_at_set_other.
  - destruct σ as [| |k|n]; simpl.
    1-3: destruct (pass_kind (event r)) eqn:Hkind;
      [rewrite push_event_pass_Start by done; done|];
      rewrite push_event_pass_End by done; simpl;
      by destruct (stack_at (_pass_events t) _).
    assert (name (event r) ≠ n) as Hk by congruence.
    destruct (pass_kind (event r)) eqn:Hkind.
    + rewrite push_event_pass_Start by done. simpl.
      by rewrite stack_at_set_other.
    + rewrite push_event_pass_End by done. simpl.
      destruct (stack_at (_pass_events t) _); simpl;
        by rewrite stack_at_set_other.
Qed.

End frame.

(** The calls one record makes: none, the report of the record as a
    mismatch, or the report of its match with the latest begin pending in
    its stream. *)
Lemma push_event_call_shape (r : AnyRecord) (t : EventTracker Log) :
  ∃ l, _cb (push_event r t) = _cb t ++ l
       ∧ (l = [] ∨ l = [report_mismatch r]
          ∨ ∃ b c, head (stream_pending (stream_of r) t) = Some b
                   ∧ report_match b r = Some c ∧ l = [c]).
Proof.
  destruct r as [r|r|r|r]; simpl push_event; simpl stream_pending.
  - destruct (unit_kind (event r)) eqn:Hk.
    + rewrite push_event_unit_Start by done. exists []. simpl.
      rewrite app_nil_r. auto.
    + rewrite push_event_unit_End by done.
      destruct (_unit_events t); eexists; (split; [done|]); eauto 10.
  - destruct (include_kind (event r)) eqn:Hk.
    + rewrite push_event_include_Enter by done. exists []. simpl.
      rewrite app_nil_r. auto.
    + rewrite push_event_include_Leave by done.
      destruct (_include_events t); eexists; (split; [done|]); eauto 10.
  - destruct (parse_kind (event r)) eqn:Hk.
    + rewrite push_event_parse_Start by done. exists []. simpl.
      rewrite app_nil_r. auto.
    + rewrite push_event_parse_PreGenericize by done. simpl.
      destruct (stack_at (_parse_events t) _) as [|b s]; simpl.
      * exists []. rewrite app_nil_r. auto.
      * eexists. split; [done|]. eauto 10.
    + rewrite push_event_parse_Finish by done. simpl.
      destruct (stack_at (_parse_events t) _) as [|b s]; simpl.
      * destruct (stack_at (_genericize_events t) _) as [|g gs]; simpl;
          eexists; (split; [done|]); eauto 10.
      * eexists. split; [done|]. eauto 10.
  - destruct (pass_kind (event r)) eqn:Hk.
    + rewrite push_event_pass_Start by done. exists []. simpl.
      rewrite app_nil_r. auto.
    + rewrite push_event_pass_End by done. simpl.
      destruct (stack_at (_pass_events t) _) as [|b s]; simpl;
        eexists; (split; [done|]); eauto 10.
Qed.

Lemma elem_of_stack_at_pending {K E} `{Countable K} (m : gmap K (Stack E))
    k b :
  b ∈ stack_at m k → b ∈ map_pending m.
Proof.
  intros Hb. rewrite (map_pending_delete m k). apply elem_of_app. by left.
Qed.

(** A begin pending in a stream is on a stack of the tracker. *)
Lemma stream_pending_pending {W} (σ : Stream) (t : EventTracker W) b :
  b ∈ stream_pending σ t → b ∈ pending t.
Proof.
  unfold pending. destruct σ; simpl; intros Hb; rewrite !elem_of_app.
  - auto.
  - auto.
  - apply list_elem_of_fmap in Hb as (x & -> & Hx).
    apply elem_of_app in Hx as [Hx|Hx].
    + right; right; left. apply list_elem_of_fmap_2.
      by eapply elem_of_stack_at_pending.
    + right; right; right; left. apply list_elem_of_fmap_2.
      by eapply elem_of_stack_at_pending.
  - apply list_elem_of_fmap in Hb as (x & -> & Hx).
    do 4 right. apply list_elem_of_fmap_2.
    by eapply elem_of_stack_at_pending.
Qed.

(** On a tracker as the code keeps it, a begin pending in a stream is a
    record of that stream. *)
Lemma stream_pending_stream {W} (σ : Stream) (t : EventTracker W) b :
  tracker_wf t → b ∈ stream_pending σ t → stream_of b = σ.
Proof.
  intros [Hu Hi Hp Hg Hs]. destruct σ as [| |k|n]; simpl.
  - by intros (x & -> & _)%list_elem_of_fmap.
  - by intros (x & -> & _)%list_elem_of_fmap.
  - intros (x & -> & Hx)%list_elem_of_fmap. simpl.
    apply elem_of_app in Hx as [Hx|Hx].
    + pose proof (stacks_hold_stack_at _ _ k Hp) as Hk.
      rewrite Forall_forall in Hk. by destruct (Hk x Hx) as [_ ->].
    + pose proof (stacks_hold_stack_at _ _ k Hg) as Hk.
      rewrite Forall_forall in Hk. by destruct (Hk x Hx) as [_ ->].
  - intros (x & -> & Hx)%list_elem_of_fmap. simpl.
    pose proof (stacks_hold_stack_at _ _ n Hs) as Hk.
    rewrite Forall_forall in Hk. by destruct (Hk x Hx) as [_ ->].
Qed.

Lemma report_match_facts b r c :
  report_match b r = Some c →
  call_subject c = b
  ∧ call_records c = [b; r]
  ∧ call_interval c = Some (record_time b, record_time r)
  ∧ same_category b r = true.
Proof.
  destruct b, r; simpl; intros Hc; inversion Hc; done.
Qed.

(** X2: a record works on its own stream alone: the begins pending in every
    other stream, of another category or of another key, are left as they
    are; it makes at most one call, and the call is about a record of its
    stream. *)
Theorem record_touches_only_its_stream (w : list AnyRecord) (r : AnyRecord) :
  let t := submit w (new_tracker ([] : Log)) in
  (∀ σ, stream_of r ≠ σ →
        stream_pending σ (push_event r t) = stream_pending σ t)
  ∧ ∃ l, _cb (push_event r t) = _cb t ++ l
         ∧ (length l ≤ 1)%nat
         ∧ Forall (λ c, stream_of (call_subject c) = stream_of r) l.
Proof.
  intros t. split.
  - intros σ Hσ. by apply push_event_other_stream.
  - destruct (push_event_call_shape r t) as (l & Hl & Hshape).
    exists l. split; [done|].
    destruct Hshape as [->|[->|(b & c & Hb & Hc & ->)]].
    + split; [simpl; lia|constructor].
    + split; [simpl; lia|]. repeat constructor. by destruct r.
    + split; [simpl; lia|]. repeat constructor.
      apply report_match_facts in Hc as (-> & _).
      apply (stream_pending_stream _ t); [apply reachable_wf|].
      by apply head_Some_elem_of.
Qed.

(** ** Every record is reported *)

Lemma reported_call c (log : Log) :
  reported (call c log) = reported log ++ call_records c.
Proof.
  unfold reported, call, record_calls. rewrite bind_app. simpl.
  by rewrite app_nil_r.
Qed.

Lemma closing_call c (log : Log) :
  closing (call c log) = closing log ++ closing [c].
Proof. apply omap_app. Qed.

Ltac account_step :=
  unfold pending; simpl;
  rewrite ?reported_call, ?closing_call; simpl;
  rewrite ?map_pending_push, ?map_pending_clear by done;
  rewrite ?fmap_cons.

Lemma push_event_accounts r (t : EventTracker Log) :
  r :: closing (_cb (push_event r t)) ++ reported (_cb t) ++ pending t
  ≡ₚ closing (_cb t) ++ reported (_cb (push_event r t))
     ++ pending (push_event r t).
Proof.
  destruct r as [r|r|r|r]; simpl.
  - destruct (unit_kind (event r)) eqn:Hk.
    + rewrite push_event_unit_Start by done. account_step. conserve_done.
    + rewrite push_event_unit_End by done.
      destruct (_unit_events t) as [|b s] eqn:Hst; account_step.
      * unfold pending. rewrite Hst. conserve_done.
      * unfold pending. rewrite Hst. simpl. conserve_done.
  - destruct (include_kind (event r)) eqn:Hk.
    + rewrite push_event_include_Enter by done. account_step.
      conserve_done.
    + rewrite push_event_include_Leave by done.
      destruct (_include_events t) as [|b s] eqn:Hst; account_step.
      * unfold pending. rewrite Hst. conserve_done.
      * unfold pending. rewrite Hst. simpl. conserve_done.
  - destruct (parse_kind (event r)) eqn:Hk.
    + rewrite push_event_parse_Start by done. account_step.
      conserve_done.
    + rewrite push_event_parse_PreGenericize by done.
      destruct (stack_at (_parse_events t) _) as [|b s] eqn:Hst; account_step.
      * unfold pending. conserve_done.
      * unfold pending. rewrite Hk.
        rewrite <-(map_pending_pop (_parse_events t) _ b s Hst), fmap_cons.
        conserve_done.
    + rewrite push_event_parse_Finish by done.
      destruct (stack_at (_parse_events t) _) as [|b s] eqn:Hst; simpl.
      * destruct (stack_at (_genericize_events t) _) as [|g s] eqn:Hgt;
          account_step; unfold pending; rewrite ?Hk.
        -- conserve_done.
        -- rewrite <-(map_pending_pop (_genericize_events t) _ g s Hgt),
             fmap_cons.
           conserve_done.
      * account_step. unfold pending. rewrite Hk.
        rewrite <-(map_pending_pop (_parse_events t) _ b s Hst), fmap_cons.
        conserve_done.
  - destruct (pass_kind (event r)) eqn:Hk.
    + rewrite push_event_pass_Start by done. account_step.
      conserve_done.
    + rewrite push_event_pass_End by done.
      destruct (stack_at (_pass_events t) _) as [|b s] eqn:Hst;
        account_step; unfold pending.
      * conserve_done.
      * rewrite <-(map_pending_pop (_pass_events t) _ b s Hst), fmap_cons.
        conserve_done.
Qed.

Lemma submit_accounts w :
  w ++ closing (_cb (submit w (new_tracker ([] : Log))))
  ≡ₚ reported (_cb (submit w (new_tracker ([] : Log))))
     ++ pending (submit w (new_tracker ([] : Log))).
Proof.
  induction w as [|r w IH] using rev_ind; [done|].
  rewrite submit_snoc.
  pose proof (push_event_accounts r (submit w (new_tracker ([] : Log))))
    as Hstep.
  rewrite <-IH in Hstep.
  apply (Permutation_app_inv_l (closing (_cb (submit w (new_tracker []))))).
  rewrite <-Hstep. solve_Permutation.
Qed.

Lemma pending_submitted w r :
  r ∈ pending (submit w (new_tracker ([] : Log))) → r ∈ w.
Proof.
  intros Hr. apply begins_submitted. rewrite (submit_conserves w).
  apply elem_of_app. by right.
Qed.

Lemma reported_mismatches (l : list AnyCall) :
  Forall is_mismatch l → reported l = mismatched l ∧ closing l = [].
Proof.
  induction 1 as [|c l [r Hc] _ [IH1 IH2]]; [done|].
  unfold reported, mismatched, closing in *.
  rewrite bind_cons, IH1.
  destruct c as [[s e|e]|[s e|e]|[s e|e]|[s e|e]]; simpl in Hc;
    simplify_eq/=; by rewrite IH2.
Qed.

(** The tracker hands the callback object only records it was given. *)
Lemma submit_reports_submitted w c r :
  c ∈ _cb (submit w (new_tracker ([] : Log))) →
  r ∈ call_records c → r ∈ w.
Proof.
  revert c r. induction w as [|x w IH] using rev_ind; intros c r.
  { simpl. by intros ?%elem_of_nil. }
  rewrite submit_snoc.
  destruct (push_event_call_shape x (submit w (new_tracker ([] : Log))))
    as (l & -> & Hshape).
  rewrite !elem_of_app. intros [Hc|Hc] Hr; [left; by eapply IH|].
  destruct Hshape as [->|[->|(b & c' & Hb & Hc' & ->)]].
  - by apply elem_of_nil in Hc.
  - apply list_elem_of_singleton in Hc as ->. right.
    destruct x; exact Hr.
  - apply list_elem_of_singleton in Hc as ->.
    apply report_match_facts in Hc' as (_ & Hrec & _). rewrite Hrec in Hr.
    apply elem_of_cons in Hr as [->|Hr].
    + left. apply pending_submitted.
      eapply stream_pending_pending, head_Some_elem_of, Hb.
    + right. exact Hr.
Qed.

(** X3: by the time [finish] returns, the callback object has been handed
    every record submitted, once: as the begin or the end of one match, or
    as one mismatch.  The one exception is a [PreGenericize] that closed a
    [Start]: it is handed over as the end of that match and, kept on the
    genericize stack, once more, as the begin of a later match or as a
    mismatch.  No record is handed over that was not submitted. *)
Theorem every_record_reported_once `{!IterationOrder} (w : list AnyRecord) :
  let log := _cb (finish (submit w (new_tracker ([] : Log)))) in
  reported log ≡ₚ w ++ closing log
  ∧ (∀ c r, c ∈ log → r ∈ call_records c → r ∈ w)
  ∧ (Forall
       (λ r, ∀ p, r = RParse p →
                  parse_kind (event p) ≠ ParseEventKind.PreGenericize) w →
     reported log ≡ₚ w).
Proof.
  intros log.
  assert (log = _cb (submit w (new_tracker ([] : Log)))
                ++ flush_calls (submit w (new_tracker ([] : Log)))) as Hlog.
  { unfold log. by rewrite finish_spec, calls_record. }
  pose proof (flush_calls_mismatches (submit w (new_tracker ([] : Log))))
    as Hmis.
  destruct (reported_mismatches _ Hmis) as [Hrep0 Hclo].
  assert (reported (flush_calls (submit w (new_tracker ([] : Log))))
          ≡ₚ pending (submit w (new_tracker ([] : Log)))) as Hrep.
  { rewrite Hrep0. apply mismatched_flush_calls. }
  assert (reported log ≡ₚ w ++ closing log) as Hperm.
  { rewrite Hlog. unfold reported, closing.
    rewrite bind_app, omap_app. fold (reported (flush_calls
      (submit w (new_tracker ([] : Log))))).
    fold (closing (flush_calls (submit w (new_tracker ([] : Log))))).
    rewrite Hrep, Hclo, app_nil_r. symmetry. apply submit_accounts. }
  assert (∀ c r, c ∈ log → r ∈ call_records c → r ∈ w) as Hsub.
  { intros c r Hc Hr. rewrite Hlog in Hc.
    apply elem_of_app in Hc as [Hc|Hc]; [by eapply submit_reports_submitted|].
    apply pending_submitted. rewrite <-Hrep. unfold reported.
    apply list_elem_of_bind. eauto. }
  split; [done|]. split; [done|].
  intros Hno. rewrite Hperm.
  assert (closing log = []) as ->; [|by rewrite app_nil_r].
  apply elem_of_nil_inv. intros r Hr.
  apply list_elem_of_omap in Hr as (c & Hc & Hr).
  destruct c as [?|?|[s e|e]|?]; simpl in Hr; try done.
  destruct (parse_kind (event e)) eqn:Hk; simplify_eq/=.
  rewrite Forall_forall in Hno.
  refine (Hno (RParse e) _ e eq_refl Hk).
  apply (Hsub (ParseCall (on_match s e))); [done|]. simpl.
  apply elem_of_cons. right. apply list_elem_of_here.
Qed.

(** ** Intervals *)

Lemma submit_intervals_ordered w c b e :
  category_ordered w →
  c ∈ _cb (submit w (new_tracker ([] : Log))) →
  call_interval c = Some (b, e) → b ≤ e.
Proof.
  revert c b e. induction w as [|x w IH] using rev_ind; intros c b e Hw.
  { simpl. by intros ?%elem_of_nil. }
  rewrite submit_snoc.
  destruct (push_event_call_shape x (submit w (new_tracker ([] : Log))))
    as (l & -> & Hshape).
  rewrite elem_of_app. intros [Hc|Hc] Hi.
  { eapply IH; [|done..]. by eapply StronglySorted_app_1_l. }
  destruct Hshape as [->|[->|(b0 & c' & Hb & Hc' & ->)]].
  - by apply elem_of_nil in Hc.
  - apply list_elem_of_singleton in Hc as ->. by destruct x.
  - apply list_elem_of_singleton in Hc as ->.
    apply report_match_facts in Hc' as (_ & _ & Hint & Hcat).
    rewrite Hint in Hi. simplify_eq/=.
    refine (StronglySorted_app_1_elem_of _ _ _ b0 x Hw _ _ Hcat).
    + apply pending_submitted.
      eapply stream_pending_pending, head_Some_elem_of, Hb.
    + apply list_elem_of_here.
Qed.

(** X4: whatever the records are and however begins and ends are mixed: when
    the records of each category come in the order the clock stamped them,
    no match is reported whose end is stamped before its begin. *)
Theorem matched_begin_not_after_end `{!IterationOrder} (w : list AnyRecord) (c : AnyCall)
    (b e : EventTimePoint) :
  category_ordered w →
  c ∈ _cb (finish (submit w (new_tracker ([] : Log)))) →
  call_interval c = Some (b, e) →
  b ≤ e.
Proof.
  intros Hw Hc Hi. rewrite finish_spec, calls_record in Hc. simpl in Hc.
  apply elem_of_app in Hc as [Hc|Hc]; [by eapply submit_intervals_ordered|].
  pose proof (flush_calls_mismatches (submit w (new_tracker ([] : Log))))
    as Hmis.
  rewrite Forall_forall in Hmis. destruct (Hmis c Hc) as [r Hr].
  destruct c as [[]|[]|[]|[]]; simpl in *; simplify_eq/=.
Qed.

(** ** The names of declarations *)

Section decl_names.
Context `{!LangHooks}.

Lemma get_decl_name_cached decl w :
  _decl_name_cache (get_decl_name decl w).2 !! DECL_PT_UID decl
  = Some (get_decl_name decl w).1.
Proof.
  unfold get_decl_name.
  destruct (_decl_name_cache w !! DECL_PT_UID decl) eqn:Hc; simpl; [done|].
  apply lookup_insert_eq.
Qed.

Lemma get_decl_name_keeps decl w uid text :
  _decl_name_cache w !! uid = Some text →
  _decl_name_cache (get_decl_name decl w).2 !! uid = Some text.
Proof.
  intros Hu. unfold get_decl_name.
  destruct (_decl_name_cache w !! DECL_PT_UID decl) eqn:Hc; simpl; [done|].
  rewrite lookup_insert_ne; [done|]. intros Heq. congruence.
Qed.

Lemma write_function_arg_keeps decl w uid text :
  _decl_name_cache w !! uid = Some text →
  _decl_name_cache (write_function_arg decl w) !! uid = Some text.
Proof.
  intros Hu. unfold write_function_arg.
  pose proof (get_decl_name_keeps decl (ArgWriter_open w) uid text Hu) as Hk.
  by destruct (get_decl_name decl (ArgWriter_open w)).
Qed.

Lemma SliceWriter_open_cache name start end_ w :
  _decl_name_cache (SliceWriter_open name start end_ w) = _decl_name_cache w.
Proof. by rewrite SliceWriter_open_spec. Qed.

Lemma SliceWriter_close_cache w :
  _decl_name_cache (SliceWriter_close w) = _decl_name_cache w.
Proof. done. Qed.

Lemma write_file_arg_cache file w :
  _decl_name_cache (write_file_arg file w) = _decl_name_cache w.
Proof. done. Qed.

Lemma call_keeps (c : AnyCall) w uid text :
  _decl_name_cache w !! uid = Some text →
  _decl_name_cache (call c w) !! uid = Some text.
Proof.
  intros Hu.
  destruct c as [[s e|e]|[s e|e]|[s e|e]|[s e|e]]; unfold call, WriteCallback.
  - unfold write_slice_unit2.
    by rewrite SliceWriter_close_cache, SliceWriter_open_cache.
  - unfold write_slice_unit1.
    by rewrite SliceWriter_close_cache, SliceWriter_open_cache.
  - unfold write_slice_include2.
    by rewrite SliceWriter_close_cache, write_file_arg_cache,
      SliceWriter_open_cache.
  - unfold write_slice_include1.
    destruct (include_kind (event e));
      by rewrite SliceWriter_close_cache, ?write_file_arg_cache,
        SliceWriter_open_cache.
  - unfold write_slice_parse2. rewrite SliceWriter_close_cache.
    apply write_function_arg_keeps. by rewrite SliceWriter_open_cache.
  - unfold write_slice_parse1.
    destruct (parse_kind (event e)); [done|..];
      rewrite SliceWriter_close_cache; apply write_function_arg_keeps;
      by rewrite SliceWriter_open_cache.
  - unfold write_slice_pass2.
    destruct (pass_decl (event s)); rewrite SliceWriter_close_cache.
    + apply write_function_arg_keeps. by rewrite SliceWriter_open_cache.
    + by rewrite SliceWriter_open_cache.
  - unfold write_slice_pass1.
    destruct (pass_decl (event e)); rewrite SliceWriter_close_cache.
    + apply write_function_arg_keeps. by rewrite SliceWriter_open_cache.
    + by rewrite SliceWriter_open_cache.
Qed.

Lemma calls_keep (log : list AnyCall) w uid text :
  _decl_name_cache w !! uid = Some text →
  _decl_name_cache (calls log w) !! uid = Some text.
Proof.
  revert w. induction log as [|c log IH]; intros w Hu; [done|].
  simpl. apply IH. by apply call_keeps.
Qed.

(** X5: once the writer has looked up the name of a declaration, it gives
    the same text for every declaration with the same [DECL_PT_UID],
    whatever it writes in between and whatever the host would print for that
    declaration; the look-up then leaves the writer as it is. *)
Theorem decl_name_fixed_once_written (decl decl' : tree_decl)
    (log : list AnyCall) (w : TraceWriter) :
  DECL_PT_UID decl' = DECL_PT_UID decl →
  let text := (get_decl_name decl w).1 in
  let w' := calls log (get_decl_name decl w).2 in
  get_decl_name decl' w' = (text, w').
Proof.
  intros Huid text w'.
  assert (_decl_name_cache w' !! DECL_PT_UID decl' = Some text) as Hc.
  { rewrite Huid. apply calls_keep, get_decl_name_cached. }
  unfold get_decl_name. by rewrite Hc.
Qed.

Lemma escape_quotes_escaped (name : string) (i : nat) :
  String.get i (escape_quotes name) = Some dquote →
  ∃ j, i = S j ∧ String.get j (escape_quotes name) = Some backslash.
Proof.
  revert i. induction name as [|c name IH]; intros i; [done|].
  simpl. destruct (Ascii.eqb c dquote) eqn:Hc.
  - destruct i as [|[|i]]; simpl; [done|by exists 0%nat|].
    intros (j & -> & Hj)%IH. by exists (S (S j)).
  - destruct i as [|i]; simpl.
    + intros [= ->]. by rewrite Ascii.eqb_refl in Hc.
    + intros (j & -> & Hj)%IH. by exists (S j).
Qed.

Lemma escape_quotes_no_quote (name : string) :
  (∀ i, String.get i name ≠ Some dquote) → escape_quotes name = name.
Proof.
  induction name as [|c name IH]; intros Hno; [done|]. simpl.
  destruct (Ascii.eqb c dquote) eqn:Hc.
  - apply Ascii.eqb_eq in Hc as ->. by destruct (Hno 0%nat).
  - f_equal. apply IH. intros i. apply (Hno (S i)).
Qed.

(** X6: the name of a declaration that is not yet in the cache, as the
    writer puts it between the quotes of the [function] argument: every
    quote in it comes after a backslash; a name without a quote is written
    as it is; and when the name holds, besides quotes, only characters a
    JSON string can hold as they are, a JSON parser reads the literal back
    as the name, whatever follows it. *)
Theorem function_name_reads_back (decl : tree_decl) (w : TraceWriter) :
  _decl_name_cache w !! DECL_PT_UID decl = None →
  let name := decl_printable_name decl (_decl_verbosity w) in
  let text := (get_decl_name decl w).1 in
  _file (write_function_arg decl w)
  = _file w +:+ lit ",'args':{'function':'" +:+ text +:+ lit "'}"
  ∧ (∀ i, String.get i text = Some dquote →
          ∃ j, i = S j ∧ String.get j text = Some backslash)
  ∧ ((∀ i, String.get i name ≠ Some dquote) → text = name)
  ∧ (quotes_and_plain name = true →
     ∀ rest,
       json_string_value (String dquote text +:+ String dquote rest)
       = Some name).
Proof.
  intros Hc name text.
  assert (text = escape_quotes name) as Htext.
  { unfold text, get_decl_name. rewrite Hc. simpl.
    by rewrite escape_loop_spec. }
  split; [|split; [|split]].
  - unfold write_function_arg. fold text.
    assert (_file (get_decl_name decl (ArgWriter_open w)).2
            = _file (ArgWriter_open w)) as Hfile
      by apply get_decl_name_fields.
    assert ((get_decl_name decl (ArgWriter_open w)).1 = text) as Hname.
    { unfold text, get_decl_name. simpl. by rewrite Hc. }
    destruct (get_decl_name decl (ArgWriter_open w)) as [decl_name w2].
    simpl in *. rewrite Hfile, Hname.
    repeat (rewrite string_app_assoc || rewrite string_app_cons). done.
  - rewrite Htext. apply escape_quotes_escaped.
  - rewrite Htext. apply escape_quotes_no_quote.
  - intros Hok rest. rewrite Htext, string_app_cons. simpl.
    by apply escape_quotes_round_trip.
Qed.

(** X7: when no record was made at all, the trace file holds the entry of
    the dump alone, and its timestamp is counted from the greatest time
    point there is: for a reading of the clock a microsecond or more below
    that point the number printed begins with a minus sign. *)
Theorem event_free_run_document `{!IterationOrder} (decl_verbosity : Z)
    (dump_start dump_end : EventTimePoint) :
  finish_callback [] [] [] [] decl_verbosity dump_start dump_end
  = "[" +:+ slice_text EventTimePoint_max "plugin_dump" dump_start dump_end
    +:+ "}]"
  ∧ (dump_start ≤ EventTimePoint_max - 1000 →
     String.get 0 (us_text (dump_start - EventTimePoint_max)) = Some "-"%char).
Proof.
  split.
  - transitivity
      (_file (TraceWriter_close
                (write_slice_custom "plugin_dump" dump_start dump_end
                   (TraceWriter_open EventTimePoint_max decl_verbosity))));
      [rewrite finish_callback_spec;
       by rewrite (f_equal _cb (finish_new_tracker ([] : Log))
                   : _cb (finish (submit (all_events (reverse [])
                                            (reverse []) (reverse [])
                                            (reverse []))
                                    (new_tracker ([] : Log)))) = [])|].
    unfold write_slice_custom. rewrite SliceWriter_open_spec.
    unfold TraceWriter_close, SliceWriter_close, TraceWriter_open, fprintf,
      separator.
    cbn [_file _epoch _slice_count]. rewrite bool_decide_false by lia.
    by rewrite !string_app_assoc.
  - intros Hd. unfold us_text, fmt_ld.
    assert ((dump_start - EventTimePoint_max) `quot` 1000 < 0) as Hq.
    { pose proof (Z.quot_rem' (dump_start - EventTimePoint_max) 1000).
      pose proof (Z.rem_bound_pos_neg (dump_start - EventTimePoint_max) 1000).
      lia. }
    destruct ((dump_start - EventTimePoint_max) `quot` 1000); try lia.
    reflexivity.
Qed.

End decl_names.

(** ** Options *)

Lemma set_decl_verbosity_twice v v' g :
  set_decl_verbosity v (set_decl_verbosity v' g) = set_decl_verbosity v g.
Proof. done. Qed.

Lemma set_version_check_twice b b' g :
  set_version_check b (set_version_check b' g) = set_version_check b g.
Proof. done. Qed.

Lemma set_version_check_verbosity b v g :
  set_version_check b (set_decl_verbosity v g)
  = set_decl_verbosity v (set_version_check b g).
Proof. done. Qed.

Lemma setup_option_from_valid base argv g :
  Forall (λ arg, valid_argument arg = true) argv →
  setup_option_from base argv g
  = (true,
     set_version_check
       (version_check g && negb (existsb disables_version_check argv))
       (set_decl_verbosity
          (default (decl_verbosity g) (last (omap verbosity_value argv))) g)).
Proof.
  intros Hv. revert g. induction Hv as [|arg argv Harg _ IH]; intros g.
  { simpl. rewrite andb_true_r. by destruct g. }
  cbn [setup_option_from]. unfold valid_argument in Harg.
  unfold verbosity_value, disables_version_check in *.
  cbn [omap list_omap existsb].
  unfold verbosity_value, disables_version_check.
  destruct (bool_decide (key arg = "verbose-decl")) eqn:Hkey.
  - apply bool_decide_eq_true in Hkey.
    rewrite (bool_decide_eq_false_2 (key arg = "disable-version-check"))
      by (rewrite Hkey; discriminate).
    rewrite (bool_decide_eq_false_2 (key arg = "disable-version-check"))
      in Harg by (rewrite Hkey; discriminate).
    simpl in Harg. rewrite orb_false_r in Harg.
    apply bool_decide_eq_true in Harg as [v Hval].
    destruct (value arg) as [val|]; [|done].
    destruct (bool_decide (val = "0")); [|destruct (bool_decide (val = "1"));
      [|destruct (bool_decide (val = "2")); [|done]]];
      simplify_eq/=; rewrite IH; simpl;
      rewrite last_cons; by destruct (last (omap _ argv)).
  - rewrite (bool_decide_eq_false_2 (is_Some None)) in Harg
      by (by intros [? ?]).
    simpl in Harg. apply andb_true_iff in Harg as [Hdis Hnone].
    rewrite Hdis. apply bool_decide_eq_true in Hnone. rewrite Hnone.
    simpl. rewrite IH. simpl. by rewrite andb_false_r.
Qed.

Lemma setup_option_from_step base arg g :
  valid_argument arg = true →
  ∃ g1, ∀ argv,
    setup_option_from base (arg :: argv) g = setup_option_from base argv g1.
Proof.
  intros Harg. unfold valid_argument, verbosity_value,
    disables_version_check in Harg.
  cbn [setup_option_from].
  destruct (bool_decide (key arg = "verbose-decl")) eqn:Hkey.
  - apply bool_decide_eq_true in Hkey.
    rewrite (bool_decide_eq_false_2 (key arg = "disable-version-check"))
      in Harg by (rewrite Hkey; discriminate).
    simpl in Harg. rewrite orb_false_r in Harg.
    apply bool_decide_eq_true in Harg as [v Hval].
    destruct (value arg) as [val|]; [|done].
    destruct (bool_decide (val = "0")); [by eexists|].
    destruct (bool_decide (val = "1")); [by eexists|].
    destruct (bool_decide (val = "2")); [by eexists|done].
  - rewrite (bool_decide_eq_false_2 (is_Some None)) in Harg
      by (by intros [? ?]).
    simpl in Harg. apply andb_true_iff in Harg as [Hdis Hnone].
    rewrite Hdis. apply bool_decide_eq_true in Hnone. rewrite Hnone.
    by eexists.
Qed.

Lemma setup_option_from_first_invalid base bad rest g :
  valid_argument bad = false →
  setup_option_from base (bad :: rest) g
  = (false, error (complaint bad) [base; key bad] g).
Proof.
  intros Hbad. unfold valid_argument, verbosity_value,
    disables_version_check in Hbad.
  cbn [setup_option_from]. unfold complaint.
  destruct (bool_decide (key bad = "verbose-decl")) eqn:Hkey.
  - destruct (value bad) as [val|]; [|done].
    destruct (bool_decide (val = "0")); [done|].
    destruct (bool_decide (val = "1")); [done|].
    destruct (bool_decide (val = "2")); [done|]. done.
  - rewrite (bool_decide_eq_false_2 (is_Some None)) in Hbad
      by (by intros [? ?]).
    simpl in Hbad.
    destruct (bool_decide (key bad = "disable-version-check")); [|done].
    simpl in Hbad. apply bool_decide_eq_false in Hbad.
    by destruct (value bad).
Qed.

Lemma setup_option_from_invalid base ok bad rest g :
  Forall (λ arg, valid_argument arg = true) ok →
  valid_argument bad = false →
  setup_option_from base (ok ++ bad :: rest) g
  = (false,
     error (complaint bad) [base; key bad] (setup_option_from base ok g).2).
Proof.
  intros Hok Hbad. revert g. induction Hok as [|arg ok Harg _ IH]; intros g.
  { by apply setup_option_from_first_invalid. }
  destruct (setup_option_from_step base arg g Harg) as [g1 Hstep].
  rewrite <-app_comm_cons, !Hstep. apply IH.
Qed.

Lemma first_invalid (argv : list plugin_argument) :
  Forall (λ arg, valid_argument arg = true) argv
  ∨ ∃ ok bad rest,
      argv = ok ++ bad :: rest
      ∧ Forall (λ arg, valid_argument arg = true) ok
      ∧ valid_argument bad = false.
Proof.
  induction argv as [|arg argv IH]; [by left|].
  destruct (valid_argument arg) eqn:Harg.
  - destruct IH as [IH|(ok & bad & rest & -> & Hok & Hbad)].
    + left. by constructor.
    + right. exists (arg :: ok), bad, rest. repeat split; [|done].
      by constructor.
  - right. by exists [], arg, argv.
Qed.

Lemma settings_verbosity argv g :
  decl_verbosity (settings argv g) ∈ [0; 1; 2].
Proof.
  unfold settings. simpl.
  destruct (last (omap verbosity_value argv)) as [v|] eqn:Hl; simpl;
    [|set_solver].
  apply last_Some_elem_of, list_elem_of_omap in Hl as (arg & _ & Hv).
  unfold verbosity_value in Hv.
  destruct (bool_decide (key arg = "verbose-decl")); [|done].
  destruct (value arg) as [val|]; [|done].
  destruct (bool_decide (val = "0")); [simplify_eq/=; set_solver|].
  destruct (bool_decide (val = "1")); [simplify_eq/=; set_solver|].
  destruct (bool_decide (val = "2")); [simplify_eq/=; set_solver|done].
Qed.

Lemma setup_option_valid args g :
  Forall (λ arg, valid_argument arg = true) (argv args) →
  setup_option args g = (true, settings (argv args) g).
Proof.
  intros Hv. unfold setup_option. by rewrite setup_option_from_valid.
Qed.

(** X8: [setup_option] succeeds exactly when every argument is accepted: a
    [verbose-decl] with the value 0, 1 or 2, or a [disable-version-check]
    without a value.  It then gives no diagnostic and changes the two
    settings alone: the verbosity is that of the last [verbose-decl], 1 when
    there is none, and the version is checked unless a
    [disable-version-check] was given. *)
Theorem setup_option_accepts (args : plugin_name_args) (g : State) :
  ((setup_option args g).1 = true
   ↔ Forall (λ arg, valid_argument arg = true) (argv args))
  ∧ (Forall (λ arg, valid_argument arg = true) (argv args) →
     (setup_option args g).2 = settings (argv args) g
     ∧ diagnostics (setup_option args g).2 = diagnostics g
     ∧ decl_verbosity (setup_option args g).2 ∈ [0; 1; 2]).
Proof.
  split; [split|].
  - intros Htrue.
    destruct (first_invalid (argv args))
      as [?|(ok & bad & rest & Hargv & Hok & Hbad)]; [done|].
    unfold setup_option in Htrue.
    by rewrite Hargv, setup_option_from_invalid in Htrue.
  - intros Hv. by rewrite setup_option_valid.
  - intros Hv. rewrite setup_option_valid by done. simpl.
    split; [done|]. split; [done|]. apply (settings_verbosity _ g).
Qed.

(** X9: [setup_option] stops at the first argument that is not accepted: it
    fails with one diagnostic, which names the plugin and the key of that
    argument and whose text tells the four ways an argument can be wrong
    apart, and does not read the arguments after it.  The settings are then
    those of the accepted arguments before it. *)
Theorem setup_option_rejects (base : string)
    (ok rest : list plugin_argument) (bad : plugin_argument) (g : State) :
  Forall (λ arg, valid_argument arg = true) ok →
  valid_argument bad = false →
  setup_option {| base_name := base; argv := ok ++ bad :: rest |} g
  = (false, error (complaint bad) [base; key bad] (settings ok g))
  ∧ diagnostics
      (setup_option {| base_name := base; argv := ok ++ bad :: rest |} g).2
    = diagnostics g
      ++ [{| format := complaint bad; arguments := [base; key bad] |}]
  ∧ decl_verbosity
      (setup_option {| base_name := base; argv := ok ++ bad :: rest |} g).2
    ∈ [0; 1; 2].
Proof.
  intros Hok Hbad.
  assert (setup_option {| base_name := base; argv := ok ++ bad :: rest |} g
          = (false, error (complaint bad) [base; key bad] (settings ok g)))
    as ->.
  { unfold setup_option. simpl.
    rewrite setup_option_from_invalid, setup_option_from_valid by done.
    done. }
  split; [done|]. split; [done|]. apply (settings_verbosity ok g).
Qed.

(** ** The passes of the host *)

Lemma OptPass_ind' (P : OptPass.t → Prop) :
  (∀ pass, Forall P (OptPass.sub pass) → P pass) → ∀ pass, P pass.
Proof.
  intros Hstep. fix IH 1. intros [n ty num sub]. apply Hstep. simpl.
  induction sub as [|p sub IHsub]; constructor; [apply IH|apply IHsub].
Qed.

Lemma collect_pass_preorder (pass : OptPass.t) (passes : list OptPass.t) :
  collect_pass pass passes = passes ++ preorder pass.
Proof.
  revert passes. induction pass as [[n ty num sub] IH] using OptPass_ind'.
  intros passes. simpl in *.
  change (foldl (λ passes sub_pass, collect_pass sub_pass passes)
            (passes ++ [OptPass.mk n ty num sub]) sub
          = passes ++ OptPass.mk n ty num sub :: (sub ≫= preorder)).
  rewrite (cons_middle _ passes (sub ≫= preorder)), app_assoc.
  generalize (passes ++ [OptPass.mk n ty num sub]). clear passes.
  induction IH as [|p sub Hp _ IHsub]; intros acc.
  - simpl. by rewrite app_nil_r.
  - rewrite bind_cons. simpl. rewrite IHsub, Hp. by rewrite app_assoc.
Qed.

Lemma collect_passes_preorder_app (pass passes : list OptPass.t) :
  collect_passes pass passes = passes ++ (pass ≫= preorder).
Proof.
  unfold collect_passes. revert passes.
  induction pass as [|p pass IH]; intros passes.
  - simpl. by rewrite app_nil_r.
  - rewrite bind_cons. simpl. rewrite IH, collect_pass_preorder.
    by rewrite app_assoc.
Qed.

Lemma preorder_self (pass : OptPass.t) : pass ∈ preorder pass.
Proof. destruct pass. apply list_elem_of_here. Qed.

Lemma preorder_sub (pass q : OptPass.t) :
  q ∈ OptPass.sub pass → q ∈ preorder pass.
Proof.
  intros Hq. destruct pass as [n ty num sub]. simpl in *.
  apply elem_of_cons. right. apply list_elem_of_bind.
  exists q. split; [apply preorder_self|done].
Qed.

Lemma collect_pass_lists_preorder (pass_lists : list (list OptPass.t)) :
  foldl (λ passes list, collect_passes list passes) [] pass_lists
  = pass_lists ≫= (λ list, list ≫= preorder).
Proof.
  rewrite <-(app_nil_l (pass_lists ≫= _)).
  generalize (@nil OptPass.t).
  induction pass_lists as [|l pass_lists IH]; intros acc.
  - simpl. by rewrite app_nil_r.
  - rewrite bind_cons. simpl. rewrite IH, collect_passes_preorder_app.
    by rewrite app_assoc.
Qed.

(** X10: [collect_passes] appends, to the passes it is given, the passes of
    the list in pre-order: a pass, then all the passes below it, then the
    passes after it; every pass once, at whatever depth it is.  So the first
    loop of [setup_time_trace_passes] collects the lists of the host one
    after the other. *)
Theorem collect_passes_preorder (pass passes : list OptPass.t)
    (pass_lists : list (list OptPass.t)) :
  collect_passes pass passes = passes ++ (pass ≫= preorder)
  ∧ (∀ p, p ∈ pass → p ∈ collect_passes pass passes
          ∧ ∀ q, q ∈ OptPass.sub p → q ∈ collect_passes pass passes)
  ∧ foldl (λ passes list, collect_passes list passes) [] pass_lists
    = pass_lists ≫= (λ list, list ≫= preorder).
Proof.
  split; [apply collect_passes_preorder_app|]. split.
  - intros p Hp. rewrite collect_passes_preorder_app.
    assert (∀ x, x ∈ preorder p → x ∈ passes ++ (pass ≫= preorder))
      as Hsub.
    { intros x Hx. apply elem_of_app. right. apply list_elem_of_bind.
      by exists p. }
    split; [apply Hsub, preorder_self|].
    intros q Hq. by apply Hsub, preorder_sub.
  - apply collect_pass_lists_preorder.
Qed.

Lemma probe_key (i pass : OptPass.t) :
  probe i pass = true ↔ pass_key pass ≠ pass_key i.
Proof.
  unfold probe, pass_key. rewrite orb_true_iff, negb_true_iff.
  rewrite bool_decide_eq_true, bool_decide_eq_false. split.
  - intros [?|?] [=]; done.
  - intros Hne.
    destruct (decide (OptPass.type pass = OptPass.type i)) as [Ht|]; [|by left].
    right. intros Hn. apply Hne. by rewrite Ht, Hn.
Qed.

Lemma probe_all (i : OptPass.t) (before : list OptPass.t) :
  forallb (probe i) before = true ↔ pass_key i ∉ pass_key <$> before.
Proof.
  rewrite forallb_forall, list_elem_of_fmap. split.
  - intros Hall (p & Hk & Hp). apply list_elem_of_In in Hp.
    by apply Hall, probe_key in Hp.
  - intros Hno p Hp. apply probe_key. intros Hk. apply Hno.
    exists p. by rewrite <-list_elem_of_In in Hp.
Qed.

Lemma first_occurrences_seen {A} `{EqDecision A} (seen seen' l : list A) :
  (∀ x, x ∈ seen ↔ x ∈ seen') →
  first_occurrences seen l = first_occurrences seen' l.
Proof.
  revert seen seen'. induction l as [|x l IH]; intros seen seen' Hs; [done|].
  simpl. destruct (decide (x ∈ seen)) as [Hx|Hx].
  - rewrite decide_True by (by apply Hs). by apply IH.
  - rewrite decide_False by (by rewrite <-Hs). f_equal. apply IH.
    intros y. rewrite !elem_of_app, Hs. done.
Qed.

Lemma register_single_from_keys (before rest : list OptPass.t) :
  call_key <$> register_single_from before rest
  = first_occurrences (pass_key <$> before) (pass_key <$> rest).
Proof.
  revert before. induction rest as [|i rest IH]; intros before; [done|].
  cbn [register_single_from]. rewrite fmap_cons. cbn [first_occurrences].
  rewrite fmap_app, IH, fmap_app.
  destruct (forallb (probe i) before) eqn:Hprobe.
  - apply probe_all in Hprobe. rewrite decide_False by done. reflexivity.
  - assert (pass_key i ∈ pass_key <$> before) as Hin.
    { destruct (decide (pass_key i ∈ pass_key <$> before)) as [|Hno];
        [done|].
      apply probe_all in Hno. congruence. }
    rewrite decide_True by done. simpl.
    apply first_occurrences_seen. intros x.
    rewrite elem_of_app, list_elem_of_singleton. split; [|by left].
    by intros [?| ->].
Qed.

(** The shape of a call that registers the pass after one pass. *)
Lemma register_single_from_spec (before rest : list OptPass.t) :
  let calls := register_single_from before rest in
  Forall (λ c, (call_key c ∉ pass_key <$> before)
               ∧ trace_kind (pass c) = TimeTracePassKind.Single
               ∧ pos c = PASS_POS_INSERT_AFTER
               ∧ ref_pass_name c = trace_name (pass c)
               ∧ ref_pass_inst_number c = 0) calls
  ∧ NoDup (call_key <$> calls)
  ∧ (∀ p, p ∈ rest →
          pass_key p ∈ pass_key <$> before
          ∨ pass_key p ∈ call_key <$> calls)
  ∧ (call_key <$> calls) `sublist_of` (pass_key <$> rest).
Proof.
  revert before. induction rest as [|i rest IH]; intros before.
  { simpl. repeat split; [constructor|constructor| |done].
    by intros p ?%elem_of_nil. }
  specialize (IH (before ++ [i])). simpl in IH.
  destruct IH as (Hall & Hnd & Hcov & Hsub).
  assert (Forall (λ c, (call_key c ∉ pass_key <$> before)
                       ∧ call_key c ≠ pass_key i)
            (register_single_from (before ++ [i]) rest)) as Hfresh.
  { eapply Forall_impl; [exact Hall|]. intros c (Hc & _).
    rewrite fmap_app, elem_of_app in Hc. split; [tauto|].
    intros Heq. apply Hc. right. rewrite Heq. apply list_elem_of_here. }
  cbn [register_single_from].
  destruct (forallb (probe i) before) eqn:Hprobe.
  - apply probe_all in Hprobe. simpl. repeat split.
    + constructor; [by repeat split|].
      eapply Forall_impl; [exact Hall|]. intros c (Hc & Hshape).
      split; [|done]. rewrite fmap_app, elem_of_app in Hc. tauto.
    + constructor; [|done]. intros Hin.
      apply list_elem_of_fmap in Hin as (c & Hc & Hin).
      rewrite Forall_forall in Hfresh. by destruct (Hfresh c Hin).
    + intros p [->|Hp]%elem_of_cons.
      * right. apply list_elem_of_here.
      * destruct (Hcov p Hp) as [Hb|Hc].
        -- rewrite fmap_app, elem_of_app in Hb.
           destruct Hb as [?|Hb]; [by left|].
           apply list_elem_of_singleton in Hb. right. rewrite Hb.
           apply list_elem_of_here.
        -- right. by apply elem_of_cons; right.
    + by apply sublist_skip.
  - simpl. repeat split.
    + eapply Forall_impl; [exact Hall|]. intros c (Hc & Hshape).
      split; [|done]. rewrite fmap_app, elem_of_app in Hc. tauto.
    + done.
    + intros p [->|Hp]%elem_of_cons.
      * left. destruct (decide (pass_key i ∈ pass_key <$> before)); [done|].
        apply probe_all in n. congruence.
      * destruct (Hcov p Hp) as [Hb|Hc]; [|by right].
        rewrite fmap_app, elem_of_app in Hb. destruct Hb as [?|Hb]; [by left|].
        apply list_elem_of_singleton in Hb. left. rewrite Hb.
        destruct (decide (pass_key i ∈ pass_key <$> before)); [done|].
        apply probe_all in n. congruence.
    + by apply sublist_cons.
Qed.

(** X11: after the passes of the host are collected, the plugin registers
    one pass of its own for each type and name that occurs among them, and
    only one however often the pair occurs: the calls are in the order in
    which the pairs first occur, each asks for a [Single] pass of that type
    and name, to be put after every pass of that name. *)
Theorem one_single_pass_per_type_and_name
    (pass_lists : list (list OptPass.t)) :
  let passes := pass_lists ≫= (λ list, list ≫= preorder) in
  let calls := register_single_passes pass_lists in
  call_key <$> calls = first_occurrences [] (pass_key <$> passes)
  ∧ NoDup (call_key <$> calls)
  ∧ (∀ p, p ∈ passes → pass_key p ∈ call_key <$> calls)
  ∧ (call_key <$> calls) `sublist_of` (pass_key <$> passes)
  ∧ Forall (λ c, trace_kind (pass c) = TimeTracePassKind.Single
                 ∧ pos c = PASS_POS_INSERT_AFTER
                 ∧ ref_pass_name c = trace_name (pass c)
                 ∧ ref_pass_inst_number c = 0) calls.
Proof.
  intros passes calls.
  assert (calls = register_single_from [] passes) as ->.
  { unfold calls, register_single_passes, passes.
    by rewrite collect_pass_lists_preorder. }
  destruct (register_single_from_spec [] passes) as (Hall & Hnd & Hcov & Hsub).
  split; [apply (register_single_from_keys [] passes)|].
  split; [done|]. split; [|split; [done|]].
  - intros p Hp. destruct (Hcov p Hp) as [Hb|?]; [|done].
    by apply elem_of_nil in Hb.
  - eapply Forall_impl; [exact Hall|]. by intros c (_ & ?).
Qed.

(** ** The recording callbacks *)

Lemma buffer_ok_later {E} seen now (buffer : list (EventRecord E)) :
  buffer_ok seen buffer → buffer_ok (now :: seen) buffer.
Proof.
  intros [Hs Hf]. split; [done|].
  eapply Forall_impl; [exact Hf|]. intros r Hr. by apply elem_of_cons; right.
Qed.

Lemma buffer_ok_push {E} seen now (ev : E) (buffer : list (EventRecord E)) :
  buffer_ok seen buffer → Forall (λ t, t ≤ now) seen →
  buffer_ok (now :: seen) (new_record now ev :: buffer).
Proof.
  intros [Hs Hf] Hseen. split.
  - constructor; [done|]. eapply Forall_impl; [exact Hf|].
    intros r Hr. simpl. rewrite Forall_forall in Hseen. by apply Hseen.
  - constructor; [apply list_elem_of_here|].
    eapply Forall_impl; [exact Hf|]. intros r Hr. by apply elem_of_cons; right.
Qed.

Create HintDb buffers.
#[local] Hint Resolve buffer_ok_later buffer_ok_push : buffers.

Ltac keep_buffers :=
  eexists; split; [done|]; split;
  [split; [|split; [|split]]; simpl; eauto with buffers|by split].

(** One call keeps the buffers in order, when its reading is not before
    the readings so far; it returns unless its cast is undefined or
    [cb_file_change] would call itself. *)
Lemma invoke_buffers_ok seen now inv g :
  buffers_ok seen g → Forall (λ t, t ≤ now) seen →
  cast_defined inv →
  old_cb_file_change g ≠ Some plugin_cb_file_change →
  ∃ g', invoke now inv g = Some g' ∧ buffers_ok (now :: seen) g'
        ∧ old_cb_file_change g'
          = (if is_start_unit inv then file_change g
             else old_cb_file_change g)
        ∧ (is_start_unit inv = false → file_change g' = file_change g).
Proof.
  intros (Hu & Hi & Hp & Hs) Hseen Hcast Hold.
  destruct inv as [| |d|d|d| | | | |current_pass cfd|p|line_map]; simpl;
    try keep_buffers.
  - unfold override_gate_callback.
    destruct current_pass as [p|p]; simpl in *.
    + rewrite bool_decide_eq_false_2 by done. keep_buffers.
    + destruct (trace_kind p); keep_buffers.
  - unfold cb_file_change.
    destruct line_map as [[[] file]|]; simpl;
      destruct (old_cb_file_change g) as [[id|]|] eqn:Hcb; try done;
      keep_buffers.
Qed.

Lemma unit_starts_cons now inv invs :
  unit_starts ((now, inv) :: invs)
  = ((if is_start_unit inv then 1 else 0) + unit_starts invs)%nat.
Proof.
  unfold unit_starts. rewrite filter_cons. simpl.
  by destruct (is_start_unit inv).
Qed.

Lemma run_buffers_ok invs : ∀ seen g,
  clock_ordered invs →
  Forall (λ i, cast_defined i.2) invs →
  (unit_starts invs ≤ 1)%nat →
  buffers_ok seen g →
  Forall (λ t, Forall (λ i, t ≤ i.1) invs) seen →
  old_cb_file_change g ≠ Some plugin_cb_file_change →
  (unit_starts invs = 1%nat →
   file_change g ≠ Some plugin_cb_file_change) →
  ∃ g', run invs g = Some g'
        ∧ buffers_ok (reverse invs.*1 ++ seen) g'.
Proof.
  induction invs as [|[now inv] invs IH]; intros seen g Hclock Hcast Hstarts
    Hok Hseen Hold Hfile.
  { exists g. by split. }
  apply StronglySorted_inv in Hclock as [Hclock Hnow].
  apply Forall_cons in Hcast as [Hinv Hcast].
  assert (Forall (λ t, t ≤ now) seen) as Hseen_now.
  { eapply Forall_impl; [exact Hseen|]. by intros t [? _]%Forall_cons. }
  destruct (invoke_buffers_ok seen now inv g Hok Hseen_now Hinv Hold)
    as (g1 & Hinvoke & Hok1 & Hold1 & Hfile1).
  simpl. rewrite Hinvoke.
  rewrite unit_starts_cons in Hstarts, Hfile.
  destruct (IH (now :: seen) g1) as (g' & Hrun & Hok'); try done.
  - destruct (is_start_unit inv); lia.
  - constructor; [done|].
    eapply Forall_impl; [exact Hseen|]. by intros t [_ ?]%Forall_cons.
  - rewrite Hold1. destruct (is_start_unit inv) eqn:Hsu; [|done].
    apply Hfile. lia.
  - intros Hone. destruct (is_start_unit inv) eqn:Hsu; [lia|].
    rewrite Hfile1 by done. apply Hfile. lia.
  - exists g'. split; [done|].
    simpl. rewrite reverse_cons, <-app_assoc. done.
Qed.

Lemma buffer_ok_chronological {E} (R : EventRecord E → AnyRecord) seen
    (buffer : list (EventRecord E)) :
  (∀ r, record_time (R r) = timestamp r) →
  buffer_ok seen buffer → chronological (R <$> reverse buffer).
Proof.
  intros HR [Hs _]. unfold chronological.
  induction Hs as [|r buffer _ IH Hr]; [constructor|].
  rewrite reverse_cons, fmap_app. apply StronglySorted_app_2; [|done|].
  - intros a b (x & -> & Hx)%list_elem_of_fmap Hb.
    apply list_elem_of_singleton in Hb as ->. rewrite !HR.
    rewrite Forall_forall in Hr. apply Hr. by apply elem_of_reverse.
  - repeat constructor.
Qed.

Lemma buffer_ok_seen {E} (R : EventRecord E → AnyRecord) seen
    (buffer : list (EventRecord E)) r :
  (∀ r, record_time (R r) = timestamp r) →
  buffer_ok seen buffer → r ∈ R <$> reverse buffer →
  record_time r ∈ seen.
Proof.
  intros HR [_ Hf] (x & -> & Hx)%list_elem_of_fmap. rewrite HR.
  rewrite Forall_forall in Hf. apply Hf. by apply elem_of_reverse.
Qed.

Lemma buffers_ok_recorded seen g :
  buffers_ok seen g →
  chronological_buffers (reverse (trace_unit g)) (reverse (trace_include g))
    (reverse (trace_parse g)) (reverse (trace_pass g))
  ∧ ∀ r, r ∈ recorded g → record_time r ∈ seen.
Proof.
  intros (Hu & Hi & Hp & Hs). split.
  - repeat split; by eapply buffer_ok_chronological.
  - intros r. unfold recorded, all_events. rewrite !elem_of_app.
    intros [Hr|[Hr|[Hr|Hr]]];
      [by eapply (buffer_ok_seen RUnit)|by eapply (buffer_ok_seen RInclude)|
       by eapply (buffer_ok_seen RParse)|by eapply (buffer_ok_seen RPass)].
Qed.

Lemma loaded_buffers_ok host : buffers_ok [] (loaded host).
Proof. repeat split; constructor. Qed.

Lemma run_loaded invs host :
  clock_ordered invs →
  Forall (λ i, cast_defined i.2) invs →
  (unit_starts invs ≤ 1)%nat →
  ∃ g, run invs (loaded host) = Some g ∧ buffers_ok (reverse invs.*1) g.
Proof.
  intros Hclock Hcast Hstarts.
  destruct (run_buffers_ok invs [] (loaded host)) as (g & Hrun & Hok);
    try done.
  - apply loaded_buffers_ok.
  - simpl. by destruct host.
  - exists g. by rewrite app_nil_r in Hok.
Qed.

(** X12: a compilation in which the host starts the unit once at most and
    the clock does not go back: every call returns, and it leaves each of
    the four buffers in the order of the clock, earliest record last.  Every
    record carries the reading of one of the calls.  So [finish_callback],
    which turns the buffers round, submits the records of each category in
    the order the clock stamped them. *)
Theorem recording_keeps_clock_order (host : option N)
    (invs : list (EventTimePoint * Invocation)) :
  clock_ordered invs →
  Forall (λ i, cast_defined i.2) invs →
  (unit_starts invs ≤ 1)%nat →
  ∃ g, run invs (loaded host) = Some g
       ∧ chronological_buffers (reverse (trace_unit g))
           (reverse (trace_include g)) (reverse (trace_parse g))
           (reverse (trace_pass g))
       ∧ (∀ r, r ∈ recorded g → record_time r ∈ invs.*1).
Proof.
  intros Hclock Hcast Hstarts.
  destruct (run_loaded invs host Hclock Hcast Hstarts) as (g & Hrun & Hok).
  exists g. split; [done|].
  destruct (buffers_ok_recorded _ g Hok) as [Hchron Hseen].
  split; [done|].
  intros r Hr. apply elem_of_reverse. by apply Hseen.
Qed.

(** ** The numbers of a run *)

Lemma chronological_category_ordered (w : list AnyRecord) :
  chronological w → category_ordered w.
Proof.
  unfold chronological, category_ordered.
  induction 1 as [|a w _ IH Ha]; constructor; [done|].
  eapply Forall_impl; [exact Ha|]. by intros b Hb _.
Qed.

Lemma all_events_category_ordered units includes parses passes :
  chronological_buffers units includes parses passes →
  category_ordered (all_events units includes parses passes).
Proof.
  intros (Hu & Hi & Hp & Hs). unfold all_events, category_ordered.
  repeat apply StronglySorted_app_2;
    try (by apply chronological_category_ordered).
  all: intros a b Ha Hb; rewrite ?elem_of_app in Hb;
    repeat match goal with
    | H : _ ∈ _ <$> _ |- _ => apply list_elem_of_fmap in H as (? & -> & _)
    | H : _ ∨ _ |- _ => destruct H
    end; done.
Qed.

(** The two times of an entry are those of the match the call reports,
    or one time twice. *)
Lemma call_slice_interval c entry_name s e :
  call_slice c = Some (entry_name, s, e) →
  call_interval c = Some (s, e) ∨ s = e.
Proof.
  destruct c as [[? ?|x]|[? ?|x]|[? ?|x]|[? ?|x]]; simpl;
    intros Hc; simplify_eq/=; auto.
  destruct (parse_kind (event x)); simplify_eq/=; auto.
Qed.

Lemma finish_slices_ordered `{!IterationOrder} w entry_name s e :
  category_ordered w →
  (entry_name, s, e)
  ∈ omap call_slice (_cb (finish (submit w (new_tracker ([] : Log))))) →
  s ≤ e.
Proof.
  intros Hw (c & Hc & Hslice)%list_elem_of_omap.
  apply call_slice_interval in Hslice as [Hint| ->]; [|done].
  rewrite finish_spec, calls_record in Hc. simpl in Hc.
  apply elem_of_app in Hc as [Hc|Hc]; [by eapply submit_intervals_ordered|].
  pose proof (flush_calls_mismatches (submit w (new_tracker ([] : Log))))
    as Hmis.
  rewrite Forall_forall in Hmis. destruct (Hmis c Hc) as [r Hr].
  destruct c as [[]|[]|[]|[]]; simpl in *; simplify_eq/=.
Qed.

Section run_numbers.
Context `{!LangHooks} `{!IterationOrder}.

(** X13: from the calls of the host to the file: after a compilation in
    which the unit is started once at most and the clock does not go back,
    with the two readings of [finish_callback] after those of the calls, the
    trace file is a bracketed list of the entries of the run.  When any
    record was made, no entry starts before the epoch or ends before it
    starts: every timestamp and every duration in the file is printed from a
    count that is not negative, as digits, a point and three digits. *)
Theorem run_document_numbers (host : option N)
    (invs : list (EventTimePoint * Invocation))
    (dump_start dump_end : EventTimePoint) :
  clock_ordered invs →
  Forall (λ i, cast_defined i.2) invs →
  (unit_starts invs ≤ 1)%nat →
  Forall (λ i, i.1 ≤ dump_start) invs →
  dump_start ≤ dump_end →
  ∃ g text,
    run invs (loaded host) = Some g
    ∧ finish_callback_on g dump_start dump_end = "[" +:+ text +:+ "]"
    ∧ entries_text (run_epoch g) 0 (run_slices g dump_start dump_end) text
    ∧ (recorded g ≠ [] →
       ∀ entry_name s e,
         (entry_name, s, e) ∈ run_slices g dump_start dump_end →
         run_epoch g ≤ s ≤ e
         ∧ micro_fields (s - run_epoch g)
         ∧ (s < e → micro_fields (e - s))).
Proof.
  intros Hclock Hcast Hstarts Hdump Hde.
  destruct (run_loaded invs host Hclock Hcast Hstarts) as (g & Hrun & Hok).
  destruct (buffers_ok_recorded _ g Hok) as [Hchron Hseen].
  destruct (document_entries (trace_unit g) (trace_include g)
              (trace_parse g) (trace_pass g) (decl_verbosity g)
              dump_start dump_end) as (text & Hdoc & Htext).
  exists g, text. split; [done|]. split; [done|]. split; [done|].
  intros Hsome entry_name s e Hin.
  assert (run_epoch g ≤ dump_start) as Hepoch.
  { assert (∃ r, r ∈ recorded g) as [r Hr].
    { destruct (recorded g) as [|r l]; [done|].
      exists r. apply list_elem_of_here. }
    pose proof (epoch_le_all _ _ _ _ _ Hchron Hr) as Hle.
    apply Hseen, elem_of_reverse, list_elem_of_fmap in Hr as (i & Hi & Hr).
    rewrite Forall_forall in Hdump. apply Hdump in Hr. simpl in Hr.
    unfold run_epoch. rewrite Hi in Hle. by eapply Z.le_trans. }
  assert (run_epoch g ≤ s ≤ e) as Hse.
  { apply elem_of_app in Hin as [Hin|Hin].
    - split.
      + by eapply slices_start_after_epoch.
      + eapply finish_slices_ordered; [|exact Hin].
        by apply all_events_category_ordered.
    - apply list_elem_of_singleton in Hin. by simplify_eq/=. }
  split; [done|]. split.
  - apply micro_fields_nonneg. lia.
  - intros Hlt. apply micro_fields_nonneg. lia.
Qed.

End run_numbers.

(** ** From a callback to an entry *)

Section begin_then_end.
Context {W : Type} `{!Callback W}.
Implicit Types (t : EventTracker W).

Lemma with_pass_with_pass m m' t : with_pass m (with_pass m' t) = with_pass m t.
Proof. done. Qed.

Lemma pass_start_end_matched n s e t :
  tracker_wf t → is_pass_start n s →
  pass_kind (event e) = PassEventKind.End → name (event e) = n →
  submit [RPass s; RPass e] t = deliver (PassCall (on_match s e)) t.
Proof.
  intros Hwf [Hks Hns] Hke Hne. simpl.
  rewrite (push_event_pass_Start s) by done.
  rewrite push_event_pass_End by done.
  simpl. rewrite Hns, Hne, stack_at_set, set_stack_at_twice.
  rewrite set_stack_at_id
    by (eapply stacks_hold_no_empty, wf_pass; done).
  by rewrite with_pass_with_pass, with_pass_id.
Qed.

Lemma include_enter_leave_matched s e t :
  include_kind (event s) = IncludeEventKind.Enter →
  include_kind (event e) = IncludeEventKind.Leave →
  submit [RInclude s; RInclude e] t
  = deliver (IncludeCall (on_match s e)) t.
Proof.
  intros Hs He. simpl.
  rewrite (push_event_include_Enter s) by done.
  rewrite push_event_include_Leave by done. by destruct t.
Qed.

End begin_then_end.

Section lifecycles.
Context `{!LangHooks}.

Lemma write_slice_pass2_file (start end_ : EventRecord PassEvent)
    (w : TraceWriter) :
  pass_decl (event start) = None →
  _file (write_slice_pass2 start end_ w)
  = _file w +:+ separator w
    +:+ slice_text (_epoch w) (name (event start)) (timestamp start)
          (timestamp end_)
    +:+ "}".
Proof.
  intros Hd. unfold write_slice_pass2. rewrite Hd, SliceWriter_open_spec.
  simpl. by rewrite !string_app_assoc.
Qed.

Lemma write_slice_pass1_file (end_ : EventRecord PassEvent)
    (w : TraceWriter) :
  pass_decl (event end_) = None →
  pass_kind (event end_) = PassEventKind.End →
  _file (write_slice_pass1 end_ w)
  = _file w +:+ separator w
    +:+ slice_text (_epoch w) (name (event end_) +:+ " (cancelled)")
          (timestamp end_) (timestamp end_)
    +:+ "}".
Proof.
  intros Hd Hk. unfold write_slice_pass1.
  rewrite Hd, Hk, SliceWriter_open_spec.
  simpl. by rewrite !string_app_assoc.
Qed.

(** X14: a pass of the host and the pass the plugin registers after it, a
    [Single] pass with its type and name.  When the host runs the pass and
    then comes to the pass of the plugin, the two callbacks leave a begin
    and an end of the name of the pass; the tracker, whatever it holds,
    reports the two matched and is otherwise as before; and the writer makes
    one entry of them, with the name of the pass, from the reading of the
    first call to that of the second, without arguments.  When the host does
    not run the pass, the end comes alone: if no begin of that name is
    pending the entry is a marker (cancelled). *)
Theorem executed_pass_is_one_entry (p : OptPass.t)
    (t1 t2 : EventTimePoint) (current_function_decl : tree) (g : State)
    (w : list AnyRecord) (writer : TraceWriter) :
  let single :=
    time_trace_pass {| pass_type := OptPass.type p;
                       trace_kind := TimeTracePassKind.Single;
                       trace_name := OptPass.name p |} in
  let s :=
    new_record t1 {| pass_kind := PassEventKind.Start;
                     name := OptPass.name p;
                     pass_decl := NULL_TREE; pass_uid := no_uid |} in
  let e :=
    new_record t2 {| pass_kind := PassEventKind.End;
                     name := OptPass.name p;
                     pass_decl := NULL_TREE; pass_uid := no_uid |} in
  let t := submit w (new_tracker writer) in
  run [(t1, PLUGIN_PASS_EXECUTION p);
       (t2, PLUGIN_OVERRIDE_GATE single current_function_decl)] g
  = Some (push_trace_pass e (push_trace_pass s g))
  ∧ submit [RPass s; RPass e] t = deliver (PassCall (on_match s e)) t
  ∧ _file (_cb (submit [RPass s; RPass e] t))
    = _file (_cb t) +:+ separator (_cb t)
      +:+ slice_text (_epoch (_cb t)) (OptPass.name p) t1 t2 +:+ "}"
  ∧ run [(t2, PLUGIN_OVERRIDE_GATE single current_function_decl)] g
    = Some (push_trace_pass e g)
  ∧ (stack_at (_pass_events t) (OptPass.name p) = [] →
     push_event (RPass e) t = deliver (PassCall (on_mismatch e)) t
     ∧ _file (_cb (push_event (RPass e) t))
       = _file (_cb t) +:+ separator (_cb t)
         +:+ slice_text (_epoch (_cb t))
               (OptPass.name p +:+ " (cancelled)") t2 t2
         +:+ "}").
Proof.
  intros single s e t.
  assert (submit [RPass s; RPass e] t = deliver (PassCall (on_match s e)) t)
    as Hmatch.
  { apply (pass_start_end_matched (OptPass.name p)); try done.
    apply reachable_wf. }
  split; [done|]. split; [done|]. split; [|split; [done|]].
  - rewrite Hmatch. apply (write_slice_pass2_file s e). done.
  - intros Hnone.
    assert (push_event (RPass e) t = deliver (PassCall (on_mismatch e)) t)
      as Hmis.
    { apply (end_without_begin t (RPass e)); [apply reachable_wf|done|].
      simpl. by rewrite Hnone. }
    split; [done|]. rewrite Hmis. by apply (write_slice_pass1_file e).
Qed.

(** X15: the reader enters a file and leaves it again.  With no callback or
    one of the host in [old_cb_file_change], the two calls return, leave an
    [Enter] with the name of the file and a [Leave] with no name, and pass
    both line maps on to the callback of the host, if there is one.  The
    tracker reports the two matched, and the writer makes one entry
    [include] of them whose [file] is the file entered, not the file the
    reader is back in.  A file change of another reason, or without a line
    map, leaves no record and is passed on all the same. *)
Theorem include_is_one_entry (file back : string) (t1 t2 : EventTimePoint)
    (host : option N) (g : State) (w : list AnyRecord)
    (writer : TraceWriter) :
  old_cb_file_change g = host_file_change <$> host →
  let enter_map := {| reason := LC_ENTER; to_file := file |} in
  let leave_map := {| reason := LC_LEAVE; to_file := back |} in
  let enter :=
    new_record t1 {| include_kind := IncludeEventKind.Enter;
                     filename := file |} in
  let leave :=
    new_record t2 {| include_kind := IncludeEventKind.Leave;
                     filename := EmptyString |} in
  let t := submit w (new_tracker writer) in
  (∃ g', run [(t1, FILE_CHANGE (Some enter_map));
              (t2, FILE_CHANGE (Some leave_map))] g = Some g'
         ∧ trace_include g' = leave :: enter :: trace_include g
         ∧ forwarded g'
           = forwarded g
             ++ match host with
                | Some id => [(id, Some enter_map); (id, Some leave_map)]
                | None => []
                end)
  ∧ submit [RInclude enter; RInclude leave] t
    = deliver (IncludeCall (on_match enter leave)) t
  ∧ _file (_cb (submit [RInclude enter; RInclude leave] t))
    = _file (_cb t) +:+ separator (_cb t)
      +:+ slice_text (_epoch (_cb t)) "include" t1 t2
      +:+ lit ",'args':{'file':'" +:+ file +:+ lit "'}}"
  ∧ (∀ now line_map,
       (∀ lm, line_map = Some lm →
              reason lm ≠ LC_ENTER ∧ reason lm ≠ LC_LEAVE) →
       ∃ g', cb_file_change now line_map g = Some g'
             ∧ trace_include g' = trace_include g
             ∧ forwarded g'
               = forwarded g
                 ++ match host with
                    | Some id => [(id, line_map)]
                    | None => []
                    end).
Proof.
  intros Hold enter_map leave_map enter leave t.
  assert (submit [RInclude enter; RInclude leave] t
          = deliver (IncludeCall (on_match enter leave)) t) as Hmatch.
  { by apply include_enter_leave_matched. }
  split; [|split; [done|split]].
  - simpl. unfold cb_file_change. simpl. rewrite Hold.
    destruct host as [id|]; simpl; rewrite ?Hold; simpl;
      eexists; (split; [done|]); split; try done; simpl.
    + by rewrite <-app_assoc.
    + by rewrite app_nil_r.
  - rewrite Hmatch. apply (write_slice_include2_file enter leave).
  - intros now line_map Hother. unfold cb_file_change.
    destruct line_map as [[r f]|].
    + destruct (Hother _ eq_refl) as [He Hl]. simpl in He, Hl.
      destruct r; try done; simpl; rewrite Hold;
        destruct host; simpl; eexists; (split; [done|]); split; try done;
        simpl; by rewrite app_nil_r.
    + rewrite Hold. destruct host; simpl; eexists; (split; [done|]);
        split; try done; simpl; by rewrite app_nil_r.
Qed.

End lifecycles.


(** ** One stream at a time *)

Lemma fmap_injective {A B} (f : A → B) (l l' : list A) :
  (∀ x y, f x = f y → x = y) → f <$> l = f <$> l' → l = l'.
Proof.
  intros Hf. revert l'. induction l as [|x l IH]; intros [|y l'] Heq;
    simplify_eq/=; [done|]. f_equal; [by apply Hf|by apply IH].
Qed.

Lemma RUnit_injective x y : RUnit x = RUnit y → x = y.
Proof. by intros [= ->]. Qed.

Lemma RInclude_injective x y : RInclude x = RInclude y → x = y.
Proof. by intros [= ->]. Qed.

Lemma RParse_injective x y : RParse x = RParse y → x = y.
Proof. by intros [= ->]. Qed.

Lemma RPass_injective x y : RPass x = RPass y → x = y.
Proof. by intros [= ->]. Qed.

Lemma stream_pending_stacks {W} (σ : Stream) (t : EventTracker W) :
  stream_pending σ t = (stream_stacks σ t).1 ++ (stream_stacks σ t).2.
Proof. destruct σ; simpl; by rewrite ?app_nil_r, ?fmap_app. Qed.

(** What a record does to its stream is decided by the two stacks of the
    stream alone. *)
Lemma push_event_same_stacks (r : AnyRecord) (t t' : EventTracker Log) :
  stream_stacks (stream_of r) t = stream_stacks (stream_of r) t' →
  ∃ l, _cb (push_event r t) = _cb t ++ l
       ∧ _cb (push_event r t') = _cb t' ++ l
       ∧ stream_stacks (stream_of r) (push_event r t)
         = stream_stacks (stream_of r) (push_event r t').
Proof.
  destruct r as [r|r|r|r]; simpl; intros Hst.
  - apply pair_eq in Hst as [Hst _].
    apply fmap_injective in Hst; [|apply RUnit_injective].
    destruct (unit_kind (event r)) eqn:Hk.
    + rewrite !push_event_unit_Start by done. exists []. simpl.
      by rewrite !app_nil_r, Hst.
    + rewrite !push_event_unit_End by done. rewrite <-Hst.
      destruct (_unit_events t); by eexists.
  - apply pair_eq in Hst as [Hst _].
    apply fmap_injective in Hst; [|apply RInclude_injective].
    destruct (include_kind (event r)) eqn:Hk.
    + rewrite !push_event_include_Enter by done. exists []. simpl.
      by rewrite !app_nil_r, Hst.
    + rewrite !push_event_include_Leave by done. rewrite <-Hst.
      destruct (_include_events t); by eexists.
  - apply pair_eq in Hst as [Hp Hg].
    apply fmap_injective in Hp; [|apply RParse_injective].
    apply fmap_injective in Hg; [|apply RParse_injective].
    destruct (parse_kind (event r)) eqn:Hk.
    + rewrite !push_event_parse_Start by done. exists []. simpl.
      by rewrite !app_nil_r, !stack_at_set, Hp, Hg.
    + rewrite !push_event_parse_PreGenericize by done. simpl.
      rewrite <-Hp, <-Hg.
      destruct (stack_at (_parse_events t) _) as [|b s]; simpl.
      * exists []. by rewrite !app_nil_r, !stack_at_set.
      * eexists. split; [done|]. split; [done|]. by rewrite !stack_at_set.
    + rewrite !push_event_parse_Finish by done. simpl.
      rewrite <-Hp, <-Hg.
      destruct (stack_at (_parse_events t) _) as [|b s]; simpl.
      * destruct (stack_at (_genericize_events t) _) as [|g gs]; simpl;
          eexists; (split; [done|]); (split; [done|]);
          by rewrite !stack_at_set.
      * eexists. split; [done|]. split; [done|].
        by rewrite !stack_at_set, Hg.
  - apply pair_eq in Hst as [Hst _].
    apply fmap_injective in Hst; [|apply RPass_injective].
    destruct (pass_kind (event r)) eqn:Hk.
    + rewrite !push_event_pass_Start by done. exists []. simpl.
      by rewrite !app_nil_r, !stack_at_set, Hst.
    + rewrite !push_event_pass_End by done. simpl. rewrite <-Hst.
      destruct (stack_at (_pass_events t) _) as [|b s]; simpl;
        eexists; (split; [done|]); (split; [done|]);
        by rewrite !stack_at_set.
Qed.

(** The calls of one record are about its stream. *)
Lemma push_event_calls_in_stream (r : AnyRecord) (t : EventTracker Log) l :
  tracker_wf t → _cb (push_event r t) = _cb t ++ l →
  Forall (λ c, stream_of (call_subject c) = stream_of r) l.
Proof.
  intros Hwf Hl. destruct (push_event_call_shape r t) as (l' & Hl' & Hshape).
  rewrite Hl in Hl'. apply app_inv_head in Hl' as ->.
  destruct Hshape as [->|[->|(b & c & Hb & Hc & ->)]].
  - constructor.
  - repeat constructor. by destruct r.
  - repeat constructor. apply report_match_facts in Hc as (-> & _).
    apply (stream_pending_stream _ t); [done|]. by apply head_Some_elem_of.
Qed.

Lemma submit_stream (σ : Stream) (w : list AnyRecord) :
  stream_calls σ (_cb (submit w (new_tracker ([] : Log))))
  = _cb (submit (stream_records σ w) (new_tracker ([] : Log)))
  ∧ stream_stacks σ (submit w (new_tracker ([] : Log)))
    = stream_stacks σ (submit (stream_records σ w) (new_tracker ([] : Log))).
Proof.
  induction w as [|r w [IHc IHs]] using rev_ind; [done|].
  unfold stream_records in *. rewrite filter_app, submit_snoc.
  pose proof (reachable_wf w ([] : Log)) as Hwf.
  destruct (decide (stream_of r = σ)) as [Hr|Hr].
  - rewrite filter_cons_True, filter_nil by done. rewrite submit_snoc.
    subst σ. destruct (push_event_same_stacks r _ _ IHs) as (l & Hl & Hl' & Hst).
    split; [|done]. rewrite Hl, Hl'. unfold stream_calls in *.
    rewrite filter_app, IHc. f_equal.
    pose proof (push_event_calls_in_stream r _ l Hwf Hl) as Hin.
    clear -Hin. induction Hin as [|c l Hc _ IH]; [done|].
    by rewrite filter_cons_True, IH.
  - rewrite filter_cons_False, filter_nil, app_nil_r by done.
    split; [|by rewrite push_event_other_stacks].
    destruct (push_event_log r (submit w (new_tracker ([] : Log))))
      as [l Hl].
    pose proof (push_event_calls_in_stream r _ l Hwf Hl) as Hin.
    rewrite Hl. unfold stream_calls in *. rewrite filter_app, IHc.
    assert (filter (λ c, stream_of (call_subject c) = σ) l = []) as ->;
      [|by rewrite app_nil_r].
    clear -Hin Hr. induction Hin as [|c l Hc _ IH]; [done|].
    rewrite filter_cons_False by congruence. done.
Qed.

(** X17: the calls about one stream, a category or one key of it, are
    those the tracker makes when it is given the records of that stream
    alone, and the stacks of the stream are the same: what is reported for
    a function or a pass does not depend on the records of any other
    function, pass or category that come in between. *)
Theorem stream_is_matched_on_its_own (σ : Stream) (w : list AnyRecord) :
  let t := submit w (new_tracker ([] : Log)) in
  let t' := submit (stream_records σ w) (new_tracker ([] : Log)) in
  stream_calls σ (_cb t) = _cb t'
  ∧ stream_stacks σ t = stream_stacks σ t'
  ∧ stream_pending σ t = stream_pending σ t'.
Proof.
  intros t t'. destruct (submit_stream σ w) as [Hc Hs].
  split; [done|]. split; [done|].
  unfold t, t'. by rewrite !stream_pending_stacks, Hs.
Qed.

(** ** The epoch of a run *)

Lemma invoke_trace_unit now inv g g' :
  invoke now inv g = Some g' →
  trace_unit g' = trace_unit g ∨ ∃ r, trace_unit g' = r :: trace_unit g.
Proof.
  destruct inv as [| |d|d|d| | | | |current_pass cfd|p|line_map]; simpl;
    try (intros [= <-]; simpl; eauto; fail).
  - unfold override_gate_callback.
    destruct (bool_decide _); [|intros [= <-]; auto].
    destruct current_pass as [p|p]; [done|].
    destruct (trace_kind p); intros [= <-]; auto.
  - unfold cb_file_change.
    destruct line_map as [[[] file]|]; simpl;
      destruct (old_cb_file_change g) as [[id|]|]; intros [= <-]; auto.
Qed.

Lemma run_trace_unit_last invs : ∀ g g' r,
  run invs g = Some g' →
  last (trace_unit g) = Some r → last (trace_unit g') = Some r.
Proof.
  induction invs as [|[now inv] invs IH]; intros g g' r; simpl.
  { by intros [= <-]. }
  destruct (invoke now inv g) as [g1|] eqn:Hinv; [|done].
  intros Hrun Hlast. apply (IH g1); [done|].
  apply invoke_trace_unit in Hinv as [->|[x ->]]; [done|].
  rewrite last_cons, Hlast. done.
Qed.

Lemma front_time_ge {E} (buffer : list (EventRecord E)) (t0 : EventTimePoint) :
  t0 ≤ EventTimePoint_max →
  Forall (λ r, t0 ≤ timestamp r) buffer →
  t0 ≤ front_time buffer.
Proof. intros Hmax Hall. destruct Hall; simpl; done. Qed.

(** X18: when the first call of a compilation is the start of the unit,
    the epoch [finish_callback] takes is the reading of that call, and no
    record is stamped before it: the timestamps of the trace file count
    from the start of the unit. *)
Theorem epoch_is_unit_start (host : option N) (t0 : EventTimePoint)
    (rest : list (EventTimePoint * Invocation)) :
  clock_ordered ((t0, PLUGIN_START_UNIT) :: rest) →
  Forall (λ i, cast_defined i.2) rest →
  unit_starts rest = 0%nat →
  t0 ≤ EventTimePoint_max →
  ∃ g, run ((t0, PLUGIN_START_UNIT) :: rest) (loaded host) = Some g
       ∧ run_epoch g = t0
       ∧ head (reverse (trace_unit g))
         = Some (new_record t0 {| unit_kind := UnitEventKind.Start |})
       ∧ ∀ r, r ∈ recorded g → t0 ≤ record_time r.
Proof.
  intros Hclock Hcast Hstarts Hmax.
  destruct (run_loaded ((t0, PLUGIN_START_UNIT) :: rest) host)
    as (g & Hrun & Hok); [done|by constructor| |].
  { rewrite unit_starts_cons, Hstarts. simpl. lia. }
  exists g. split; [done|].
  destruct (buffers_ok_recorded _ g Hok) as [Hchron Hseen].
  assert (∀ r, r ∈ recorded g → t0 ≤ record_time r) as Hge.
  { intros r Hr. apply Hseen in Hr. rewrite elem_of_reverse, fmap_cons in Hr.
    apply StronglySorted_inv in Hclock as [_ Hfirst].
    apply elem_of_cons in Hr as [->|Hr]; [done|].
    apply list_elem_of_fmap in Hr as (i & -> & Hi).
    rewrite Forall_forall in Hfirst. by apply Hfirst in Hi. }
  assert (last (trace_unit g)
          = Some (new_record t0 {| unit_kind := UnitEventKind.Start |}))
    as Hlast.
  { simpl in Hrun.
    by apply (run_trace_unit_last rest (start_unit_callback t0 (loaded host))). }
  assert (head (reverse (trace_unit g))
          = Some (new_record t0 {| unit_kind := UnitEventKind.Start |}))
    as Hhead by (by rewrite head_reverse).
  split; [|by split].
  assert (front_time (reverse (trace_unit g)) = t0) as Hunit.
  { destruct (reverse (trace_unit g)); by simplify_eq/=. }
  assert (∀ {E} (R : EventRecord E → AnyRecord) (buffer : list (EventRecord E)),
            (∀ r, record_time (R r) = timestamp r) →
            (∀ r, r ∈ R <$> buffer → r ∈ recorded g) →
            t0 ≤ front_time buffer) as Hfront.
  { intros E R buffer HR Hin. apply front_time_ge; [done|].
    apply Forall_forall. intros r Hr. rewrite <-HR. apply Hge, Hin.
    by apply list_elem_of_fmap_2. }
  assert (t0 ≤ front_time (reverse (trace_include g))) as Hi.
  { apply (Hfront _ RInclude); [done|]. intros r Hr.
    unfold recorded, all_events. rewrite !elem_of_app. auto. }
  assert (t0 ≤ front_time (reverse (trace_parse g))) as Hp.
  { apply (Hfront _ RParse); [done|]. intros r Hr.
    unfold recorded, all_events. rewrite !elem_of_app. auto. }
  assert (t0 ≤ front_time (reverse (trace_pass g))) as Hs.
  { apply (Hfront _ RPass); [done|]. intros r Hr.
    unfold recorded, all_events. rewrite !elem_of_app. auto. }
  unfold run_epoch, finish_epoch, min4. rewrite Hunit.
  unfold EventTimePoint in *. lia.
Qed.

(** ** Instances *)

Lemma end_closes_latest_begin_witness :
  let s1 := pass_record PassEventKind.Start "ccp" 1 in
  let s2 := pass_record PassEventKind.Start "ccp" 2 in
  let e := pass_record PassEventKind.End "ccp" 3 in
  let t := submit [RPass s1; RPass s2] (new_tracker ([] : Log)) in
  ∃ c, report_match (RPass s2) (RPass e) = Some c
       ∧ _cb (push_event (RPass e) t) = call c (_cb t)
       ∧ stream_pending (PassStream "ccp") (push_event (RPass e) t)
         = [RPass s1].
Proof.
  intros s1 s2 e t.
  apply (end_closes_latest_begin (RPass e) (RPass s2) [RPass s1] t).
  - reflexivity.
  - vm_compute. reflexivity.
Defined.

Lemma matched_begin_not_after_end_witness :
  let s := unit_record UnitEventKind.Start 10 in
  let e := unit_record UnitEventKind.End 20 in
  category_ordered [RUnit s; RUnit e] ∧ timestamp s ≤ timestamp e.
Proof.
  intros s e.
  assert (category_ordered [RUnit s; RUnit e]) as Hw.
  { repeat constructor. simpl. lia. }
  split; [exact Hw|].
  apply (@matched_begin_not_after_end key_order [RUnit s; RUnit e]
           (UnitCall (on_match s e)) (timestamp s) (timestamp e) Hw).
  - vm_compute. apply list_elem_of_here.
  - reflexivity.
Defined.

Lemma decl_name_fixed_once_written_witness :
  let decl := {| DECL_PT_UID := 7; decl_id := 1 |} in
  let decl' := {| DECL_PT_UID := 7; decl_id := 2 |} in
  let log := [UnitCall (on_mismatch (unit_record UnitEventKind.End 5))] in
  let w := @calls _ (@WriteCallback numbered_hooks) log
             (@get_decl_name numbered_hooks decl (TraceWriter_open 0 1)).2 in
  @decl_printable_name numbered_hooks decl' 1 = "f2"
  ∧ @get_decl_name numbered_hooks decl' w = ("f1", w).
Proof.
  intros decl decl' log w. split; [reflexivity|].
  apply (@decl_name_fixed_once_written numbered_hooks decl decl' log
           (TraceWriter_open 0 1)).
  reflexivity.
Defined.

Lemma function_name_reads_back_witness :
  let w := TraceWriter_open 0 1 in
  let text := (@get_decl_name literal_hooks demo_decl w).1 in
  _file (@write_function_arg literal_hooks demo_decl w)
  = _file w +:+ lit ",'args':{'function':'" +:+ text +:+ lit "'}"
  ∧ ∀ rest,
      json_string_value (String dquote text +:+ String dquote rest)
      = Some literal_operator.
Proof.
  intros w text.
  destruct (@function_name_reads_back literal_hooks demo_decl w eq_refl)
    as (Hfile & _ & _ & Hback).
  split; [exact Hfile|]. apply Hback. vm_compute. reflexivity.
Defined.

Lemma event_free_run_document_witness :
  @finish_callback demo_hooks key_order [] [] [] [] 1 1000 2000
  = lit "[{'name':'plugin_dump','ts':-9223372036854774.-807,'ph':'X',"
    +:+ lit "'dur':1.000,'pid':0,'tid':0}]"
  ∧ String.get 0 (us_text (1000 - EventTimePoint_max)) = Some "-"%char.
Proof.
  destruct (@event_free_run_document demo_hooks key_order 1 1000 2000) as [Hdoc Hsign].
  split.
  - rewrite Hdoc. vm_compute. reflexivity.
  - apply Hsign. vm_compute. discriminate.
Defined.

Lemma setup_option_accepts_witness :
  let args :=
    {| base_name := "timetrace";
       argv := [{| key := "verbose-decl"; value := Some "0" |};
                {| key := "disable-version-check"; value := None |};
                {| key := "verbose-decl"; value := Some "2" |}] |} in
  (setup_option args (loaded None)).1 = true
  ∧ decl_verbosity (setup_option args (loaded None)).2 = 2
  ∧ version_check (setup_option args (loaded None)).2 = false
  ∧ diagnostics (setup_option args (loaded None)).2 = [].
Proof.
  intros args.
  destruct (setup_option_accepts args (loaded None)) as [Hiff Hset].
  assert (Forall (λ arg, valid_argument arg = true) (argv args)) as Hv.
  { repeat constructor. }
  destruct (Hset Hv) as (Hs & Hd & _).
  split; [by apply Hiff|]. rewrite Hs. by repeat split.
Defined.

Lemma setup_option_rejects_witness :
  let ok := [{| key := "verbose-decl"; value := Some "0" |}] in
  let bad := {| key := "verbose-decl"; value := Some "3" |} in
  let rest := [{| key := "verbose-decl"; value := Some "2" |}] in
  let result :=
    setup_option {| base_name := "timetrace"; argv := ok ++ bad :: rest |}
      (loaded None) in
  result.1 = false
  ∧ decl_verbosity result.2 = 0
  ∧ diagnostics result.2
    = [{| format := "argument of %<-fplugin-arg-%s-%s%> must be 0, 1, or 2";
          arguments := ["timetrace"; "verbose-decl"] |}].
Proof.
  intros ok bad rest result.
  destruct (setup_option_rejects "timetrace" ok rest bad (loaded None))
    as (Hres & Hdiag & _).
  - repeat constructor.
  - reflexivity.
  - unfold result. rewrite Hres. by repeat split.
Defined.

Lemma recording_keeps_clock_order_witness :
  let invs :=
    [(10, PLUGIN_START_UNIT);
     (12, FILE_CHANGE (Some {| reason := LC_ENTER; to_file := "a.h" |}));
     (15, FILE_CHANGE (Some {| reason := LC_LEAVE; to_file := "a.c" |}));
     (20, PLUGIN_FINISH_UNIT)] in
  ∃ g, run invs (loaded (Some 1%N)) = Some g
       ∧ chronological_buffers (reverse (trace_unit g))
           (reverse (trace_include g)) (reverse (trace_parse g))
           (reverse (trace_pass g))
       ∧ (∀ r, r ∈ recorded g → record_time r ∈ invs.*1).
Proof.
  intros invs. apply (recording_keeps_clock_order (Some 1%N) invs).
  - repeat constructor; simpl; lia.
  - repeat constructor.
  - vm_compute. lia.
Defined.

Lemma run_document_numbers_witness :
  let invs :=
    [(10, PLUGIN_START_UNIT);
     (12, PLUGIN_START_PARSE_FUNCTION demo_decl);
     (15, PLUGIN_FINISH_PARSE_FUNCTION demo_decl);
     (20, PLUGIN_FINISH_UNIT)] in
  ∃ g text,
    run invs (loaded None) = Some g
    ∧ @finish_callback_on demo_hooks key_order g 30 40 = "[" +:+ text +:+ "]"
    ∧ entries_text (run_epoch g) 0 (@run_slices key_order g 30 40) text
    ∧ (recorded g ≠ [] →
       ∀ entry_name s e,
         (entry_name, s, e) ∈ @run_slices key_order g 30 40 →
         run_epoch g ≤ s ≤ e
         ∧ micro_fields (s - run_epoch g)
         ∧ (s < e → micro_fields (e - s))).
Proof.
  intros invs.
  apply (@run_document_numbers demo_hooks key_order None invs 30 40).
  - repeat constructor; simpl; lia.
  - repeat constructor.
  - vm_compute. lia.
  - repeat constructor; simpl; lia.
  - lia.
Defined.

Lemma include_is_one_entry_witness :
  let enter := include_record IncludeEventKind.Enter "a.h" 12 in
  let leave := include_record IncludeEventKind.Leave EmptyString 15 in
  _file (_cb (@submit _ (@WriteCallback demo_hooks)
                [RInclude enter; RInclude leave]
                (new_tracker (TraceWriter_open 10 1))))
  = lit "[{'name':'include','ts':0.002,'ph':'X','dur':0.003,"
    +:+ lit "'pid':0,'tid':0,'args':{'file':'a.h'}}".
Proof.
  intros enter leave.
  destruct (@include_is_one_entry demo_hooks "a.h" "a.c" 12 15 None
              (loaded None) [] (TraceWriter_open 10 1) eq_refl)
    as (_ & _ & Hfile & _).
  etransitivity; [exact Hfile|]. vm_compute. reflexivity.
Defined.

Lemma epoch_is_unit_start_witness :
  let rest :=
    [(12, FILE_CHANGE (Some {| reason := LC_ENTER; to_file := "a.h" |}));
     (15, FILE_CHANGE (Some {| reason := LC_LEAVE; to_file := "a.c" |}));
     (20, PLUGIN_FINISH_UNIT)] in
  ∃ g, run ((10, PLUGIN_START_UNIT) :: rest) (loaded None) = Some g
       ∧ run_epoch g = 10
       ∧ head (reverse (trace_unit g))
         = Some (new_record 10 {| unit_kind := UnitEventKind.Start |})
       ∧ ∀ r, r ∈ recorded g → 10 ≤ record_time r.
Proof.
  intros rest. apply (epoch_is_unit_start None 10 rest).
  - repeat constructor; simpl; lia.
  - repeat constructor.
  - reflexivity.
  - vm_compute. discriminate.
Defined.
